(** * json-ui: decomposition of search-score explanations

    A shallow embedding of [src/index.js]: the functions that decompose the
    response of the query API ([decomposeSKU], [setData], [traverseDetails]),
    build the nested score list of a card ([scoreList], [createScoreDetail],
    [appendScoreDetail], [addBoostClass], [getBoostName], [sidebarOption]),
    write the score formula ([scoreFormula], [scoreFormulaFormat]) and
    aggregate the scores of a product ([productScores]).  The two other
    files of the repository hold an earlier variant of the same functions,
    which reads the responses from files.

    Conventions of the embedding.
    - The response that [decomposeSKU] decomposes is typed: it has its
      explanations and its documents, a node of an explanation has scalar
      [description] and [value] (or lacks them) and possibly a [details]
      array of nodes, a document has the fields that [setData] reads (or
      lacks them).  A query that fails, or whose response lacks [debug] or
      [debug.explain], is a case of its own ([fetched]).
    - A JavaScript object used as a map ([allProducts], [allDetails], the
      [skus] of a product) is a [gmap] over its own property keys; the order
      in which JavaScript enumerates them is not modelled, and no statement
      below depends on it.  The object that arrives in the response is the
      list of its entries in the order of [Object.keys].
    - The two module-level variables and the part of the document that the
      functions mutate are passed explicitly as state.
    - A function that can raise returns a [result]; when it mutates state
      before raising, it returns the state reached together with the result.
    - Strings are sequences of one-byte characters; [length] counts them. *)

From Stdlib Require Import ZArith Ascii String List Lia DecimalString.
From Stdlib Require DecimalFacts DecimalPos DecimalN.
From stdpp Require Import base option list gmap strings.

(** ** Results of fallible code *)

Inductive exn := TypeError | InvalidCharacterError | SyntaxError.

(** [Diverge] is the result of a loop that never exits. *)
Inductive result (A : Type) :=
| Ok (a : A)
| Throw (e : exn)
| Diverge.
Arguments Ok {A} a.
Arguments Throw {A} e.
Arguments Diverge {A}.

#[global] Instance result_bind : MBind result := λ A B k r,
  match r with
  | Ok a => k a
  | Throw e => Throw e
  | Diverge => Diverge
  end.

(** ** Numbers and values

    The code never computes with a score: it stores, prints, parses and
    compares them.  A finite Number is carried as a decimal [m * 10 ^ e], the
    form in which JSON writes it and [Number.prototype.toString] prints it. *)

Inductive number :=
| NaN
| Inf (negative : bool)
| Fin (m e : Z).

Inductive jsval :=
| Undefined
| Null
| Bool (b : bool)
| Num (n : number)
| Str (s : string).

Definition zero : number := Fin 0 0.

(** The two mantissas of [Fin m1 e1] and [Fin m2 e2] at their common
    exponent. *)
Definition aligned (m1 e1 m2 e2 : Z) : Z * Z :=
  let e0 := Z.min e1 e2 in
  (m1 * 10 ^ (e1 - e0), m2 * 10 ^ (e2 - e0))%Z.

(** [x > y] on Numbers: false as soon as one side is [NaN]. *)
Definition number_gt (x y : number) : bool :=
  match x, y with
  | NaN, _ | _, NaN => false
  | Inf false, Inf false => false
  | Inf false, _ => true
  | _, Inf false => false
  | Inf true, _ => false
  | Fin _ _, Inf true => true
  | Fin m1 e1, Fin m2 e2 =>
      let '(a, b) := aligned m1 e1 m2 e2 in (b <? a)%Z
  end.

(** [x >= y] on Numbers. *)
Definition number_ge (x y : number) : bool :=
  match x, y with
  | NaN, _ | _, NaN => false
  | Inf false, _ => true
  | _, Inf true => true
  | Inf true, _ => false
  | Fin _ _, Inf false => false
  | Fin m1 e1, Fin m2 e2 =>
      let '(a, b) := aligned m1 e1 m2 e2 in (b <=? a)%Z
  end.

(** [x === y] on Numbers. *)
Definition number_eq (x y : number) : bool :=
  match x, y with
  | Inf a, Inf b => Bool.eqb a b
  | Fin m1 e1, Fin m2 e2 =>
      let '(a, b) := aligned m1 e1 m2 e2 in (a =? b)%Z
  | _, _ => false
  end.

(** Strict equality [===] of two values. *)
Definition strict_eq (x y : jsval) : bool :=
  match x, y with
  | Undefined, Undefined => true
  | Null, Null => true
  | Bool a, Bool b => Bool.eqb a b
  | Num a, Num b => number_eq a b
  | Str a, Str b => String.eqb a b
  | _, _ => false
  end.

(** ** Strings: the String methods that the code calls *)

Definition digits (n : Z) : string := NilZero.string_of_uint (N.to_uint (Z.to_N n)).

(** The first [n] characters of [s], and [s] without them. *)
Fixpoint take (n : nat) (s : string) : string :=
  match n, s with
  | S n', String c s' => String c (take n' s')
  | _, _ => EmptyString
  end.
Fixpoint drop (n : nat) (s : string) : string :=
  match n, s with
  | S n', String _ s' => drop n' s'
  | _, _ => s
  end.

Fixpoint repeat0 (n : nat) : string :=
  match n with
  | O => EmptyString
  | S n' => String "0" (repeat0 n')
  end.

(** [s.split(sep)] for a separator of one character. *)
Fixpoint split (sep : ascii) (s : string) : list string :=
  match s with
  | EmptyString => [EmptyString]
  | String c s' =>
      if Ascii.eqb c sep then EmptyString :: split sep s'
      else match split sep s' with
           | [] => [String c EmptyString]
           | w :: ws => String c w :: ws
           end
  end.

(** [l.join(sep)]. *)
Fixpoint join (sep : string) (l : list string) : string :=
  match l with
  | [] => EmptyString
  | [w] => w
  | w :: ws => w +:+ sep +:+ join sep ws
  end.

(** [s.includes(sub)]. *)
Fixpoint includes (sub s : string) : bool :=
  String.prefix sub s ||
  match s with
  | EmptyString => false
  | String _ s' => includes sub s'
  end.

(** [s.replace(pat, rep)] with a string pattern: only the first occurrence
    of [pat] is replaced ([rep] contains no [$]). *)
Fixpoint replace (pat rep s : string) : string :=
  if String.prefix pat s then rep +:+ drop (String.length pat) s
  else match s with
       | EmptyString => EmptyString
       | String c s' => String c (replace pat rep s')
       end.

(** Trailing zeros of a digit string: the digits without them, and their
    number. *)
Fixpoint strip_zeros (s : string) : string * nat :=
  match s with
  | EmptyString => (EmptyString, O)
  | String c s' =>
      let '(t, z) := strip_zeros s' in
      match t with
      | EmptyString => if Ascii.eqb c "0" then (EmptyString, S z) else (String c EmptyString, z)
      | _ => (String c t, z)
      end
  end.

(** [Number.prototype.toString()]: with [k] significant digits [s] and
    [n] the position of the decimal point, the four layouts of the
    language definition. *)
Definition Number_toString (x : number) : string :=
  match x with
  | NaN => "NaN"
  | Inf false => "Infinity"
  | Inf true => "-Infinity"
  | Fin m e =>
      if (m =? 0)%Z then "0"
      else
        let sign := if (m <? 0)%Z then "-" else EmptyString in
        let '(s, z) := strip_zeros (digits (Z.abs m)) in
        let k := Z.of_nat (String.length s) in
        let n := (k + e + Z.of_nat z)%Z in
        sign +:+
        (if (k <=? n)%Z && (n <=? 21)%Z then s +:+ repeat0 (Z.to_nat (n - k))
         else if (0 <? n)%Z && (n <=? 21)%Z then
           take (Z.to_nat n) s +:+ "." +:+ drop (Z.to_nat n) s
         else if (-6 <? n)%Z && (n <=? 0)%Z then
           "0." +:+ repeat0 (Z.to_nat (- n)) +:+ s
         else
           let ex := (n - 1)%Z in
           let exs := (if (ex <? 0)%Z then "-" else "+") +:+ digits (Z.abs ex) in
           if (k =? 1)%Z then s +:+ "e" +:+ exs
           else take 1 s +:+ "." +:+ drop 1 s +:+ "e" +:+ exs)
  end.

(** [String(v)], as in a template literal or a concatenation. *)
Definition ToString (v : jsval) : string :=
  match v with
  | Undefined => "undefined"
  | Null => "null"
  | Bool true => "true"
  | Bool false => "false"
  | Num n => Number_toString n
  | Str s => s
  end.

(** The text of an element after [element.textContent = v]: [null] and
    [undefined] give the empty text. *)
Definition textContent (v : jsval) : string :=
  match v with
  | Undefined | Null => EmptyString
  | _ => ToString v
  end.

(** ** The response of the query API

    [data["debug"]["explain"]] maps each scored item key [skuId_productId]
    to the root of its explanation tree; [data["response"]["docs"]] is the
    document list.  A field that a node or a document lacks reads as
    [Undefined]; an array-valued field that is absent is [None]. *)

Unset Elimination Schemes.
Inductive ExplanationNode :=
| Node (description value : jsval) (details : option (list ExplanationNode)).
Set Elimination Schemes.

Definition description (n : ExplanationNode) : jsval :=
  match n with Node d _ _ => d end.
Definition value (n : ExplanationNode) : jsval :=
  match n with Node _ v _ => v end.
Definition details (n : ExplanationNode) : option (list ExplanationNode) :=
  match n with Node _ _ ds => ds end.

(** One element of a document's [style_order_list]. *)
Record style := {
  sku_id : jsval;
  style_skuImages : option (list jsval)
}.

Record doc := {
  product_id : jsval;
  product_displayName : jsval;
  sku_size : jsval;
  sku_skuImages : option (list jsval);
  style_order_list : option (list style)
}.

Record response := {
  explain : list (string * ExplanationNode);
  docs : list doc
}.

(** ** The two module-level stores *)

(** A score record is the array [[depth, description, value]]. *)
Record ScoreRecord := mkRecord {
  rdepth : nat;
  rdescription : jsval;
  rvalue : jsval
}.

Record SKU := {
  skuScore : jsval;
  skuImg : jsval
}.

Record Product := {
  productId : jsval;
  displayName : jsval;
  size_ : jsval;
  prodImg : jsval;
  skus : gmap string SKU
}.

Record globals := {
  allProducts : gmap string Product;
  allDetails : gmap string (list ScoreRecord)
}.

Definition set_allProducts (p : gmap string Product) (g : globals) : globals :=
  {| allProducts := p; allDetails := allDetails g |}.
Definition set_allDetails (d : gmap string (list ScoreRecord)) (g : globals) : globals :=
  {| allProducts := allProducts g; allDetails := d |}.
Definition set_sku (skuId : string) (s : SKU) (p : Product) : Product :=
  {| productId := productId p; displayName := displayName p; size_ := size_ p;
     prodImg := prodImg p; skus := <[skuId := s]> (skus p) |}.

(** ** traverseDetails

    [arr] is the array [allDetails[prodId]], to which the function pushes.
    The keys of a node are visited in turn and only [details] holds an
    object, so the body of the [forEach] runs once when the node has a
    [details] array and never otherwise.  The last call, on the array
    itself, visits the indices of the array, none of which is the key
    [details]: it pushes nothing. *)
Fixpoint traverseDetails (depth : nat) (item : ExplanationNode)
    (arr : list ScoreRecord) : list ScoreRecord :=
  match details item with
  | None => arr
  | Some short =>
      fold_left
        (fun arr short_i =>
           traverseDetails (depth + 1) short_i
             (arr ++ [mkRecord (depth + 1) (description short_i) (value short_i)]))
        short arr
  end.

(** ** setData *)

(** [images[0]], where reading an index of [undefined] raises. *)
Definition first_image (images : option (list jsval)) : result jsval :=
  match images with
  | None => Throw TypeError
  | Some l => Ok (nth 0 l Undefined)
  end.

(** The inner loop over [skuslist]: the array, extended with the image of
    the first entry whose [sku_id] is [skuId]. *)
Fixpoint setData_sku (skuslist : list style) (skuId : jsval)
    (array : list jsval) : result (list jsval) :=
  match skuslist with
  | [] => Ok array
  | s :: rest =>
      if strict_eq (sku_id s) skuId
      then img ← first_image (style_skuImages s); Ok (array ++ [img])
      else setData_sku rest skuId array
  end.

(** The loop over the documents; [Ok None] is the [undefined] returned
    when no document matches. *)
Fixpoint setData_docs (l : list doc) (productId skuId : jsval)
    : result (option (list jsval)) :=
  match l with
  | [] => Ok None
  | item :: rest =>
      if strict_eq (product_id item) productId
      then
        img ← first_image (sku_skuImages item);
        let array := [product_displayName item; sku_size item; img] in
        match style_order_list item with
        | None => Throw TypeError
        | Some skuslist => array' ← setData_sku skuslist skuId array; Ok (Some array')
        end
      else setData_docs rest productId skuId
  end.

Definition setData (data : response) (productId skuId : jsval)
    : result (option (list jsval)) :=
  setData_docs (docs data) productId skuId.

(** ** decomposeSKU *)

(** [array.forEach(body)] over a state: an exception ends the loop and
    leaves the state as it was when raised. *)
Fixpoint forEach {St X : Type} (body : X → St → St * result ())
    (l : list X) (s : St) : St * result () :=
  match l with
  | [] => (s, Ok ())
  | x :: rest =>
      match body x s with
      | (s', Ok _) => forEach body rest s'
      | stopped => stopped
      end
  end.

(** [let [skuId, prodId] = item.split('_')]. *)
Definition item_ids (item : string) : string * jsval :=
  match split "_" item with
  | [] => (EmptyString, Undefined)
  | [skuId] => (skuId, Undefined)
  | skuId :: prodId :: _ => (skuId, Str prodId)
  end.

(** The array stored in [allDetails[item]]: created empty, given the
    record of the root at depth 1, then filled by [traverseDetails]. *)
Definition itemDetails (skus_item : ExplanationNode) : list ScoreRecord :=
  let arr := [] in
  let arr := arr ++ [mkRecord 1 (description skus_item) (value skus_item)] in
  traverseDetails 1 skus_item arr.

(** The callback of the [forEach] in [decomposeSKU], for the key [item]
    and [skus[item]]. *)
Definition decomposeItem (data : response) (entry : string * ExplanationNode)
    (g : globals) : globals * result () :=
  let '(item, skus_item) := entry in
  let '(skuId, prodId) := item_ids item in
  let value_ := value skus_item in
  match setData data prodId (Str skuId) with
  | Throw e => (g, Throw e)
  | Diverge => (g, Diverge)
  | Ok None => (g, Ok ())
  | Ok (Some array) =>
      let key := ToString prodId in
      let g1 :=
        match allProducts g !! key with
        | Some _ => g
        | None =>
            set_allProducts
              (<[key := {| productId := prodId;
                           displayName := nth 0 array Undefined;
                           size_ := nth 1 array Undefined;
                           prodImg := nth 2 array Undefined;
                           skus := ∅ |}]> (allProducts g)) g
        end in
      let g2 :=
        set_allProducts
          (alter (set_sku skuId {| skuScore := value_; skuImg := nth 3 array Undefined |})
                 key (allProducts g1)) g1 in
      (set_allDetails (<[item := itemDetails skus_item]> (allDetails g2)) g2, Ok ())
  end.

Definition decomposeSKU (data : response) (g : globals) : globals * result () :=
  let skus := explain data in
  let g := set_allProducts ∅ g in
  let g := set_allDetails ∅ g in
  forEach (decomposeItem data) skus g.

(** ** Parsing numbers *)

Definition is_whitespace (c : ascii) : bool :=
  let n := nat_of_ascii c in
  (n =? 9) || (n =? 10) || (n =? 11) || (n =? 12) || (n =? 13) || (n =? 32).

Fixpoint trimStart (s : string) : string :=
  match s with
  | String c s' => if is_whitespace c then trimStart s' else s
  | EmptyString => EmptyString
  end.

(** An optional sign: whether it is [-], and the rest. *)
Definition read_sign (s : string) : bool * string :=
  match s with
  | String "-" s' => (true, s')
  | String "+" s' => (false, s')
  | _ => (false, s)
  end.

Definition digit_value (radix : Z) (c : ascii) : option Z :=
  let n := Z.of_nat (nat_of_ascii c) in
  let v := if (48 <=? n)%Z && (n <=? 57)%Z then Some (n - 48)%Z
           else if (97 <=? n)%Z && (n <=? 122)%Z then Some (n - 87)%Z
           else if (65 <=? n)%Z && (n <=? 90)%Z then Some (n - 55)%Z
           else None in
  match v with
  | Some d => if (d <? radix)%Z then Some d else None
  | None => None
  end.

(** The longest prefix of digits of [s]: its value and length ([acc] and
    [len] so far), and the rest of [s]. *)
Fixpoint read_digits (radix : Z) (s : string) (acc : Z) (len : nat) : Z * nat * string :=
  match s with
  | EmptyString => (acc, len, s)
  | String c s' =>
      match digit_value radix c with
      | Some d => read_digits radix s' (acc * radix + d)%Z (S len)
      | None => (acc, len, s)
      end
  end.

(** [parseInt(s)] without a radix; [None] is [NaN]. *)
Definition parseInt (s : string) : option Z :=
  let '(neg, s) := read_sign (trimStart s) in
  let '(radix, s) :=
    if String.prefix "0x" s || String.prefix "0X" s then (16%Z, drop 2 s) else (10%Z, s) in
  let '(n, len, _) := read_digits radix s 0 0 in
  match len with
  | O => None
  | _ => Some (if neg then (- n)%Z else n)
  end.

(** The exponent part [e±ddd] of a decimal literal, 0 when [s] does not
    start with a complete one. *)
Definition read_exponent (s : string) : Z :=
  match s with
  | String c s' =>
      if Ascii.eqb c "e" || Ascii.eqb c "E" then
        let '(neg, s'') := read_sign s' in
        let '(n, len, _) := read_digits 10 s'' 0 0 in
        match len with
        | O => 0%Z
        | _ => if neg then (- n)%Z else n
        end
      else 0%Z
  | EmptyString => 0%Z
  end.

(** [parseFloat(s)] on a string: the longest prefix that is a decimal
    literal.  The literal is kept as written; its rounding to a double is
    not modelled. *)
Definition parseFloat_string (s : string) : number :=
  let '(neg, s) := read_sign (trimStart s) in
  if String.prefix "Infinity" s then Inf neg
  else
    let '(int_part, len1, s1) := read_digits 10 s 0 0 in
    let '(mantissa, len2, s2) :=
      match s1 with
      | String "." s1' => read_digits 10 s1' int_part 0
      | _ => (int_part, O, s1)
      end in
    match (len1 + len2)%nat with
    | O => NaN
    | _ =>
        let e := (read_exponent s2 - Z.of_nat len2)%Z in
        Fin (if neg then (- mantissa)%Z else mantissa) e
    end.

(** [parseFloat(v)] first converts its argument to a string. *)
Definition parseFloat (v : jsval) : number := parseFloat_string (ToString v).

(** ** The document: the nested score list of a card

    A [<details>] element of the score list, as [createScoreDetail] builds
    it: its class list, the texts of the [p.detail-desc] and [p.detail-val]
    of its summary, and the [<details>] appended after the summary. *)

Unset Elimination Schemes.
Inductive detailsElement :=
| Details (classList : list string) (desc val : string) (nested : list detailsElement).
Set Elimination Schemes.

Definition classList (d : detailsElement) : list string :=
  match d with Details c _ _ _ => c end.
Definition detail_desc (d : detailsElement) : string :=
  match d with Details _ t _ _ => t end.
Definition detail_val (d : detailsElement) : string :=
  match d with Details _ _ t _ => t end.
Definition nested (d : detailsElement) : list detailsElement :=
  match d with Details _ _ _ l => l end.

(** ASCII whitespace, which a class token may not contain. *)
Definition is_ascii_whitespace (c : ascii) : bool :=
  let n := nat_of_ascii c in
  (n =? 9) || (n =? 10) || (n =? 12) || (n =? 13) || (n =? 32).

Fixpoint has_whitespace (s : string) : bool :=
  match s with
  | EmptyString => false
  | String c s' => is_ascii_whitespace c || has_whitespace s'
  end.

(** A class list with [token], which is not added again when present. *)
Definition with_token (token : string) (classes : list string) : list string :=
  if bool_decide (token ∈ classes) then classes else classes ++ [token].

(** [element.classList.add(token)]: the empty token and a token with
    whitespace are refused. *)
Definition classList_add (token : string) (classes : list string) : result (list string) :=
  if String.eqb token EmptyString then Throw SyntaxError
  else if has_whitespace token then Throw InvalidCharacterError
  else Ok (with_token token classes).

(** A position in the score list: the path of child indices from the
    container, [[]] being the container itself. *)
Definition path := list nat.

Fixpoint element_at (l : list detailsElement) (p : path) : option detailsElement :=
  match p with
  | [] => None
  | i :: p' =>
      match nth_error l i with
      | None => None
      | Some d => match p' with [] => Some d | _ => element_at (nested d) p' end
      end
  end.

(** The elements on the way to [p], outermost first, [p]'s own last. *)
Fixpoint elements_to (l : list detailsElement) (p : path) : list detailsElement :=
  match p with
  | [] => []
  | i :: p' =>
      match nth_error l i with
      | None => []
      | Some d => d :: elements_to (nested d) p'
      end
  end.

(** The children of the node at [p] rewritten by [f] ([p = []]: the
    children of the container). *)
Fixpoint update_children (f : list detailsElement → list detailsElement)
    (l : list detailsElement) (p : path) : list detailsElement :=
  match p with
  | [] => f l
  | i :: p' =>
      match nth_error l i with
      | None => l
      | Some (Details c t v k) =>
          <[i := Details c t v (update_children f k p')]> l
      end
  end.

(** The class list of the element at [p] rewritten. *)
Fixpoint update_classList (classes : list string)
    (l : list detailsElement) (p : path) : list detailsElement :=
  match p with
  | [] => l
  | i :: p' =>
      match nth_error l i with
      | None => l
      | Some (Details c t v k) =>
          match p' with
          | [] => <[i := Details classes t v k]> l
          | _ => <[i := Details c t v (update_classList classes k p')]> l
          end
      end
  end.

(** Among the elements [l], numbered from [i], the path to the last
    element in document order: the last of [l], then [below] it. *)
Fixpoint last_of (below : detailsElement → path) (l : list detailsElement)
    (i : nat) : path :=
  match l with
  | [] => []
  | [d] => i :: below d
  | _ :: rest => last_of below rest (S i)
  end.

(** The path, below [d], to the last element of
    [d.querySelectorAll('details')]: down the chain of last children; [[]]
    when [d] has no nested element. *)
Fixpoint last_below (d : detailsElement) : path :=
  match d with
  | Details _ _ _ k => last_of last_below k O
  end.

(** The same below the container with children [l]. *)
Definition last_path (l : list detailsElement) : path := last_of last_below l O.

(** The last of [querySelectorAll('details')] under the node at [p]
    ([p = []]: under the container); [None] when there is none. *)
Definition last_details (l : list detailsElement) (p : path) : option path :=
  match p with
  | [] =>
      match last_path l with
      | [] => None
      | q => Some q
      end
  | _ =>
      match element_at l p with
      | None => None
      | Some d =>
          match last_below d with
          | [] => None
          | q => Some (p ++ q)
          end
      end
  end.

(** Number of [<details>] elements. *)
Fixpoint count_details (d : detailsElement) : nat :=
  match d with
  | Details _ _ _ k => S (list_sum (map count_details k))
  end.

(** ** createScoreDetail and appendScoreDetail *)

(** [scoreDetail[0]], the depth, as a value. *)
Definition depth_value (scoreDetail : ScoreRecord) : jsval :=
  Num (Fin (Z.of_nat (rdepth scoreDetail)) 0).

Definition createScoreDetail (scoreDetail : ScoreRecord) : result detailsElement :=
  let indent := "indent-" +:+ ToString (depth_value scoreDetail) in
  classes ← classList_add indent [];
  Ok (Details classes (textContent (rdescription scoreDetail))
        (textContent (rvalue scoreDetail)) []).

(** The class list of the container, an [<article>] that is not in the
    document while the list is built. *)
Definition container_classList : list string := ["content"; "hidden"].

Definition classList_at (l : list detailsElement) (p : path) : list string :=
  match p with
  | [] => container_classList
  | _ => from_option classList [] (element_at l p)
  end.

(** [parseInt(parent.classList.value.split("-")[1])]; [None] is [NaN]. *)
Definition indent_of (classes : list string) : option Z :=
  match nth_error (split "-" (join " " classes)) 1 with
  | None => None
  | Some s => parseInt s
  end.

(** [parent.parentNode]: the container has none. *)
Definition parentNode (p : path) : option path :=
  match p with
  | [] => None
  | _ => Some (removelast p)
  end.

Definition number_of_children (l : list detailsElement) (p : path) : nat :=
  match p with
  | [] => length l
  | _ => from_option (fun d => length (nested d)) O (element_at l p)
  end.

(** The [while (parent)] loop.  The result is the list and the place where
    [drop] now is, [None] when the loop ended without appending it. *)
Fixpoint appendScoreDetail_loop (fuel : nat) (l : list detailsElement)
    (drop : detailsElement) (indentLevel : option Z) (parent : option path)
    : result (list detailsElement * option path) :=
  match parent with
  | None => Ok (l, None)
  | Some p =>
      match fuel with
      | O => Diverge
      | S fuel' =>
          let depth := indent_of (classList_at l p) in
          match depth, indentLevel with
          | Some d, Some i =>
              if (d <? i - 1)%Z then
                appendScoreDetail_loop fuel' l drop indentLevel (last_details l p)
              else if (d =? i - 1)%Z then
                Ok (update_children (fun k => k ++ [drop]) l p,
                    Some (p ++ [number_of_children l p]))
              else appendScoreDetail_loop fuel' l drop indentLevel (parentNode p)
          | _, _ => appendScoreDetail_loop fuel' l drop indentLevel (parentNode p)
          end
      end
  end.

(** The loop changes nothing until it appends, so it either exits within
    as many iterations as there are nodes it can stand on (the elements and
    the container) or repeats a node and never exits: the fuel given is
    enough for every run that ends (theorem [appendScoreDetail_fuel]). *)
Definition appendScoreDetail (dropDownContainer : list detailsElement)
    (drop : detailsElement) (scoreDetail : ScoreRecord)
    : result (list detailsElement * option path) :=
  let indentLevel := parseInt (ToString (depth_value scoreDetail)) in
  match last_details dropDownContainer [] with
  | Some parent =>
      appendScoreDetail_loop
        (S (S (list_sum (map count_details dropDownContainer))))
        dropDownContainer drop indentLevel (Some parent)
  | None => Ok (dropDownContainer ++ [drop], Some [O])
  end.

(** The three branches of the loop body, named for the theorems on the
    loop: what one iteration does at the node [p]. *)
Inductive move := go_deeper | do_append | go_up.

Definition move_at (l : list detailsElement) (indentLevel : option Z)
    (p : path) : move :=
  match indent_of (classList_at l p), indentLevel with
  | Some d, Some i =>
      if (d <? i - 1)%Z then go_deeper
      else if (d =? i - 1)%Z then do_append else go_up
  | _, _ => go_up
  end.

(** The node at depth [k] on the way from the container to the last
    element of the list, the container being at depth 0. *)
Definition node (l : list detailsElement) (k : nat) : path :=
  firstn k (last_path l).

(** Every node below depth [k] on that way sends the loop up. *)
Definition climbs (l : list detailsElement) (indentLevel : option Z)
    (k : nat) : Prop :=
  ∀ j, k < j ≤ length (last_path l) → move_at l indentLevel (node l j) = go_up.

(** ** addBoostClass, getBoostName and sidebarOption *)

Definition has_class (c : string) (d : detailsElement) : bool :=
  bool_decide (c ∈ classList d).

(** [drop.closest('details.scoreweight')]: [drop] itself or the nearest
    element above it; a [drop] that was not appended has nothing above. *)
Definition closest_scoreweight (l : list detailsElement)
    (drop : detailsElement) (place : option path) : option detailsElement :=
  match place with
  | Some p => find (has_class "scoreweight") (rev (elements_to l p))
  | None => find (has_class "scoreweight") [drop]
  end.

Definition quote : ascii := ascii_of_nat 34.

(** The name computed from the description [name] of the weight.  [None]
    is [undefined], also returned when the [try] block raises. *)
Definition boostName_of (name : string) : option string :=
  match nth_error (split ":" (nth 0 (split " " name) EmptyString)) 1 with
  | None => None
  | Some boostName =>
      match boostName with
      | String c _ =>
          if Ascii.eqb c quote then
            match nth_error (split quote name) 1 with
            | Some quoted => Some (join "-" (split " " quoted))
            | None => None
            end
          else if String.eqb boostName "true" then
            nth_error (split "_" (nth 0 (split ":" name) EmptyString)) 1
          else Some boostName
      | EmptyString => Some boostName
      end
  end.

Definition getBoostName (l : list detailsElement) (drop : detailsElement)
    (place : option path) : option string :=
  match closest_scoreweight l drop place with
  | Some context => boostName_of (detail_desc context)
  | None => None
  end.

(** The checkboxes of [#checklist] by their ids: a new one is appended
    unless an element with the id exists.  No other element of the
    document is taken to have an id in [check-]. *)
Definition sidebarOption (boost : string) (checklist : list string) : list string :=
  let input_id := "check-" +:+ boost in
  if bool_decide (input_id ∈ checklist) then checklist
  else checklist ++ [input_id].

(** The part of the document that [addBoostClass] changes beside [drop]:
    the class lists of the card and of its parent, and the checklist. *)
Record page := {
  card : list string;
  deck : list string;
  checklist : list string
}.

(** [drop.classList.add(token)], for a [drop] that is at [place] in [l]. *)
Definition drop_classList_add (token : string) (l : list detailsElement)
    (drop : detailsElement) (place : option path) : result (list detailsElement) :=
  classes ← classList_add token (classList drop);
  Ok (match place with
      | Some p => update_classList classes l p
      | None => l
      end).

Definition addBoostClass (pg : page) (scoreDetail : ScoreRecord)
    (l : list detailsElement) (drop : detailsElement) (place : option path)
    : result (page * list detailsElement) :=
  match rdescription scoreDetail with
  | Str description =>
      if String.eqb description "boost" then
        let boostName := getBoostName l drop place in
        let boostClass :=
          ToString (from_option Str Undefined boostName) +:+ "-boost-" +:+
          ToString (rvalue scoreDetail) in
        card' ← classList_add boostClass (card pg);
        deck' ← classList_add boostClass (deck pg);
        let checklist' := sidebarOption boostClass (checklist pg) in
        l' ← drop_classList_add "scoreboost" l drop place;
        Ok ({| card := card'; deck := deck'; checklist := checklist' |}, l')
      else if includes "idf, computed as" description then
        l' ← drop_classList_add "scoreidf" l drop place; Ok (pg, l')
      else if includes "tf, computed as" description then
        l' ← drop_classList_add "scoretf" l drop place; Ok (pg, l')
      else
        let baseDescription := nth 0 (split "(" description) EmptyString in
        if String.eqb baseDescription "weight" then
          l' ← drop_classList_add "scoreweight" l drop place; Ok (pg, l')
        else if String.eqb baseDescription "max of:" then
          l' ← drop_classList_add "scoremax" l drop place; Ok (pg, l')
        else if String.eqb baseDescription "query" then
          l' ← drop_classList_add "scorequery" l drop place; Ok (pg, l')
        else Ok (pg, l)
  | _ => Throw TypeError
  end.

(** ** scoreList *)

(** [r] continued by [k], in a state [st] that stays as it is when [r]
    did not return. *)
Definition continue {St A : Type} (st : St) (r : result A)
    (k : A → St * result ()) : St * result () :=
  match r with
  | Ok a => k a
  | Throw e => (st, Throw e)
  | Diverge => (st, Diverge)
  end.

(** The body of the loop of [scoreList] for one record of the item. *)
Definition scoreList_body (scoreDetail : ScoreRecord)
    (st : page * list detailsElement) : (page * list detailsElement) * result () :=
  let '(pg, l) := st in
  continue st (createScoreDetail scoreDetail) (fun drop =>
  continue st (appendScoreDetail l drop scoreDetail) (fun '(l1, place) =>
  continue (pg, l1) (addBoostClass pg scoreDetail l1 drop place) (fun st' =>
  (st', Ok ())))).

(** The page after the call, and the container returned. *)
Definition scoreList (g : globals) (itemId : string) (pg : page)
    : page * result (list detailsElement) :=
  let item := default [] (allDetails g !! itemId) in
  match forEach scoreList_body item (pg, []) with
  | ((pg', l), Ok _) => (pg', Ok l)
  | ((pg', _), Throw e) => (pg', Throw e)
  | ((pg', _), Diverge) => (pg', Diverge)
  end.

(** ** scoreFormula and scoreFormulaFormat *)

(** The nested array that [scoreFormula] returns. *)
Unset Elimination Schemes.
Inductive formula :=
| Tok (s : string)
| Arr (l : list formula).
Set Elimination Schemes.

(** What the loop of [scoreFormula] pushes for one component. *)
Fixpoint scoreFormula_component (type : string) (component : detailsElement)
    : list formula :=
  match component with
  | Details _ description value components =>
      if includes "product of" description then
        [Arr (flat_map (scoreFormula_component "*") components)]
      else if includes "sum of" description then
        [Tok "("; Arr (flat_map (scoreFormula_component "+") components); Tok ")"]
      else if includes "weight" description && (100 <? String.length description) then
        [Tok value; Tok type;
         Arr (flat_map (scoreFormula_component "&") components)]
      else [Tok type; Tok value]
  end.

(** [scoreFormula(list, type)], [components] being the [<details>]
    children of [list]. *)
Definition scoreFormula (components : list detailsElement) (type : string)
    : list formula :=
  flat_map (scoreFormula_component type) components.

(** [formula.flat(Infinity)]. *)
Fixpoint flat (f : formula) : list string :=
  match f with
  | Tok s => [s]
  | Arr l => flat_map flat l
  end.

(** The two replacements that end [scoreFormulaFormat]. *)
Definition normalize (formula : string) : string :=
  let formula := replace "( + " "(" formula in
  let formula := replace " )" ")" formula in
  formula.

Definition scoreFormulaFormat (formula : list formula) : string :=
  let formula := flat_map flat formula in
  let formula := join " " formula in
  normalize formula.

(** The formula that [scoreSummary] shows for a score list. *)
Definition summary_formula (l : list detailsElement) : string :=
  scoreFormulaFormat (scoreFormula l " = ").

(** ** productScores *)

(** One turn of the loop, on [[skuCount, maxScore]]. *)
Definition productScores_step (acc : nat * number) (sku : SKU) : nat * number :=
  let '(skuCount, maxScore) := acc in
  let current := parseFloat (skuScore sku) in
  let maxScore := if number_gt current maxScore then current else maxScore in
  (S skuCount, maxScore).

Definition productScores (product : gmap string SKU) : nat * number :=
  fold_left productScores_step (map snd (map_to_list product)) (O, zero).

(** ** One query: queryData, then displayData *)

(** What the request of [queryData] comes to.  [query_failed]: [fetch] is
    rejected, [statusCheck] raises for a status that is not ok, or the
    body is no JSON, so that [decomposeSKU] is not called.  [no_debug]:
    the JSON has no object [debug], and reading [explain] of it raises
    before the stores are emptied.  [no_explain]: [debug] has no
    [explain], and [Object.keys] raises once the stores are emptied.
    [arrived data]: [debug.explain] is an object of trees and
    [response.docs] an array. *)
Inductive fetched :=
| query_failed
| no_debug
| no_explain
| arrived (data : response).

(** [queryData] on the stores.  Its [catch] takes whatever was raised and
    reports it with [handleError], which touches no store. *)
Definition queryData (r : fetched) (g : globals) : globals :=
  match r with
  | query_failed => g
  | no_debug => g
  | no_explain => set_allDetails ∅ (set_allProducts ∅ g)
  | arrived data => (decomposeSKU data g).1
  end.

Section Interface.

(** Whether [qs(`#${search} .${productId}`)] finds the section of the
    product; when it does not, [addCard] raises at once and its [catch]
    ends it. *)
Variable prodContainer : jsval → bool.

(** [addCard] on the class list of the product's section and the
    checklist.  After [scoreList] the function touches neither, and an
    exception ends in its [catch]. *)
Definition addCard (g : globals) (data : Product) (sku : string)
    (st : list string * list string) : (list string * list string) * result () :=
  let '(section, checks) := st in
  if prodContainer (productId data) then
    let productId_ := sku +:+ "_" +:+ ToString (productId data) in
    let pg := {| card := ["product-card"]; deck := section; checklist := checks |} in
    match scoreList g productId_ pg with
    | (pg', Diverge) => ((deck pg', checklist pg'), Diverge)
    | (pg', _) => ((deck pg', checklist pg'), Ok ())
    end
  else (st, Ok ()).

(** [buildInterface] on the checklist, which it first empties.  The
    section that [addProductSection] makes for a product has the product id
    and [product-container] as classes. *)
Definition buildInterface (g : globals) (checks : list string)
    : list string * result () :=
  let checks := [] in
  forEach
    (fun product checks =>
       let section := [ToString (productId product); "product-container"] in
       match forEach (addCard g product)
               (map fst (map_to_list (skus product))) (section, checks) with
       | ((_, checks'), r) => (checks', r)
       end)
    (map snd (map_to_list (allProducts g))) checks.

(** The stores and the registry of boosts. *)
Record app := {
  stores : globals;
  registry : list string
}.

(** [loadPage]: [queryData] returns whether the query failed or not, and
    [displayData] then calls [buildInterface] on the stores as they
    are. *)
Definition loadPage (r : fetched) (st : app) : app * result () :=
  let g := queryData r (stores st) in
  let '(checks, res) := buildInterface g (registry st) in
  ({| stores := g; registry := checks |}, res).

End Interface.

(** * The statements of the specification *)

(** ** Explanation trees *)

Definition children (t : ExplanationNode) : list ExplanationNode :=
  default [] (details t).

(** Number of nodes of a tree. *)
Fixpoint nodes (t : ExplanationNode) : nat :=
  match t with
  | Node _ _ None => 1
  | Node _ _ (Some l) => S (list_sum (map nodes l))
  end.

(** The pre-order listing of a tree whose root is at depth [d]: the root,
    then the listing of each child in source order, one level deeper. *)
Fixpoint preorder (d : nat) (t : ExplanationNode) : list ScoreRecord :=
  mkRecord d (description t) (value t) ::
  match t with
  | Node _ _ None => []
  | Node _ _ (Some l) => flat_map (preorder (S d)) l
  end.

(** [subnode t d n k]: in the tree [t], whose root is at depth [d], the
    node [n] occurs at depth [k]. *)
Inductive subnode : ExplanationNode → nat → ExplanationNode → nat → Prop :=
| subnode_root t d : subnode t d t d
| subnode_child t d l c n k :
    details t = Some l → In c l → subnode c (S d) n k → subnode t d n k.

(** A node is malformed when it lacks its description or its value. *)
Definition malformed (n : ExplanationNode) : bool :=
  strict_eq (description n) Undefined || strict_eq (value n) Undefined.

(** The listing that skips malformed nodes, as the specification words
    it. *)
Definition preorder_skipping (t : ExplanationNode) : list ScoreRecord :=
  filter (fun r => strict_eq (rdescription r) Undefined = false
                   ∧ strict_eq (rvalue r) Undefined = false) (preorder 1 t).

(** ** Documents and products *)

#[global] Instance number_eq_dec : EqDecision number.
Proof. solve_decision. Defined.

#[global] Instance jsval_eq_dec : EqDecision jsval.
Proof. solve_decision. Defined.

(** The number of distinct product ids of the document list. *)
Definition distinct_product_ids (data : response) : nat :=
  length (remove_dups (map product_id (docs data))).

(** The product id that the key of a scored item names. *)
Definition item_productId (item : string) : jsval := snd (item_ids item).

(** A document of the list has the product id [prodId]. *)
Definition matched (data : response) (prodId : jsval) : Prop :=
  ∃ d, In d (docs data) ∧ strict_eq (product_id d) prodId = true.

(** ** Roles *)

(** The roles of the classifier. *)
Inductive role :=
| boost | idf | tf | weight_aggregate | max_aggregate | query_constant | plain.

(** [sub] occurs in [s]. *)
Definition occurs_in (sub s : string) : Prop :=
  ∃ a b, s = a +:+ sub +:+ b.

(** [s] truncated before its first parenthesis. *)
Fixpoint truncated (s : string) : string :=
  match s with
  | EmptyString => EmptyString
  | String c s' => if Ascii.eqb c "(" then EmptyString else String c (truncated s')
  end.

(** The rules of the classifier in their order of priority: each role
    requires that no earlier rule applies. *)
Definition has_role (d : string) (r : role) : Prop :=
  match r with
  | boost => d = "boost"
  | idf => d ≠ "boost" ∧ occurs_in "idf, computed as" d
  | tf => d ≠ "boost" ∧ ¬ occurs_in "idf, computed as" d ∧ occurs_in "tf, computed as" d
  | weight_aggregate =>
      d ≠ "boost" ∧ ¬ occurs_in "idf, computed as" d ∧ ¬ occurs_in "tf, computed as" d ∧
      truncated d = "weight"
  | max_aggregate =>
      d ≠ "boost" ∧ ¬ occurs_in "idf, computed as" d ∧ ¬ occurs_in "tf, computed as" d ∧
      truncated d = "max of:"
  | query_constant =>
      d ≠ "boost" ∧ ¬ occurs_in "idf, computed as" d ∧ ¬ occurs_in "tf, computed as" d ∧
      truncated d = "query"
  | plain =>
      d ≠ "boost" ∧ ¬ occurs_in "idf, computed as" d ∧ ¬ occurs_in "tf, computed as" d ∧
      truncated d ≠ "weight" ∧ truncated d ≠ "max of:" ∧ truncated d ≠ "query"
  end.

(** The class by which the score list records a role; the plain role has
    none. *)
Definition role_class (r : role) : option string :=
  match r with
  | boost => Some "scoreboost"
  | idf => Some "scoreidf"
  | tf => Some "scoretf"
  | weight_aggregate => Some "scoreweight"
  | max_aggregate => Some "scoremax"
  | query_constant => Some "scorequery"
  | plain => None
  end.

(** The score list in which [drop], at [place], has the class of the role
    [r] beside its own. *)
Definition with_role (r : role) (l : list detailsElement)
    (drop : detailsElement) (place : option path) : list detailsElement :=
  match role_class r, place with
  | Some c, Some p => update_classList (with_token c (classList drop)) l p
  | _, _ => l
  end.

(** The class name under which a boost is registered. *)
Definition boostClass_of (boostName : option string) (v : jsval) : string :=
  ToString (from_option Str Undefined boostName) +:+ "-boost-" +:+ ToString v.

(** No character of [s] is [c]. *)
Fixpoint without (c : ascii) (s : string) : bool :=
  match s with
  | EmptyString => true
  | String c' s' => negb (Ascii.eqb c' c) && without c s'
  end.

(** [id] is the checkbox of a boost record of the store [g]. *)
Definition boost_entry (g : globals) (id : string) : Prop :=
  ∃ item records r name,
    allDetails g !! item = Some records ∧ r ∈ records ∧
    rdescription r = Str "boost" ∧
    id = "check-" +:+ boostClass_of name (rvalue r).

(** * Sample inputs *)

(** The tree of the scenario: a sum of two weights. *)
Definition sum_of_weights : ExplanationNode :=
  Node (Str "sum of:") (Num (Fin 10 0))
    (Some [Node (Str "weight(field:x)") (Num (Fin 6 0)) None;
           Node (Str "weight(field:y)") (Num (Fin 4 0)) None]).

(** The same tree with a first child that has no description. *)
Definition malformed_example : ExplanationNode :=
  Node (Str "sum of:") (Num (Fin 10 0))
    (Some [Node Undefined (Num (Fin 6 0)) None;
           Node (Str "weight(field:y)") (Num (Fin 4 0)) None]).

(** A weight on the term [red] of the field [field_color], with a boost
    whose value is the string [true]. *)
Definition red_boost : ExplanationNode :=
  Node (Str "weight(field_color:red in 5)") (Num (Fin 2 0))
    (Some [Node (Str "boost") (Str "true") None]).

(** A sum whose first term is itself a sum. *)
Definition nested_sums : ExplanationNode :=
  Node (Str "sum of:") (Num (Fin 10 0))
    (Some [Node (Str "sum of:") (Num (Fin 6 0))
             (Some [Node (Str "weight(field:x)") (Num (Fin 2 0)) None;
                    Node (Str "weight(field:y)") (Num (Fin 4 0)) None]);
           Node (Str "weight(field:z)") (Num (Fin 4 0)) None]).

Definition doc_P1 : doc :=
  {| product_id := Str "P1"; product_displayName := Str "Align Pant";
     sku_size := Str "6"; sku_skuImages := Some [Str "p1.jpg"];
     style_order_list :=
       Some [{| sku_id := Str "A1"; style_skuImages := Some [Str "a1.jpg"] |}] |}.

Definition no_globals : globals := {| allProducts := ∅; allDetails := ∅ |}.

(** The stores with the records of one item only. *)
Definition details_of (item : string) (t : ExplanationNode) : globals :=
  {| allProducts := ∅; allDetails := {[ item := itemDetails t ]} |}.

(** A card of the product [P1] before its score list is built. *)
Definition new_card : page :=
  {| card := ["product-card"]; deck := ["P1"; "product-container"]; checklist := [] |}.

(** A weight on the term [true] of the field [field_color] in a score
    list, with its boost appended and not yet classified. *)
Definition color_weight : detailsElement :=
  Details ["indent-1"; "scoreweight"] "weight(field_color:true in 5)" "2"
    [Details ["indent-2"] "boost" "true" []].

(** Two SKUs: a negative score and a score that is not a number. *)
Definition negative_scores : gmap string SKU :=
  {[ "A1" := {| skuScore := Num (Fin (-25) (-1)); skuImg := Undefined |};
     "A2" := {| skuScore := Str "n/a"; skuImg := Undefined |} ]}.

(** * The rest of the program

    The functions of [src/index.js] around the ones above: the keys and ids
    that they exchange, the address of the query, the schedule of the token,
    the decks and the filters, and the summary of a card. *)

(** ** More String methods *)

(** [s.split(sep)] for a separator [sep] of one or more characters; [skip]
    counts the characters of a separator just found that are still to be
    passed over. *)
Fixpoint split_skip (sep : string) (skip : nat) (s : string) : list string :=
  match s with
  | EmptyString => [EmptyString]
  | String c s' =>
      match skip with
      | S k => split_skip sep k s'
      | O =>
          if String.prefix sep s
          then EmptyString :: split_skip sep (String.length sep - 1) s'
          else match split_skip sep 0 s' with
               | [] => [String c EmptyString]
               | w :: ws => String c w :: ws
               end
      end
  end.

Definition split_string (sep s : string) : list string := split_skip sep 0 s.

(** [s] with every character [c] replaced by the string [rep]. *)
Fixpoint replace_char (c : ascii) (rep s : string) : string :=
  match s with
  | EmptyString => EmptyString
  | String x s' =>
      (if Ascii.eqb x c then rep else String x EmptyString) +:+ replace_char c rep s'
  end.

(** The number of characters [c] in [s]. *)
Fixpoint count_char (c : ascii) (s : string) : nat :=
  match s with
  | EmptyString => O
  | String x s' => (if Ascii.eqb x c then 1 else 0) + count_char c s'
  end.

(** ** Keys, ids and addresses *)

(** [sku + '_' + data['productId']] in [addCard]: the key under which the
    card asks [scoreList] for its records. *)
Definition addCard_productId (sku : string) (productId : jsval) : string :=
  sku +:+ "_" +:+ ToString productId.

(** [(filters[i].id).split('-').slice(1).join('-')] in [filterCards]: the
    class that the checkbox with the id stands for. *)
Definition filter_boost (id : string) : string :=
  join "-" (skipn 1 (split "-" id)).

(** The text of the label that [sidebarOption] gives the checkbox of the
    class [boost]. *)
Definition sidebarOption_label (boost : string) : string :=
  let boost := split_string "-boost-" boost in
  join " " (split "-" (nth 0 boost EmptyString)) +:+ ": " +:+
  ToString (from_option Str Undefined (nth_error boost 1)).

Definition APPID : string := "LLM_us".

(** [queryURL] in [queryData], for the text of the search bar. *)
Definition queryURL (search : string) : string :=
  let search := join "%20" (split " " search) in
  "/api/apps/" +:+ APPID +:+ "/query/" +:+ APPID +:+ "?q=" +:+ search +:+
  "&debug=results&debug.explain.structured=true".

(** ** The first match, as a search *)

(** The first document of the list whose product id is [productId]. *)
Definition first_doc (data : response) (productId : jsval) : option doc :=
  find (fun d => strict_eq (product_id d) productId) (docs data).

(** The first element of a [style_order_list] whose [sku_id] is [skuId]. *)
Definition first_style (styles : list style) (skuId : jsval) : option style :=
  find (fun s => strict_eq (sku_id s) skuId) styles.

(** What a Product entry holds.  Its key is a property key, the product id
    as a string. *)
Definition product_of (data : response) (key : string) (p : Product) : Prop :=
  key = ToString (productId p) ∧
  (∃ d images, first_doc data (productId p) = Some d ∧
     sku_skuImages d = Some images ∧
     displayName p = product_displayName d ∧ size_ p = sku_size d ∧
     prodImg p = nth 0 images Undefined) ∧
  skus p ≠ ∅ ∧
  (∀ skuId s, skus p !! skuId = Some s →
     ∃ item node, (item, node) ∈ explain data ∧
       (item_ids item).1 = skuId ∧ ToString (item_ids item).2 = key ∧
       skuScore s = value node).

(** ** Decimal numerals *)

(** The value of the numeral [d] read after digits of value [acc]. *)
Fixpoint numeral_value (acc : Z) (d : Decimal.uint) : Z :=
  match d with
  | Decimal.Nil => acc
  | Decimal.D0 d => numeral_value (acc * 10 + 0) d
  | Decimal.D1 d => numeral_value (acc * 10 + 1) d
  | Decimal.D2 d => numeral_value (acc * 10 + 2) d
  | Decimal.D3 d => numeral_value (acc * 10 + 3) d
  | Decimal.D4 d => numeral_value (acc * 10 + 4) d
  | Decimal.D5 d => numeral_value (acc * 10 + 5) d
  | Decimal.D6 d => numeral_value (acc * 10 + 6) d
  | Decimal.D7 d => numeral_value (acc * 10 + 7) d
  | Decimal.D8 d => numeral_value (acc * 10 + 8) d
  | Decimal.D9 d => numeral_value (acc * 10 + 9) d
  end.

(** [rest] does not go on with a digit: it is empty or starts with a
    space. *)
Definition stops (rest : string) : Prop :=
  rest = EmptyString ∨ ∃ rest', rest = String " " rest'.

(** ** The schedule of the token

    [refreshJwt] reads [expires_in], a number of seconds, and sets a timer
    for the next refresh.  Whole numbers of this size are exact. *)

(** [secondsUntilRefresh] in [refreshJwt]; [None] is [NaN]. *)
Definition secondsUntilRefresh (expires_in : jsval) : option Z :=
  let secondsUntilExpiration := parseInt (ToString expires_in) in
  match secondsUntilExpiration with
  | Some s =>
      let graceSeconds := if (15 <? s)%Z then 10%Z else 2%Z in
      Some (s - graceSeconds)%Z
  | None => None
  end.

(** The second argument of [setTimeout], in milliseconds. *)
Definition refresh_timeout (expires_in : jsval) : option Z :=
  match secondsUntilRefresh expires_in with
  | Some s => Some (s * 1000)%Z
  | None => None
  end.

(** The delay of the timer that [setTimeout(handler, timeout)] sets: the
    argument is converted to a signed integer of 32 bits ([NaN] to 0, the
    others modulo 2^32), and a negative delay is 0. *)
Definition setTimeout_delay (timeout : option Z) : Z :=
  match timeout with
  | None => 0%Z
  | Some ms =>
      let w := (ms mod 2 ^ 32)%Z in
      let i := if (2 ^ 31 <=? w)%Z then (w - 2 ^ 32)%Z else w in
      Z.max 0 i
  end.

(** ** The score list of a tree

    What [scoreList] is to build from the records of a tree: the element
    of each node, with its classes, and the classes of the boosts. *)

(** The role of a description, by the rules of [addBoostClass] in their
    order. *)
Definition role_of (d : string) : role :=
  if String.eqb d "boost" then boost
  else if includes "idf, computed as" d then idf
  else if includes "tf, computed as" d then tf
  else if String.eqb (truncated d) "weight" then weight_aggregate
  else if String.eqb (truncated d) "max of:" then max_aggregate
  else if String.eqb (truncated d) "query" then query_constant
  else plain.

Definition indent_class (depth : nat) : string :=
  "indent-" +:+ digits (Z.of_nat depth).

(** The classes of the element of a node: its depth, then its role. *)
Definition classes_of (depth : nat) (d : string) : list string :=
  indent_class depth ::
  match role_class (role_of d) with
  | Some c => [c]
  | None => []
  end.

(** The element of a node at [depth], the elements of its children nested
    in it in their order. *)
Fixpoint render (depth : nat) (t : ExplanationNode) : detailsElement :=
  match t with
  | Node desc v ds =>
      Details (classes_of depth (textContent desc)) (textContent desc) (textContent v)
        match ds with
        | None => []
        | Some l => map (render (S depth)) l
        end
  end.

(** Every node of the tree has a string as its description. *)
Fixpoint described (t : ExplanationNode) : bool :=
  match t with
  | Node (Str _) _ None => true
  | Node (Str _) _ (Some l) => forallb described l
  | Node _ _ _ => false
  end.

(** The number of levels of a tree. *)
Fixpoint height (t : ExplanationNode) : nat :=
  match t with
  | Node _ _ None => 1
  | Node _ _ (Some l) => S (list_max (map height l))
  end.

(** The description of the nearest weight for the nodes below a node of
    description [d], [w] being the one for the node itself. *)
Definition weight_for (w : option string) (d : string) : option string :=
  match role_of d with
  | weight_aggregate => Some d
  | _ => w
  end.

(** The classes of the boosts of a tree in the order of its records, [w]
    being the description of the nearest weight above the tree. *)
Fixpoint boost_classes (w : option string) (t : ExplanationNode) : list string :=
  match t with
  | Node desc v ds =>
      match role_of (textContent desc) with
      | boost => [boostClass_of (w ≫= boostName_of) v]
      | _ => []
      end ++
      match ds with
      | None => []
      | Some l => flat_map (boost_classes (weight_for w (textContent desc))) l
      end
  end.

(** The page once a boost class is registered. *)
Definition register (pg : page) (boostClass : string) : page :=
  {| card := with_token boostClass (card pg);
     deck := with_token boostClass (deck pg);
     checklist := sidebarOption boostClass (checklist pg) |}.

(** The description of the nearest weight element on the way to [p],
    [acc] when there is none. *)
Fixpoint nearest_weight (acc : option string) (l : list detailsElement)
    (p : path) : option string :=
  match p with
  | [] => acc
  | i :: p' =>
      match nth_error l i with
      | None => acc
      | Some e =>
          nearest_weight
            (if has_class "scoreweight" e then Some (detail_desc e) else acc)
            (nested e) p'
      end
  end.

(** The element at [p] is on the way to the last element of the list, it
    is of depth [d], and each element from it to the last one is one level
    deeper than the one before; [q] is the way from [p] to the last
    element. *)
Definition on_spine (l : list detailsElement) (p q : path) (d : Z) : Prop :=
  p ≠ [] ∧ last_path l = p ++ q ∧
  ∀ q1 q2, q = q1 ++ q2 →
    indent_of (classList_at l (p ++ q1)) = Some (d + Z.of_nat (length q1))%Z.

(** Where a record of depth [d + 1] is appended: to the empty container,
    or to the element at [p] on the way to the last element. *)
Definition appends_at (l : list detailsElement) (p : path) (d : Z) : Prop :=
  (l = [] ∧ p = []) ∨ ∃ q, on_spine l p q d.

(** ** Simple terms of a formula *)

(** A component that [scoreFormula] writes as its value alone: its
    description names neither a product nor a sum, and it is not a long
    weight. *)
Definition plain_component (e : detailsElement) : bool :=
  negb (includes "product of" (detail_desc e)) &&
  negb (includes "sum of" (detail_desc e)) &&
  negb (includes "weight" (detail_desc e) && (100 <? String.length (detail_desc e))).

(** ** spreadDeck

    The decks of the page in the order of the document.  The section of a
    product stands between the two spacers that [addProductSection] made
    for it; of the three only the class [spread] matters here. *)

Record deck_classes := {
  spacer_before : bool;
  section_spread : bool;
  spacer_after : bool
}.

(** The three elements of a deck with the class [spread] added to each
    ([true]) or removed from each ([false]). *)
Definition spread_all (b : bool) : deck_classes :=
  {| spacer_before := b; section_spread := b; spacer_after := b |}.

(** [qs('.product-container.spread')]: the first section of the document
    that has the class. *)
Fixpoint first_spread (decks : list deck_classes) : option nat :=
  match decks with
  | [] => None
  | d :: rest =>
      if section_spread d then Some O
      else match first_spread rest with
           | Some i => Some (S i)
           | None => None
           end
  end.

(** [spreadDeck(e)] for a click on the title card of the deck [section]. *)
Definition spreadDeck (section : nat) (decks : list deck_classes) : list deck_classes :=
  match first_spread decks with
  | Some spread =>
      let decks := <[spread := spread_all false]> decks in
      if spread =? section then decks
      else <[section := spread_all true]> decks
  | None => <[section := spread_all true]> decks
  end.

(** [n] decks none of which is spread, and the same with the deck [i]
    spread. *)
Definition closed_decks (n : nat) : list deck_classes := replicate n (spread_all false).
Definition one_spread (i n : nat) : list deck_classes :=
  <[i := spread_all true]> (closed_decks n).

(** ** filterCards and unfilterCards

    The document is taken as the class lists of its elements in document
    order.  [querySelectorAll] answers the positions of the elements that
    a selector selects, or raises when it refuses the selector; the
    selectors of [filterCards] are built from the ids of the checkboxes,
    so the engine is left open here. *)

Definition document := list (list string).
Definition selector_engine := string → document → result (list nat).

(** [element.classList.remove(token)]. *)
Definition classList_remove (token : string) (classes : list string) : list string :=
  filter (λ c, c ≠ token) classes.

(** The positions, counted from [from], of the elements whose class list
    satisfies [p]. *)
Fixpoint positions (p : list string → bool) (from : nat) (doc : document) : list nat :=
  match doc with
  | [] => []
  | classes :: rest =>
      (if p classes then [from] else []) ++ positions p (S from) rest
  end.

(** [for (let i = 0; i < cards.length; i++) cards[i].classList...]. *)
Definition each_card (f : list string → list string) (cards : list nat)
    (doc : document) : document :=
  fold_left (λ doc i, alter f i doc) cards doc.

(** The body of the loop of the [exclude] branch for the checkbox [id]. *)
Definition filter_exclude (qsa : selector_engine) (id : string)
    (doc : document) : document * result () :=
  let boost := filter_boost id in
  continue doc (qsa ("." +:+ boost) doc) (λ cards,
    (each_card (with_token "hide-boost") cards doc, Ok ())).

(** The body of the loop of the other branch. *)
Definition filter_include (qsa : selector_engine) (id : string)
    (doc : document) : document * result () :=
  let boost := filter_boost id in
  continue doc (qsa (".product-container:not(." +:+ boost) doc) (λ cards,
    let doc := each_card (with_token "hide-boost") cards doc in
    continue doc (qsa ("." +:+ boost) doc) (λ cards,
      (each_card (classList_remove "hide-boost") cards doc, Ok ()))).

(** The form of the sidebar: the ids of the radio buttons that are
    checked and of the checkboxes of [#filter] that are checked, both in
    document order. *)
Record filter_form := {
  radios : list string;
  filters : list string
}.

(** [filterCards()].  [qs('input[type=radio]:checked')] is the first
    checked radio button, [null] when none is checked. *)
Definition filterCards (qsa : selector_engine) (form : filter_form)
    (doc : document) : document * result () :=
  match radios form with
  | [] => (doc, Throw TypeError)
  | type :: _ =>
      if String.eqb type "exclude" then
        forEach (filter_exclude qsa) (filters form) doc
      else
        forEach (filter_include qsa) (filters form) doc
  end.

Definition hidden (classes : list string) : bool :=
  bool_decide ("hide-boost" ∈ classes).

(** [unfilterCards()]. *)
Definition unfilterCards (form : filter_form) (doc : document)
    : (filter_form * document) * result () :=
  match radios form with
  | [] => ((form, doc), Throw TypeError)
  | _ :: others =>
      (({| radios := others; filters := [] |},
        each_card (classList_remove "hide-boost") (positions hidden 0 doc) doc),
       Ok ())
  end.

(** What the selectors of [filterCards] are meant to select for the class
    [boost]: the elements of the class, and the product containers that
    are not of the class. *)
Definition of_class (boost : string) (classes : list string) : bool :=
  bool_decide (boost ∈ classes).

Definition container_without (boost : string) (classes : list string) : bool :=
  bool_decide ("product-container" ∈ classes) && negb (of_class boost classes).

Definition selects_as_meant (qsa : selector_engine) (boost : string) : Prop :=
  ∀ doc,
    qsa ("." +:+ boost) doc = Ok (positions (of_class boost) 0 doc) ∧
    qsa (".product-container:not(." +:+ boost) doc =
      Ok (positions (container_without boost) 0 doc).

(** What one round of the loop of the second branch does to an element
    once the selectors select as meant. *)
Definition include_round (boost : string) (classes : list string) : list string :=
  if of_class boost classes then classList_remove "hide-boost" classes
  else if bool_decide ("product-container" ∈ classes) then with_token "hide-boost" classes
  else classes.

(** An engine that answers the two selectors as meant for a class name
    without a dot and refuses every other selector; the examples run on
    it. *)
Definition class_engine : selector_engine := λ selector doc,
  let not_prefix := ".product-container:not(." in
  if String.prefix not_prefix selector then
    let boost := substring (String.length not_prefix) (String.length selector) selector in
    if includes "." boost then Throw SyntaxError
    else Ok (positions (container_without boost) 0 doc)
  else
    match selector with
    | String "." name =>
        if includes "." name then Throw SyntaxError
        else Ok (positions (of_class name) 0 doc)
    | _ => Throw SyntaxError
    end.

(** ** scoreSummary, scoreRewrite, createIdfDetail and createTfDetail

    The element [Details classes desc val nested] stands for
    [<details class=classes><summary><div><p class=detail-desc>desc</p>
    <p class=detail-val>val</p></div></summary>nested</details>], as
    [createScoreDetail] builds it: its child nodes are the summary, then
    the nested elements. *)

(** An element and the elements below it in document order. *)
Fixpoint subtree (d : detailsElement) : list detailsElement :=
  match d with
  | Details _ _ _ k => d :: flat_map subtree k
  end.

(** [within.querySelectorAll('.' + c)] and [within.querySelector('.' + c)]
    for [within] with the [<details>] children [l]. *)
Definition querySelectorAll_class (c : string) (l : list detailsElement)
    : list detailsElement :=
  List.filter (has_class c) (flat_map subtree l).

Definition querySelector_class (c : string) (l : list detailsElement)
    : option detailsElement :=
  find (has_class c) (flat_map subtree l).

(** A loop over [l] that pushes what [f] gives for each element and that
    an exception ends. *)
Fixpoint collect {X Y : Type} (f : X → result (list Y)) (l : list X)
    : result (list Y) :=
  match l with
  | [] => Ok []
  | x :: rest => ys ← f x; more ← collect f rest; Ok (ys ++ more)
  end.

(** The spans of the paragraph that explains an idf: [bigN], [category],
    [term] and [smallN] in the order of the text. *)
Record idf_spans := {
  idf_bigN : string;
  idf_category : string;
  idf_term : string;
  idf_smallN : string
}.

(** The paragraph for the idf element [current], whose second and third
    child nodes hold [n] and [N]. *)
Definition idfExplain (current : detailsElement) (category term : string)
    : result idf_spans :=
  match nested current with
  | smallN :: bigN :: _ =>
      Ok {| idf_bigN := detail_val bigN; idf_category := category;
            idf_term := term; idf_smallN := detail_val smallN |}
  | _ => Throw TypeError
  end.

(** What follows the summary in the new idf element: one paragraph, or
    the nested elements of a sum, each with the text of its summary. *)
Inductive idf_content :=
| idf_single (explain : idf_spans)
| idf_sum (nestIdf : list (string * idf_spans)).

Record newIdf := {
  idfSummary : string;
  idf_body : idf_content
}.

(** [createIdfDetail(idf, category, term)]; [None] is [null]. *)
Definition createIdfDetail (idf : option detailsElement) (category term : string)
    : result newIdf :=
  match idf with
  | None => Throw TypeError
  | Some idf' =>
      let idfscore := detail_val idf' in
      let idfSummary := "idf = " +:+ idfscore in
      if negb (includes "sum of" (detail_desc idf')) then
        explain ← idfExplain idf' category term;
        Ok {| idfSummary := idfSummary; idf_body := idf_single explain |}
      else
        nestIdf ← collect (λ current,
                     explain ← idfExplain current category term;
                     Ok [("idf = " +:+ detail_val current, explain)])
                   (nested idf');
        Ok {| idfSummary := idfSummary; idf_body := idf_sum nestIdf |}
  end.

(** The spans of the paragraph that explains a tf, in the order of the
    text. *)
Record tf_spans := {
  tf_term : string;
  tf_freq : string;
  tf_k1 : string;
  tf_b : string;
  tf_category : string;
  tf_dl : string;
  tf_avgdl : string
}.

Record newTf := {
  tfSummary : string;
  tfExplain : tf_spans
}.

(** [createTfDetail(tf, category, term)]; [None] is [null]. *)
Definition createTfDetail (tf : option detailsElement) (category term : string)
    : result newTf :=
  match tf with
  | None => Throw TypeError
  | Some tf' =>
      let tfscore := detail_val tf' in
      match nested tf' with
      | freq :: k1 :: b :: dl :: avgdl :: _ =>
          Ok {| tfSummary := "tf = " +:+ tfscore;
                tfExplain :=
                  {| tf_term := term; tf_freq := detail_val freq;
                     tf_k1 := detail_val k1; tf_b := detail_val b;
                     tf_category := category; tf_dl := detail_val dl;
                     tf_avgdl := detail_val avgdl |} |}
      | _ => Throw TypeError
      end
  end.

(** The term and the category that [scoreRewrite] reads in the text of
    the heading; a category that is [undefined] is printed as such. *)
Definition term_and_category (heading : string) : result (string * string) :=
  let category := split ":" heading in
  match nth_error category 1 with
  | None => Throw TypeError
  | Some category_1 =>
      let term := nth 0 (split_string " in" category_1) EmptyString in
      if 2 <? length category then
        let terms :=
          map (λ category_i,
                 join "," (split ")" (nth 0 (split " " category_i) EmptyString)))
              (skipn 1 category) in
        let term := join ", " terms in
        let term := take (String.length term - 1) term in
        let category := nth_error (split "(" (nth 0 category EmptyString)) 2 in
        Ok (term, ToString (from_option Str Undefined category))
      else
        Ok (term, join "(" (skipn 1 (split "(" (nth 0 category EmptyString))))
  end.

(** The element that [scoreRewrite] returns: the heading moved from the
    copy, the text of the summary of the boost when the copy has one, and
    the idf and tf elements. *)
Record newWeight := {
  weight_heading : string * string;
  boostSummary : option string;
  weight_idf : newIdf;
  weight_tf : newTf
}.

(** [scoreRewrite(node)].  The heading is moved out of [node] first, so
    the selector of the boost finds nothing in the summary of [node]
    itself. *)
Definition scoreRewrite (node : detailsElement) : result newWeight :=
  '(term, category) ← term_and_category (detail_desc node);
  let boost := querySelector_class "scoreboost" (nested node) in
  match nested node with
  | [] => Throw TypeError
  | first :: _ =>
      let idf := querySelector_class "scoreidf" (nested first) in
      newIdf ← createIdfDetail idf category term;
      let tf := querySelector_class "scoretf" (nested first) in
      newTf ← createTfDetail tf category term;
      Ok {| weight_heading := (detail_desc node, detail_val node);
            boostSummary := option_map (λ b, "boost = " +:+ detail_val b) boost;
            weight_idf := newIdf;
            weight_tf := newTf |}
  end.

(** [weight.cloneNode(true)] with the description cut before its first
    [ []. *)
Definition weight_copy (weight : detailsElement) : detailsElement :=
  Details (classList weight)
    (nth 0 (split_string " [" (detail_desc weight)) EmptyString)
    (detail_val weight) (nested weight).

(** The elements of a list in document order, each with the text of the
    summary of its parent node's first child. *)
Fixpoint with_parentText (text : string) (d : detailsElement)
    : list (string * detailsElement) :=
  match d with
  | Details _ desc val k => (text, d) :: flat_map (with_parentText (desc +:+ val)) k
  end.

Definition outerWeights (l : list detailsElement) : list (string * detailsElement) :=
  let text :=
    match l with
    | first :: _ => detail_desc first +:+ detail_val first
    | [] => EmptyString
    end in
  List.filter (λ w, has_class "scoreweight" w.2) (flat_map (with_parentText text) l).

(** [weight.classList.value.split('-')[1][0]]; [None] is [undefined]. *)
Definition indent_char (classes : list string) : result (option ascii) :=
  match nth_error (split "-" (join " " classes)) 1 with
  | None => Throw TypeError
  | Some s => Ok (match s with String c _ => Some c | EmptyString => None end)
  end.

(** What [scoreSummary] appends after the title: the calculation, then the
    rewritten weights and the copy of the query constant. *)
Inductive summary_entry :=
| summary_weight (w : newWeight)
| summary_query (copy : detailsElement).

Record summary := {
  calculation : string;
  summary_entries : list summary_entry
}.

(** The callback of the loop over the weights of a maximum. *)
Definition summary_of_max (maxElement : detailsElement) : result (list newWeight) :=
  let target := detail_val maxElement in
  collect (λ weight,
             if String.eqb (detail_val weight) target then
               w ← scoreRewrite (weight_copy weight); Ok [w]
             else Ok [])
          (querySelectorAll_class "scoreweight" (nested maxElement)).

(** The callback of the loop over the outer weights. *)
Definition summary_of_outer (weight : string * detailsElement) : result (list newWeight) :=
  indent ← indent_char (classList weight.2);
  let parentText := nth 0 (split " " weight.1) EmptyString in
  if negb (bool_decide (indent = Some "1"%char)) && negb (String.eqb parentText "max") then
    w ← scoreRewrite (weight_copy weight.2); Ok [w]
  else Ok [].

(** [scoreSummary(list)] for a list with the [<details>] children [l]. *)
Definition scoreSummary (l : list detailsElement) : result summary :=
  let formula := summary_formula l in
  maxima ← collect summary_of_max (querySelectorAll_class "scoremax" l);
  outer ← collect summary_of_outer (outerWeights l);
  let query :=
    match querySelector_class "scorequery" l with
    | Some query =>
        [summary_query (Details (classList query) "Query constant"
                          (detail_val query) (nested query))]
    | None => []
    end in
  Ok {| calculation := formula;
        summary_entries := map summary_weight (maxima ++ outer) ++ query |}.

(** *** The explanation of a weight *)




(** The explanation of the weight of a term in a field, as the search
    engine writes it. *)
Definition title_pants : ExplanationNode :=
  Node (Str "weight(title:pants in 1234) [SchemaSimilarity], result of:")
       (Num (Fin 66 (-1)))
    (Some [Node (Str "score(freq=1.0), computed as boost * idf * tf from:")
                (Num (Fin 66 (-1)))
             (Some [Node (Str "boost") (Num (Fin 22 (-1))) None;
                    Node (Str "idf, computed as log(1 + (N - n + 0.5) / (n + 0.5)) from:")
                         (Num (Fin 6 0))
                      (Some [Node (Str "n, number of documents containing term")
                                  (Num (Fin 12 0)) None;
                             Node (Str "N, total number of documents with field")
                                  (Num (Fin 5000 0)) None]);
                    Node (Str "tf, computed as freq / (freq + k1 * (1 - b + b * dl / avgdl)) from:")
                         (Num (Fin 5 (-1)))
                      (Some [Node (Str "freq, occurrences of term within document")
                                  (Num (Fin 1 0)) None;
                             Node (Str "k1, term saturation parameter")
                                  (Num (Fin 12 (-1))) None;
                             Node (Str "b, length normalization parameter")
                                  (Num (Fin 75 (-2))) None;
                             Node (Str "dl, length of field") (Num (Fin 4 0)) None;
                             Node (Str "avgdl, average length of field")
                                  (Num (Fin 52 (-1))) None])])]).

(** The heading of the weight of several terms of one field, as the
    search engine writes it for synonyms:
    [weight(pre(field:term field:term)rest]. *)
Definition synonyms_heading (pre field : string) (terms : list string)
    (rest : string) : string :=
  "weight(" +:+ pre +:+ "(" +:+
  join " " (map (λ t, field +:+ ":" +:+ t) terms) +:+ ")" +:+ rest.

(** The parts of such a heading that follow its first colon, [z] being
    what follows the last term. *)
Fixpoint heading_parts (field : string) (terms : list string) (z : string)
    : list string :=
  match terms with
  | [] => []
  | [t] => [t +:+ z]
  | t :: more => (t +:+ " " +:+ field) :: heading_parts field more z
  end.

(** A result that is a value or a [TypeError]. *)
Definition returns_or_TypeError {A : Type} (r : result A) : Prop :=
  match r with
  | Ok _ => True
  | Throw e => e = TypeError
  | Diverge => False
  end.

(** A sum of two weights that the search engine does not explain
    further. *)
Definition bare_weights : ExplanationNode :=
  Node (Str "sum of:") (Num (Fin 10 0))
    (Some [Node (Str "weight(title:pants in 12) [SchemaSimilarity], result of:")
                (Num (Fin 6 0)) None;
           Node (Str "weight(color:red in 12) [SchemaSimilarity], result of:")
                (Num (Fin 4 0)) None]).

(** ** The cards of a deck

    [addCard] and [addProductCard] on the children of the section of a
    product, first child first.  Of a card the texts, the summary and the
    score list are kept; the photo and the button are left out. *)

Record card_contents := {
  card_title : string;
  card_prodId : string;
  card_order : string;
  card_score : string;
  card_summary : summary;
  card_scores : list detailsElement
}.

(** A card of a SKU with its classes, [None] when [addCard] ended in its
    [catch] before it appended the contents; or the title card. *)
Inductive deck_child :=
| sku_card (classes : list string) (contents : option card_contents)
| title_card (title prodId max count : string).

Section Decks.

Variable prodContainer : jsval → bool.

(** [addCard(data, value, skuData, sku, search, number)] on the children
    and the classes of the section and on the checklist. *)
Definition addCard_article (g : globals) (data : Product) (skuData : SKU)
    (sku : string) (number : nat)
    (st : list deck_child * (list string * list string))
    : (list deck_child * (list string * list string)) * result () :=
  let '(cards, (section, checks)) := st in
  if prodContainer (productId data) then
    let productId_ := sku +:+ "_" +:+ ToString (productId data) in
    let pg := {| card := ["product-card"]; deck := section; checklist := checks |} in
    let contents (scores : list detailsElement) (summary : summary) :=
      {| card_title := textContent (displayName data);
         card_prodId := "ID: " +:+ productId_;
         card_order := ToString (Num (Fin (Z.of_nat number) 0));
         card_score := "Score: " +:+ ToString (skuScore skuData);
         card_summary := summary;
         card_scores := scores |} in
    match scoreList g productId_ pg with
    | (pg', Ok scores) =>
        match scoreSummary scores with
        | Ok summary =>
            ((sku_card (card pg') (Some (contents scores summary)) :: cards,
              (deck pg', checklist pg')), Ok ())
        | _ => ((sku_card (card pg') None :: cards, (deck pg', checklist pg')), Ok ())
        end
    | (pg', Throw _) =>
        ((sku_card (card pg') None :: cards, (deck pg', checklist pg')), Ok ())
    | (pg', Diverge) =>
        ((sku_card (card pg') None :: cards, (deck pg', checklist pg')), Diverge)
    end
  else (st, Ok ()).

(** [addProductCard(data, productId, displayName, image, search)]. *)
Definition addProductCard (product : Product) (cards : list deck_child)
    : list deck_child :=
  let scores := productScores (skus product) in
  if prodContainer (productId product) then
    title_card (textContent (displayName product))
      ("ID: " +:+ ToString (productId product))
      ("Score maximum: " +:+ ToString (Num scores.2))
      ("SKU count: " +:+ ToString (Num (Fin (Z.of_nat scores.1) 0))) :: cards
  else cards.

(** The loop of [buildInterface] over the SKUs of a product, [count]
    going down by one at each call. *)
Definition addCards (g : globals) (product : Product) (checks : list string)
    : ((list deck_child * (list string * list string)) * nat) * result () :=
  let section := [ToString (productId product); "product-container"] in
  let count := length (map_to_list (skus product)) in
  forEach
    (λ (entry : string * SKU) (st : (list deck_child * (list string * list string)) * nat),
       let '(st, count) := st in
       let '(st', r) := addCard_article g product entry.2 entry.1 count st in
       ((st', count - 1), r))
    (map_to_list (skus product)) (([], (section, checks)), count).

(** One turn of the loop of [buildInterface] over the products: the
    children of the section, the checklist and the result. *)
Definition buildDeck (g : globals) (product : Product) (checks : list string)
    : (list deck_child * list string) * result () :=
  match addCards g product checks with
  | (((cards, (_, checks')), _), Ok _) => ((addProductCard product cards, checks'), Ok ())
  | (((cards, (_, checks')), _), r) => ((cards, checks'), r)
  end.

End Decks.

(** The weight of [title_pants] as one of the terms of a sum. *)
Definition explained_sum : ExplanationNode :=
  Node (Str "sum of:") (Num (Fin 66 (-1))) (Some [title_pants]).

(** A product with two SKUs, the first explained in full and the second
    by bare weights. *)
Definition two_skus : globals :=
  {| allProducts :=
       {[ "P1" := {| productId := Str "P1"; displayName := Str "Align Pant";
                     size_ := Str "6"; prodImg := Str "p1.jpg";
                     skus := {[ "A1" := {| skuScore := Num (Fin 66 (-1));
                                           skuImg := Str "a1.jpg" |};
                                "A2" := {| skuScore := Num (Fin 10 0);
                                           skuImg := Str "a2.jpg" |} ]} |} ]};
     allDetails :=
       {[ "A1_P1" := itemDetails explained_sum;
          "A2_P1" := itemDetails bare_weights ]} |}.

(** ** The button of a card and the sidebar

    The classes [active] and [hidden] that the click handlers of
    [addCard] and [sidebarScores] toggle.  The score list of the card
    enters the document when [sidebarScores] puts it into the sidebar:
    [sidebar] is [None] until then.  No other card has the id of this
    one. *)

Record sidebar_entry := {
  container_hidden : bool;
  heading_active : bool;
  scorelist_hidden : bool
}.

Record card_view := {
  button_active : bool;
  photo_hidden : bool;
  summary_hidden : bool;
  sidebar : option sidebar_entry
}.

(** The card as [addCard] leaves it: the summary is hidden, the score
    list is hidden and in no document. *)
Definition card_built : card_view :=
  {| button_active := false; photo_hidden := false; summary_hidden := true;
     sidebar := None |}.

(** The handler of the heading: it toggles the score list, which follows
    the heading, and the heading. *)
Definition heading_click (s : sidebar_entry) : sidebar_entry :=
  {| container_hidden := container_hidden s;
     heading_active := negb (heading_active s);
     scorelist_hidden := negb (scorelist_hidden s) |}.

(** The handler of the icon: it toggles the container of the heading. *)
Definition icon_click (s : sidebar_entry) : sidebar_entry :=
  {| container_hidden := negb (container_hidden s);
     heading_active := heading_active s;
     scorelist_hidden := scorelist_hidden s |}.

(** The handler of the button of the card.  [id(`${productId}-scorelist`)]
    finds the score list once it is in the sidebar; before,
    [sidebarScores] puts it there under an active heading, and it is
    shown. *)
Definition button_click (v : card_view) : card_view :=
  {| button_active := negb (button_active v);
     photo_hidden := negb (photo_hidden v);
     summary_hidden := negb (summary_hidden v);
     sidebar :=
       Some match sidebar v with
            | Some s =>
                {| container_hidden := false;
                   heading_active := negb (heading_active s);
                   scorelist_hidden := negb (scorelist_hidden s) |}
            | None =>
                {| container_hidden := false; heading_active := true;
                   scorelist_hidden := false |}
            end |}.

(** A click on the button, on the label of the heading, or on the icon.
    The icon is inside the heading, so a click on it runs its handler and
    then the handler of the heading.  Heading and icon exist once the
    sidebar has the entry. *)
Inductive click := on_button | on_heading | on_icon.

Definition in_sidebar (f : sidebar_entry → sidebar_entry) (v : card_view) : card_view :=
  {| button_active := button_active v; photo_hidden := photo_hidden v;
     summary_hidden := summary_hidden v; sidebar := option_map f (sidebar v) |}.

Definition handle (v : card_view) (e : click) : card_view :=
  match e with
  | on_button => button_click v
  | on_heading => in_sidebar heading_click v
  | on_icon => in_sidebar (λ s, heading_click (icon_click s)) v
  end.

(** * Theorems *)

(** ** Explanation trees: induction and the flattener *)

Lemma ExplanationNode_ind (P : ExplanationNode → Prop) :
  (∀ d v, P (Node d v None)) →
  (∀ d v l, Forall P l → P (Node d v (Some l))) →
  ∀ t, P t.
Proof.
  intros Hleaf Hnode. fix IH 1. intros [d v [l|]]; [apply Hnode | apply Hleaf].
  induction l as [|c l IHl]; constructor; [apply IH | exact IHl].
Qed.

Lemma traverseDetails_children (d : nat) (l : list ExplanationNode) :
  Forall (fun c => ∀ d arr, traverseDetails d c arr =
                     arr ++ match details c with
                            | None => []
                            | Some k => flat_map (preorder (S d)) k
                            end) l →
  ∀ arr,
    fold_left
      (fun arr short_i =>
         traverseDetails (d + 1) short_i
           (arr ++ [mkRecord (d + 1) (description short_i) (value short_i)]))
      l arr
    = arr ++ flat_map (preorder (S d)) l.
Proof.
  induction 1 as [|c l Hc _ IH]; intros arr; simpl.
  - by rewrite app_nil_r.
  - rewrite IH, Hc, Nat.add_1_r, <- !app_assoc. f_equal.
    destruct c as [? ? [k|]]; simpl; reflexivity.
Qed.

Lemma traverseDetails_preorder (t : ExplanationNode) :
  ∀ d arr, traverseDetails d t arr =
           arr ++ match details t with
                  | None => []
                  | Some k => flat_map (preorder (S d)) k
                  end.
Proof.
  induction t as [dsc v|dsc v l IH] using ExplanationNode_ind; intros d arr; simpl.
  - by rewrite app_nil_r.
  - by apply traverseDetails_children.
Qed.

Lemma itemDetails_preorder (t : ExplanationNode) : itemDetails t = preorder 1 t.
Proof.
  unfold itemDetails. rewrite traverseDetails_preorder. by destruct t as [? ? [l|]].
Qed.

Lemma preorder_length (t : ExplanationNode) : ∀ d, length (preorder d t) = nodes t.
Proof.
  induction t as [dsc v|dsc v l IH] using ExplanationNode_ind; intros d; simpl; [done|].
  f_equal. induction IH as [|c l Hc _ IHl]; simpl; [done|].
  by rewrite length_app, Hc, IHl.
Qed.

Lemma preorder_subnode (t : ExplanationNode) (d : nat) (n : ExplanationNode) (k : nat) :
  subnode t d n k → In (mkRecord k (description n) (value n)) (preorder d t).
Proof.
  induction 1 as [t d|t d l c n k Hl Hc _ IH].
  - destruct t; simpl; auto.
  - destruct t as [dsc v ds]; simpl in *. subst ds. right.
    apply in_flat_map. eauto.
Qed.

(** C1.  For every explanation tree, the records that the flattener stores
    for the item are the pre-order listing of the tree with the root at
    depth 1: there are as many records as nodes, the record of a node comes
    first and is followed by the listings of its children ([details]) in
    source order, each one level deeper than the node. *)
Theorem flattener_preorder (t : ExplanationNode) :
  itemDetails t = preorder 1 t ∧
  length (itemDetails t) = nodes t ∧
  (∀ d, preorder d t =
        mkRecord d (description t) (value t) ::
        flat_map (preorder (S d)) (children t)).
Proof.
  split; [apply itemDetails_preorder|]. split.
  - rewrite itemDetails_preorder. apply preorder_length.
  - intros d. by destruct t as [? ? [l|]].
Qed.

(** C4, counterexample.  The first child of [malformed_example] has no
    description; the flattener stores a record for it, with [Undefined] as
    its description, where the listing that skips malformed nodes has
    none. *)
Lemma malformed_node_not_skipped :
  malformed (Node Undefined (Num (Fin 6 0)) None) = true ∧
  subnode malformed_example 1 (Node Undefined (Num (Fin 6 0)) None) 2 ∧
  itemDetails malformed_example =
    [mkRecord 1 (Str "sum of:") (Num (Fin 10 0));
     mkRecord 2 Undefined (Num (Fin 6 0));
     mkRecord 2 (Str "weight(field:y)") (Num (Fin 4 0))] ∧
  itemDetails malformed_example ≠ preorder_skipping malformed_example.
Proof.
  split; [done|]. split.
  - eapply subnode_child; [done | by left | apply subnode_root].
  - split; [done|]. vm_compute. discriminate.
Qed.

(** C4, amended.  For every input tree, every node [n] of the tree, at
    depth [k], has its record [[k, description, value]] in the stored
    sequence, a missing field being recorded as [Undefined]; the traversal
    goes on to the end, with as many records as the tree has nodes. *)
Theorem malformed_node_recorded (t n : ExplanationNode) (k : nat) :
  subnode t 1 n k →
  In (mkRecord k (description n) (value n)) (itemDetails t) ∧
  length (itemDetails t) = nodes t.
Proof.
  intros H. rewrite itemDetails_preorder. split.
  - by apply preorder_subnode.
  - apply preorder_length.
Qed.

Lemma malformed_node_recorded_witness :
  subnode malformed_example 1 (Node Undefined (Num (Fin 6 0)) None) 2 ∧
  In (mkRecord 2 Undefined (Num (Fin 6 0))) (itemDetails malformed_example) ∧
  length (itemDetails malformed_example) = 3.
Proof.
  assert (H : subnode malformed_example 1 (Node Undefined (Num (Fin 6 0)) None) 2).
  { eapply subnode_child; [reflexivity | left; reflexivity | apply subnode_root]. }
  split; [exact H|].
  exact (malformed_node_recorded malformed_example (Node Undefined (Num (Fin 6 0)) None) 2 H).
Defined.

(** ** The aggregation pass *)

Lemma forEach_app {St X : Type} (body : X → St → St * result ())
    (l1 l2 : list X) (s : St) :
  forEach body (l1 ++ l2) s =
  match forEach body l1 s with
  | (s', Ok _) => forEach body l2 s'
  | stopped => stopped
  end.
Proof.
  revert s. induction l1 as [|x l1 IH]; intros s; simpl; [done|].
  destruct (body x s) as [s' [[]|e|]]; [apply IH | done | done].
Qed.

(** A property of the state that every step keeps holds at the end,
    however the loop ends. *)
Lemma forEach_invariant {St X : Type} (body : X → St → St * result ())
    (I : St → Prop) (l : list X) (s : St) :
  I s →
  (∀ x s, x ∈ l → I s → I (body x s).1) →
  I (forEach body l s).1.
Proof.
  revert s. induction l as [|x l IH]; intros s H0 Hstep; simpl; [done|].
  pose proof (Hstep x s ltac:(left) H0) as H1.
  destruct (body x s) as [s' [[]|e|]]; simpl in *; [|done|done].
  apply IH; [done|]. intros y s0 Hy. apply Hstep. by right.
Qed.

(** A loop that ends normally ran every step, each of which returned. *)
Lemma forEach_completed {St X : Type} (body : X → St → St * result ())
    (I : list X → St → Prop) (l : list X) (s : St) :
  I [] s →
  (∀ done x s, I done s → (body x s).2 = Ok () → I (done ++ [x]) (body x s).1) →
  (forEach body l s).2 = Ok () →
  I l (forEach body l s).1.
Proof.
  intros H0 Hstep.
  assert (Hgen : ∀ rest done s, I done s → (forEach body rest s).2 = Ok () →
            I (done ++ rest) (forEach body rest s).1).
  { induction rest as [|x rest IH]; intros done s0 HI; simpl.
    - by rewrite app_nil_r.
    - specialize (Hstep done x s0 HI).
      destruct (body x s0) as [s' [[]|e|]]; simpl in *; [|done|done].
      intros Hok. replace (done ++ x :: rest) with ((done ++ [x]) ++ rest)
        by (by rewrite <- app_assoc).
      apply IH; [by apply Hstep | done]. }
  apply (Hgen l []), H0.
Qed.

Lemma strict_eq_item_productId (x : jsval) (item : string) :
  strict_eq x (item_productId item) = true → x = item_productId item.
Proof.
  unfold item_productId, item_ids.
  destruct (split "_" item) as [|a [|b ?]]; simpl; destruct x; try done.
  intros H. by apply String.eqb_eq in H as ->.
Qed.

Lemma setData_docs_unmatched (l : list doc) (prodId skuId : jsval) :
  (∀ d, In d l → strict_eq (product_id d) prodId = false) →
  setData_docs l prodId skuId = Ok None.
Proof.
  revert skuId. induction l as [|d l IH]; intros skuId H; simpl; [done|].
  rewrite (H d) by (by left). apply IH. intros d' Hd'. apply H. by right.
Qed.

Lemma setData_docs_matched (l : list doc) (prodId skuId : jsval) (array : list jsval) :
  setData_docs l prodId skuId = Ok (Some array) →
  ∃ d, In d l ∧ strict_eq (product_id d) prodId = true.
Proof.
  induction l as [|d l IH]; simpl; [done|].
  destruct (strict_eq (product_id d) prodId) eqn:E.
  - intros _. exists d. split; [by left | done].
  - intros H. destruct (IH H) as (d' & ? & ?). exists d'. split; [by right | done].
Qed.

Lemma setData_docs_found (l : list doc) (prodId skuId : jsval) :
  (∃ d, In d l ∧ strict_eq (product_id d) prodId = true) →
  setData_docs l prodId skuId ≠ Ok None.
Proof.
  induction l as [|d l IH]; simpl; intros (d' & Hin & Hd'); [done|].
  destruct (strict_eq (product_id d) prodId) eqn:E.
  - destruct (first_image (sku_skuImages d)); simpl; [|done|done].
    destruct (style_order_list d); [|done].
    by destruct (setData_sku _ _ _).
  - apply IH. exists d'. destruct Hin as [->|?]; [congruence | done].
Qed.

Lemma decomposeItem_unmatched (data : response) (item : string)
    (node : ExplanationNode) (g : globals) :
  ¬ matched data (item_productId item) →
  decomposeItem data (item, node) g = (g, Ok ()).
Proof.
  intros H. unfold decomposeItem, setData.
  assert (Hp : item_productId item = (item_ids item).2) by done.
  destruct (item_ids item) as [skuId prodId]; simpl in *. subst prodId.
  rewrite setData_docs_unmatched; [done|].
  intros d Hd. destruct (strict_eq _ _) eqn:E; [|done].
  destruct H. by exists d.
Qed.

(** A matched item gets the records of its tree. *)
Lemma decomposeItem_details (data : response) (item : string)
    (node : ExplanationNode) (g : globals) (array : list jsval) :
  setData data (item_productId item) (Str (item_ids item).1) = Ok (Some array) →
  allDetails (decomposeItem data (item, node) g).1 !! item = Some (itemDetails node).
Proof.
  unfold decomposeItem, item_productId.
  destruct (item_ids item) as [skuId prodId]; simpl. intros ->. simpl.
  apply lookup_insert_eq.
Qed.

Lemma decomposeItem_docs (data data' : response) :
  docs data = docs data' → decomposeItem data = decomposeItem data'.
Proof. intros H. unfold decomposeItem, setData. by rewrite H. Qed.

(** What one step adds to the two stores. *)
Lemma decomposeItem_keys (data : response) (item : string)
    (node : ExplanationNode) (g : globals) :
  let g' := (decomposeItem data (item, node) g).1 in
  (dom (allProducts g') ⊆ dom (allProducts g) ∪ {[ToString (item_productId item)]}) ∧
  (dom (allProducts g) ⊆ dom (allProducts g')) ∧
  (dom (allDetails g') ⊆ dom (allDetails g) ∪ {[item]}) ∧
  (dom (allProducts g') ≠ dom (allProducts g) → matched data (item_productId item)) ∧
  ((decomposeItem data (item, node) g).2 = Ok () → matched data (item_productId item) →
   ToString (item_productId item) ∈ dom (allProducts g')).
Proof.
  unfold decomposeItem, setData.
  assert (Hp : item_productId item = (item_ids item).2) by done.
  destruct (item_ids item) as [skuId prodId]; simpl in *. subst prodId.
  destruct (setData_docs _ _ _) as [[array|]|e|] eqn:E; simpl.
  - apply setData_docs_matched in E.
    destruct (allProducts g !! _) eqn:El; simpl;
      rewrite ?dom_alter_L, ?dom_insert_L, (comm_L (∪) {[item]}).
    + split_and!; [apply union_subseteq_l | done | done | done |].
      intros _ _. by apply elem_of_dom.
    + split_and!; [by rewrite (comm_L (∪)) | apply union_subseteq_r | done | done |].
      intros _ _. by apply elem_of_union_l, elem_of_singleton.
  - split_and!; [apply union_subseteq_l | done | apply union_subseteq_l | done |].
    intros _ Hm. by apply (setData_docs_found _ _ (Str skuId)) in Hm.
  - split_and!; [apply union_subseteq_l | done | apply union_subseteq_l | done | done].
  - split_and!; [apply union_subseteq_l | done | apply union_subseteq_l | done | done].
Qed.

Lemma decomposeSKU_keys (data : response) (g : globals) :
  let g' := (decomposeSKU data g).1 in
  (∀ key, key ∈ dom (allProducts g') →
     ∃ item node, (item, node) ∈ explain data ∧ key = ToString (item_productId item) ∧
                  matched data (item_productId item)) ∧
  (∀ item, item ∈ dom (allDetails g') → item ∈ (explain data).*1).
Proof.
  unfold decomposeSKU.
  apply (forEach_invariant (decomposeItem data)
    (fun g' =>
       (∀ key, key ∈ dom (allProducts g') →
          ∃ item node, (item, node) ∈ explain data ∧ key = ToString (item_productId item) ∧
                       matched data (item_productId item)) ∧
       (∀ item, item ∈ dom (allDetails g') → item ∈ (explain data).*1))).
  - simpl. split; intros ? H; rewrite dom_empty_L in H; by apply elem_of_empty in H.
  - intros [item node] g1 Hin (H1 & H2).
    pose proof (decomposeItem_keys data item node g1) as (K1 & K2 & K3 & K4 & K5).
    destruct (decomposeItem data (item, node) g1) as [g2 r] eqn:E; simpl in *.
    split.
    + intros key Hkey. destruct (decide (key ∈ dom (allProducts g1))) as [Hold|Hnew].
      * by apply H1.
      * assert (key = ToString (item_productId item)) as ->.
        { apply K1, elem_of_union in Hkey as [?|Hk]; [done|]. by apply elem_of_singleton in Hk. }
        exists item, node. split_and!; [done | done |].
        apply K4. intros Heq. apply Hnew. by rewrite <- Heq.
    + intros i Hi. apply K3, elem_of_union in Hi as [?|Hi]; [by apply H2|].
      apply elem_of_singleton in Hi as ->.
      apply list_elem_of_fmap. by exists (item, node).
Qed.

(** Every Product entry records a product id that a document has. *)
Lemma decomposeItem_products (data : response) (entry : string * ExplanationNode)
    (g : globals) :
  (∀ key p, allProducts g !! key = Some p → matched data (productId p)) →
  ∀ key p, allProducts (decomposeItem data entry g).1 !! key = Some p →
           matched data (productId p).
Proof.
  intros Hg. destruct entry as [item node]. unfold decomposeItem, setData.
  destruct (item_ids item) as [skuId prodId].
  destruct (setData_docs _ _ _) as [[array|]|e|] eqn:E; simpl; try done.
  apply setData_docs_matched in E. intros key p.
  rewrite lookup_alter. case_decide as Hkey; [subst key|].
  - destruct (allProducts g !! _) eqn:El; simpl.
    + rewrite El. simpl. intros [= <-]. simpl. by eapply Hg.
    + rewrite lookup_insert_eq. simpl. by intros [= <-].
  - destruct (allProducts g !! ToString prodId) eqn:El; simpl; [by apply Hg|].
    rewrite lookup_insert_ne by done. by apply Hg.
Qed.

Lemma decomposeSKU_products (data : response) (g : globals) :
  ∀ key p, allProducts (decomposeSKU data g).1 !! key = Some p →
           matched data (productId p).
Proof.
  unfold decomposeSKU.
  apply (forEach_invariant (decomposeItem data)
    (fun g' => ∀ key p, allProducts g' !! key = Some p → matched data (productId p))).
  - intros key p. simpl. by rewrite lookup_empty.
  - intros entry g1 _ Hg1. by apply decomposeItem_products.
Qed.

Lemma decomposeSKU_completed (data : response) (g : globals) :
  (decomposeSKU data g).2 = Ok () →
  ∀ item node, (item, node) ∈ explain data → matched data (item_productId item) →
    ToString (item_productId item) ∈ dom (allProducts (decomposeSKU data g).1).
Proof.
  unfold decomposeSKU.
  apply (forEach_completed (decomposeItem data)
    (fun done g' =>
       ∀ item node, (item, node) ∈ done → matched data (item_productId item) →
         ToString (item_productId item) ∈ dom (allProducts g'))).
  - intros ? ? H. by apply elem_of_nil in H.
  - intros done [item node] g1 H Hok i n Hi Hm.
    pose proof (decomposeItem_keys data item node g1) as (K1 & K2 & K3 & K4 & K5).
    apply elem_of_app in Hi as [Hi|Hi].
    + apply K2. by eapply H.
    + apply list_elem_of_singleton in Hi. injection Hi as -> ->. by apply K5.
Qed.

Lemma size_list_to_set_le (l : list string) :
  size (list_to_set l : gset string) ≤ length l.
Proof.
  induction l as [|x l IH].
  - rewrite list_to_set_nil, size_empty. simpl. lia.
  - rewrite list_to_set_cons, size_union_alt, size_singleton. simpl length.
    pose proof (subseteq_size (list_to_set l ∖ {[x]}) (list_to_set l : gset string)
                  (subseteq_difference_l _ _ _ (reflexivity _))).
    lia.
Qed.

Lemma decomposeSKU_size (data : response) (g : globals) :
  size (allProducts (decomposeSKU data g).1) ≤ distinct_product_ids data.
Proof.
  pose proof (decomposeSKU_keys data g) as [Hkeys _].
  unfold distinct_product_ids.
  set (ids := map product_id (docs data)).
  etrans; [|etrans; [apply (size_list_to_set_le (ToString <$> remove_dups ids))|]];
    [|by rewrite length_fmap].
  rewrite <- size_dom. apply subseteq_size. intros key Hkey.
  destruct (Hkeys key Hkey) as (item & node & _ & -> & d & Hd & Heq).
  apply strict_eq_item_productId in Heq. rewrite <- Heq.
  apply elem_of_list_to_set, list_elem_of_fmap. exists (product_id d). split; [done|].
  apply elem_of_remove_dups, list_elem_of_fmap. exists d. split; [done|].
  by apply list_elem_of_In.
Qed.

(** C8, counterexample.  One document, hence one distinct product id, and
    no scored item: the Product map is empty. *)
Lemma unreferenced_product_has_no_entry :
  let data := {| explain := []; docs := [doc_P1] |} in
  distinct_product_ids data = 1 ∧
  size (allProducts (decomposeSKU data no_globals).1) = 0.
Proof. split; [by vm_compute | done]. Qed.

(** C8, amended.  For any document list with N distinct product ids, the
    Product map of one aggregation pass has at most N entries.  Each entry
    is the product id of a scored item key that a document matches,
    however many keys name it; when the pass ends normally, every such
    product id has its entry.  A document that no scored key names has
    none. *)
Theorem product_map_at_most_N (data : response) (g : globals) :
  let g' := (decomposeSKU data g).1 in
  size (allProducts g') ≤ distinct_product_ids data ∧
  (∀ key, key ∈ dom (allProducts g') →
     ∃ item node, (item, node) ∈ explain data ∧ key = ToString (item_productId item) ∧
                  matched data (item_productId item)) ∧
  ((decomposeSKU data g).2 = Ok () →
   ∀ item node, (item, node) ∈ explain data → matched data (item_productId item) →
     ToString (item_productId item) ∈ dom (allProducts g')).
Proof.
  split_and!.
  - apply decomposeSKU_size.
  - apply decomposeSKU_keys.
  - apply decomposeSKU_completed.
Qed.

Lemma product_map_at_most_N_witness :
  let data := {| explain := [("A1_P1", sum_of_weights); ("A2_P1", sum_of_weights)];
                 docs := [doc_P1] |} in
  size (allProducts (decomposeSKU data no_globals).1) ≤ 1.
Proof.
  intros data. exact (proj1 (product_map_at_most_N data no_globals)).
Defined.

(** C5.  For a scored item key whose product id matches no document, the
    step of the aggregator for that item returns normally and leaves the
    stores as they were; the whole pass gives what it gives without the
    item (the other items are aggregated the same), the store of score
    records has no entry under the key, and no Product entry is of the
    product id of the item. *)
Theorem unmatched_item_dropped (data : response)
    (before after : list (string * ExplanationNode))
    (item : string) (node : ExplanationNode) (g : globals) :
  explain data = before ++ (item, node) :: after →
  ¬ matched data (item_productId item) →
  (∀ g0, decomposeItem data (item, node) g0 = (g0, Ok ())) ∧
  decomposeSKU data g =
    decomposeSKU {| explain := before ++ after; docs := docs data |} g ∧
  (item ∉ (before ++ after).*1 →
   allDetails (decomposeSKU data g).1 !! item = None) ∧
  (∀ key p, allProducts (decomposeSKU data g).1 !! key = Some p →
            productId p ≠ item_productId item).
Proof.
  intros Hexplain Hno.
  assert (Hstep : ∀ g0, decomposeItem data (item, node) g0 = (g0, Ok ())).
  { intros g0. by apply decomposeItem_unmatched. }
  assert (Hsame : decomposeSKU data g =
            decomposeSKU {| explain := before ++ after; docs := docs data |} g).
  { unfold decomposeSKU. simpl. rewrite Hexplain.
    rewrite (decomposeItem_docs {| explain := before ++ after; docs := docs data |} data) by done.
    rewrite !forEach_app.
    destruct (forEach _ before _) as [g1 [[]|e|]]; [|done|done].
    cbn [forEach]. by rewrite Hstep. }
  split_and!; [done | done | |].
  - intros Hfresh. rewrite Hsame. apply not_elem_of_dom. intros Hin.
    by apply (proj2 (decomposeSKU_keys _ g)) in Hin.
  - intros key p Hp Heq. apply Hno. rewrite <- Heq.
    by apply (decomposeSKU_products data g key).
Qed.

Lemma unmatched_item_dropped_witness :
  let data := {| explain := [("A1_P1", sum_of_weights); ("A9_P9", sum_of_weights)];
                 docs := [doc_P1] |} in
  decomposeItem data ("A9_P9", sum_of_weights) no_globals = (no_globals, Ok ()) ∧
  allDetails (decomposeSKU data no_globals).1 !! "A9_P9" = None ∧
  (∀ key p, allProducts (decomposeSKU data no_globals).1 !! key = Some p →
            productId p ≠ Str "P9").
Proof.
  intros data.
  assert (Hno : ¬ matched data (item_productId "A9_P9")).
  { intros (d & [<-|[]] & Hd). vm_compute in Hd. discriminate. }
  destruct (unmatched_item_dropped data [("A1_P1", sum_of_weights)] [] "A9_P9"
              sum_of_weights no_globals eq_refl Hno) as (H1 & _ & H3 & H4).
  split_and!; [apply H1 | | exact H4]. apply H3. simpl. intros H.
  apply list_elem_of_singleton in H. discriminate.
Defined.

(** ** The loop of appendScoreDetail *)

(** A run of the loop that ends gives the same result with more fuel. *)
Lemma appendScoreDetail_loop_fuel (fuel : nat) (l : list detailsElement)
    (drop : detailsElement) (indentLevel : option Z) (parent : option path) :
  appendScoreDetail_loop fuel l drop indentLevel parent ≠ Diverge →
  ∀ more, appendScoreDetail_loop (fuel + more) l drop indentLevel parent =
          appendScoreDetail_loop fuel l drop indentLevel parent.
Proof.
  revert parent. induction fuel as [|fuel IH]; intros [p|] Hends more.
  - done.
  - by destruct more.
  - simpl in *.
    destruct (indent_of (classList_at l p)) as [d|], indentLevel as [i|];
      try (by apply IH).
    destruct (d <? i - 1)%Z; [by apply IH|].
    destruct (d =? i - 1)%Z; [done | by apply IH].
  - done.
Qed.

Lemma appendScoreDetail_loop_step (fuel : nat) (l : list detailsElement)
    (drop : detailsElement) (indentLevel : option Z) (p : path) :
  appendScoreDetail_loop (S fuel) l drop indentLevel (Some p) =
  match move_at l indentLevel p with
  | go_deeper => appendScoreDetail_loop fuel l drop indentLevel (last_details l p)
  | do_append => Ok (update_children (fun k => k ++ [drop]) l p,
                  Some (p ++ [number_of_children l p]))
  | go_up => appendScoreDetail_loop fuel l drop indentLevel (parentNode p)
  end.
Proof.
  unfold move_at. simpl.
  destruct (indent_of (classList_at l p)) as [d|], indentLevel as [i|]; try done.
  by destruct (d <? i - 1)%Z, (d =? i - 1)%Z.
Qed.

Lemma appendScoreDetail_loop_exit (fuel : nat) (l : list detailsElement)
    (drop : detailsElement) (indentLevel : option Z) :
  appendScoreDetail_loop fuel l drop indentLevel None = Ok (l, None).
Proof. by destruct fuel. Qed.

Lemma last_of_last (below : detailsElement → path) (l : list detailsElement) (i : nat) :
  last_of below l i =
  from_option (fun d => (i + pred (length l)) :: below d) [] (last l).
Proof.
  revert i. induction l as [|d [|d' l] IH]; intros i.
  - done.
  - simpl. by rewrite Nat.add_0_r.
  - change (last_of below (d :: d' :: l) i) with (last_of below (d' :: l) (S i)).
    rewrite IH. change (last (d :: d' :: l)) with (last (d' :: l)).
    destruct (last (d' :: l)); simpl; [f_equal; lia | done].
Qed.

Lemma last_path_last (l : list detailsElement) :
  last_path l =
  from_option (fun d => pred (length l) :: last_path (nested d)) [] (last l).
Proof.
  unfold last_path at 1. rewrite last_of_last.
  destruct (last l) as [[c t v k]|]; done.
Qed.

Lemma nth_error_last (l : list detailsElement) :
  nth_error l (pred (length l)) = last l.
Proof.
  induction l as [|d [|d' l] IH]; try done.
Qed.

(** The nodes between the container and the last element [last_path l]:
    below each of them the last element is the same one. *)
Lemma element_at_node (k : nat) (l : list detailsElement) :
  0 < k ≤ length (last_path l) →
  ∃ d, element_at l (node l k) = Some d ∧
       last_below d = skipn k (last_path l).
Proof.
  unfold node. revert l. induction k as [|k IH]; intros l [Hk Hlen]; [lia|].
  rewrite last_path_last in *. pose proof (nth_error_last l) as Hnth.
  destruct (last l) as [d|]; simpl in Hlen; [|lia].
  simpl. rewrite Hnth.
  destruct k as [|k].
  - exists d. split; [done|]. by destruct d.
  - destruct (IH (nested d)) as (d' & Hat & Hbelow); [lia|].
    exists d'. rewrite <- Hat, Hbelow. split; [|done].
    destruct (last_path (nested d)); [simpl in Hlen; lia | done].
Qed.

Lemma last_details_node (k : nat) (l : list detailsElement) :
  k ≤ length (last_path l) →
  last_details l (node l k) =
  if decide (k = length (last_path l)) then None else Some (last_path l).
Proof.
  intros Hk. destruct k as [|k].
  - simpl. destruct (last_path l); by case_decide.
  - destruct (element_at_node (S k) l) as (d & Hat & Hbelow); [lia|].
    unfold node in *. unfold last_details. rewrite Hat, Hbelow.
    destruct (firstn (S k) (last_path l)) eqn:Hfirst.
    { destruct (last_path l); [simpl in Hk; lia | done]. }
    rewrite <- Hfirst. case_decide as Hlast.
    + rewrite Hlast, skipn_all. done.
    + destruct (skipn (S k) (last_path l)) eqn:Hskip.
      * apply (f_equal length) in Hskip. rewrite length_skipn in Hskip.
        simpl in Hskip. lia.
      * by rewrite <- Hskip, firstn_skipn.
Qed.

Lemma parentNode_node (k : nat) (l : list detailsElement) :
  S k ≤ length (last_path l) →
  parentNode (node l (S k)) = Some (node l k).
Proof.
  intros Hk. unfold node, parentNode.
  destruct (firstn (S k) (last_path l)) eqn:Hfirst.
  { destruct (last_path l); [simpl in Hk; lia | done]. }
  rewrite <- Hfirst. f_equal. apply removelast_firstn. lia.
Qed.

Section Loop.
Variables (l : list detailsElement) (drop : detailsElement) (indentLevel : option Z).

(** The loop climbs from the node at depth [j] to the one at depth [k]
    when every node in between sends it up. *)
Lemma appendScoreDetail_loop_climb (k : nat) :
  climbs l indentLevel k →
  ∀ fuel j, k ≤ j ≤ length (last_path l) →
    appendScoreDetail_loop fuel l drop indentLevel (Some (node l j)) = Diverge ∨
    ∃ fuel', fuel' ≤ fuel ∧
      appendScoreDetail_loop fuel l drop indentLevel (Some (node l j)) =
      appendScoreDetail_loop fuel' l drop indentLevel (Some (node l k)).
Proof.
  intros Hup. induction fuel as [|fuel IH]; intros j Hj; [by left|].
  destruct (decide (j = k)) as [->|Hne]; [right; eauto|].
  destruct j as [|j]; [lia|].
  rewrite appendScoreDetail_loop_step, (Hup (S j)), parentNode_node by lia.
  destruct (IH j) as [Hdiv|(fuel' & Hle & Heq)]; [lia|by left|].
  right. exists fuel'. split; [lia|done].
Qed.

(** A node above the last element that sends the loop deeper sends it back
    to the last element: the loop never ends. *)
Lemma appendScoreDetail_loop_cycle (k : nat) :
  k < length (last_path l) →
  climbs l indentLevel k →
  move_at l indentLevel (node l k) = go_deeper →
  ∀ fuel, appendScoreDetail_loop fuel l drop indentLevel (Some (last_path l)) = Diverge.
Proof.
  intros Hk Hup Hdeeper fuel.
  induction (lt_wf fuel) as [fuel _ IH].
  destruct (appendScoreDetail_loop_climb k Hup fuel (length (last_path l)))
    as [Hdiv|(fuel' & Hle & Heq)]; [lia| |];
    unfold node at 1 in Hdiv || unfold node at 1 in Heq;
    rewrite firstn_all in *; [done|].
  etrans; [exact Heq|]. destruct fuel' as [|fuel']; [done|].
  rewrite appendScoreDetail_loop_step, Hdeeper, last_details_node by lia.
  case_decide; [lia|]. apply IH. lia.
Qed.

(** A run that ends, from the node at depth [k] reached by climbing, ends
    within [k + 1] iterations. *)
Lemma appendScoreDetail_loop_ends (fuel k : nat) :
  k ≤ length (last_path l) →
  climbs l indentLevel k →
  appendScoreDetail_loop fuel l drop indentLevel (Some (node l k)) ≠ Diverge →
  appendScoreDetail_loop (S k) l drop indentLevel (Some (node l k)) =
  appendScoreDetail_loop fuel l drop indentLevel (Some (node l k)).
Proof.
  revert k. induction fuel as [|fuel IH]; intros k Hk Hup Hends; [done|].
  rewrite !appendScoreDetail_loop_step in *.
  destruct (move_at l indentLevel (node l k)) eqn:Hmove.
  - rewrite last_details_node in * by done.
    case_decide as Hlast; [by rewrite !appendScoreDetail_loop_exit|].
    destruct Hends. apply (appendScoreDetail_loop_cycle k); [lia|done|done].
  - done.
  - destruct k as [|k]; [by rewrite !appendScoreDetail_loop_exit|].
    rewrite parentNode_node in * by done.
    apply IH; [lia| |done].
    intros j Hj. destruct (decide (j = S k)) as [->|]; [done|apply Hup; lia].
Qed.

End Loop.

Lemma length_last_path (l : list detailsElement) :
  length (last_path l) ≤ list_sum (map count_details l).
Proof.
  remember (list_sum (map count_details l)) as n eqn:Hn.
  revert l Hn. induction (lt_wf n) as [n _ IH]; intros l ->.
  rewrite last_path_last.
  destruct (last l) as [d|] eqn:Hlast; simpl; [|lia].
  apply last_Some in Hlast as [l' ->].
  rewrite map_app, list_sum_app in *. destruct d as [c t v k]. simpl in *.
  specialize (IH (list_sum (map count_details k))).
  specialize (IH ltac:(lia) k eq_refl). lia.
Qed.

(** The fuel that [appendScoreDetail] gives its loop is enough: whenever
    the loop ends at all, [appendScoreDetail] returns its result, so that
    [Diverge] stands for a loop that never ends and for nothing else. *)
Theorem appendScoreDetail_fuel (fuel : nat) (l : list detailsElement)
    (drop : detailsElement) (scoreDetail : ScoreRecord) (parent : path) :
  last_details l [] = Some parent →
  let indentLevel := parseInt (ToString (depth_value scoreDetail)) in
  appendScoreDetail_loop fuel l drop indentLevel (Some parent) ≠ Diverge →
  appendScoreDetail l drop scoreDetail =
  appendScoreDetail_loop fuel l drop indentLevel (Some parent).
Proof.
  intros Hparent indentLevel Hends. unfold appendScoreDetail. rewrite Hparent.
  fold indentLevel.
  assert (parent = last_path l) as ->.
  { simpl in Hparent. destruct (last_path l); congruence. }
  pose proof (length_last_path l) as Hlen.
  pose proof (appendScoreDetail_loop_ends l drop indentLevel fuel
                (length (last_path l))) as Hexact.
  unfold node in Hexact. rewrite firstn_all in Hexact.
  specialize (Hexact ltac:(lia) ltac:(intros j Hj; lia) Hends).
  etrans; [|exact Hexact].
  replace (S (S (list_sum (map count_details l)))) with
    (S (length (last_path l)) +
       (S (list_sum (map count_details l)) - length (last_path l))) by lia.
  apply appendScoreDetail_loop_fuel. intros Hdiv. apply Hends.
  by etrans; [symmetry; exact Hexact|].
Qed.

(** ** The registry of boosts *)

Lemma sidebarOption_elem (boost : string) (checks : list string) (id : string) :
  id ∈ sidebarOption boost checks → id ∈ checks ∨ id = "check-" +:+ boost.
Proof.
  unfold sidebarOption. case_bool_decide; [by left|].
  intros [?|Hnew]%elem_of_app; [by left|]. right. by apply list_elem_of_singleton in Hnew.
Qed.

Lemma addBoostClass_checklist (pg pg' : page) (r : ScoreRecord)
    (l l' : list detailsElement) (drop : detailsElement) (place : option path) (id : string) :
  addBoostClass pg r l drop place = Ok (pg', l') →
  id ∈ checklist pg' →
  id ∈ checklist pg ∨
  (rdescription r = Str "boost" ∧ ∃ name, id = "check-" +:+ boostClass_of name (rvalue r)).
Proof.
  unfold addBoostClass. destruct (rdescription r) as [| | | |d] eqn:Hd; try done.
  destruct (String.eqb d "boost") eqn:Hb.
  - apply String.eqb_eq in Hb as ->.
    destruct (classList_add _ (card pg)) as [c| |]; simpl; [|done|done].
    destruct (classList_add _ (deck pg)) as [k| |]; simpl; [|done|done].
    intros [= <- <-]. simpl. intros [? | ->]%sidebarOption_elem; [by left|].
    right. split; [done|]. by eexists.
  - repeat (match goal with
            | |- context [if ?b then _ else _] => destruct b
            end; simpl); intros [= <- <-]; by left.
Qed.

Lemma scoreList_body_checklist (r : ScoreRecord) (st : page * list detailsElement) (id : string) :
  id ∈ checklist (scoreList_body r st).1.1 →
  id ∈ checklist st.1 ∨
  (rdescription r = Str "boost" ∧ ∃ name, id = "check-" +:+ boostClass_of name (rvalue r)).
Proof.
  destruct st as [pg l]. unfold scoreList_body, continue.
  destruct (createScoreDetail r) as [drop| |]; simpl; [|by left|by left].
  destruct (appendScoreDetail l drop r) as [[l1 place]| |]; simpl; [|by left|by left].
  destruct (addBoostClass pg r l1 drop place) as [[pg' l2]| |] eqn:E; simpl;
    [|by left|by left].
  by apply (addBoostClass_checklist _ _ _ _ _ _ _ _ E).
Qed.

Lemma scoreList_checklist (g : globals) (itemId : string) (pg : page) (id : string) :
  id ∈ checklist (scoreList g itemId pg).1 →
  id ∈ checklist pg ∨ boost_entry g id.
Proof.
  unfold scoreList.
  destruct (allDetails g !! itemId) as [records|] eqn:Hrecords; simpl.
  - pose proof (forEach_invariant scoreList_body
      (fun st => ∀ id, id ∈ checklist st.1 → id ∈ checklist pg ∨ boost_entry g id)
      records (pg, [])) as H.
    destruct (forEach scoreList_body records (pg, [])) as [[pg' l] [[]|e|]]; simpl in *;
      apply H; try (by left).
    all: intros r st Hr Hst id' [?|(Hb & name & ->)]%scoreList_body_checklist;
      [by apply Hst | right; by exists itemId, records, r, name].
  - by left.
Qed.

Section Registry.

Variable prodContainer : jsval → bool.

Lemma addCard_checklist (g : globals) (data : Product) (sku : string)
    (st : list string * list string) (id : string) :
  id ∈ (addCard prodContainer g data sku st).1.2 → id ∈ st.2 ∨ boost_entry g id.
Proof.
  destruct st as [section checks]. unfold addCard.
  destruct (prodContainer _); [|by left].
  set (pg := {| card := _; deck := section; checklist := checks |}).
  pose proof (scoreList_checklist g (sku +:+ "_" +:+ ToString (productId data)) pg id) as H.
  by destruct (scoreList g _ pg) as [pg' [l|e|]].
Qed.

Lemma buildInterface_checklist (g : globals) (checks : list string) (id : string) :
  id ∈ (buildInterface prodContainer g checks).1 → boost_entry g id.
Proof.
  unfold buildInterface.
  apply (forEach_invariant _ (fun checks => id ∈ checks → boost_entry g id)).
  - intros H. by apply elem_of_nil in H.
  - intros product checks0 _ H0.
    set (section := [ToString (productId product); "product-container"]).
    pose proof (forEach_invariant (addCard prodContainer g product)
      (fun st => id ∈ st.2 → boost_entry g id)
      (map fst (map_to_list (skus product))) (section, checks0) H0) as H.
    destruct (forEach (addCard prodContainer g product) _ _) as [[s c] r]; simpl in *.
    apply H. intros sku st _ Hst [?|?]%addCard_checklist; [by apply Hst | done].
Qed.

(** Both stores are emptied before the first item is read. *)
Lemma decomposeSKU_independent (data : response) (g g' : globals) :
  decomposeSKU data g = decomposeSKU data g'.
Proof. reflexivity. Qed.

(** So is the checklist, before the first card is added. *)
Lemma buildInterface_independent (g : globals) (checks checks' : list string) :
  buildInterface prodContainer g checks = buildInterface prodContainer g checks'.
Proof. reflexivity. Qed.

(** X29.  A query whose response arrives with [debug.explain] and
    [response.docs] ends in the same Product map, store of score records
    and registry of boosts whatever they held before.  Every Product entry
    and every stored sequence is under a key of the new response, and
    every entry of the registry is the checkbox of a boost record of the
    new store. *)
Theorem new_query_rebuilds (data : response) (st st' : app) :
  loadPage prodContainer (arrived data) st = loadPage prodContainer (arrived data) st' ∧
  let st1 := (loadPage prodContainer (arrived data) st).1 in
  (∀ key, key ∈ dom (allProducts (stores st1)) →
     ∃ item node, (item, node) ∈ explain data ∧ key = ToString (item_productId item)) ∧
  (∀ item, item ∈ dom (allDetails (stores st1)) → item ∈ (explain data).*1) ∧
  (∀ id, id ∈ registry st1 → boost_entry (stores st1) id).
Proof.
  split.
  { unfold loadPage, queryData.
    rewrite (decomposeSKU_independent data (stores st) (stores st')).
    destruct (decomposeSKU data (stores st')) as [g r]. cbn [fst].
    by rewrite (buildInterface_independent g (registry st) (registry st')). }
  unfold loadPage, queryData.
  pose proof (decomposeSKU_keys data (stores st)) as [H1 H2].
  destruct (decomposeSKU data (stores st)) as [g r]; simpl in *.
  pose proof (buildInterface_checklist g (registry st)) as H3.
  destruct (buildInterface prodContainer g (registry st)) as [checks r']; simpl in *.
  split_and!; [|done|done].
  intros key Hkey. destruct (H1 key Hkey) as (item & node & ? & ? & _). by exists item, node.
Qed.

End Registry.

Lemma new_query_rebuilds_witness :
  let stale := {| stores := details_of "Z9_P9" red_boost;
                  registry := ["check-red-boost-true"] |} in
  let data := {| explain := [("A1_P1", sum_of_weights)]; docs := [doc_P1] |} in
  loadPage (fun _ => true) (arrived data) stale =
  loadPage (fun _ => true) (arrived data) {| stores := no_globals; registry := [] |}.
Proof.
  intros stale data.
  exact (proj1 (new_query_rebuilds (fun _ => true) data stale
                  {| stores := no_globals; registry := [] |})).
Defined.

(** C9.  A query that fails after one that succeeded.  The first query
    stores the product [P1] with the records of [A1_P1] and registers
    [check-red-boost-true].  The second one fails, or its response has no
    [debug]: nothing is cleared, the stores hold the entries of the first
    query, and [buildInterface] builds the registry from them again. *)
Theorem failed_query_redraws_previous :
  let first := {| explain := [("A1_P1", red_boost)]; docs := [doc_P1] |} in
  let st1 := (loadPage (fun _ => true) (arrived first)
                {| stores := no_globals; registry := [] |}).1 in
  dom (allProducts (stores st1)) = {["P1"]} ∧
  dom (allDetails (stores st1)) = {["A1_P1"]} ∧
  registry st1 = ["check-red-boost-true"] ∧
  loadPage (fun _ => true) query_failed st1 = (st1, Ok ()) ∧
  loadPage (fun _ => true) no_debug st1 = (st1, Ok ()).
Proof.
  cbv zeta. split_and!.
  - by vm_compute.
  - by vm_compute.
  - by vm_compute.
  - by vm_compute.
  - by vm_compute.
Qed.

(** ** Score statistics *)

Lemma number_ge_zero (x : number) :
  number_ge x zero = true ↔
  match x with
  | NaN | Inf true => False
  | Inf false => True
  | Fin m _ => (0 ≤ m)%Z
  end.
Proof.
  destruct x as [|[]|m e]; simpl; try done.
  unfold aligned. simpl. rewrite Z.leb_le.
  assert (0 < 10 ^ (e - Z.min e 0))%Z by (apply Z.pow_pos_nonneg; lia).
  nia.
Qed.

Lemma number_gt_ge_zero (x y : number) :
  number_gt x y = true → number_ge y zero = true → number_ge x zero = true.
Proof.
  rewrite !number_ge_zero.
  destruct x as [|[]|m1 e1], y as [|[]|m2 e2]; simpl; try done.
  unfold aligned. rewrite Z.ltb_lt.
  assert (0 < 10 ^ (e1 - Z.min e1 e2))%Z by (apply Z.pow_pos_nonneg; lia).
  assert (0 < 10 ^ (e2 - Z.min e1 e2))%Z by (apply Z.pow_pos_nonneg; lia).
  nia.
Qed.

Lemma number_gt_zero_negative (x : number) :
  x = NaN ∨ number_gt zero x = true → number_gt x zero = false.
Proof.
  intros [->|H]; [done|].
  destruct x as [|[]|m e]; simpl in *; try done.
  unfold aligned in *. simpl in *. apply Z.ltb_lt in H. apply Z.ltb_ge.
  assert (0 < 10 ^ (e - Z.min 0 e))%Z by (apply Z.pow_pos_nonneg; lia).
  assert (0 < 10 ^ (e - Z.min e 0))%Z by (apply Z.pow_pos_nonneg; lia).
  nia.
Qed.

Lemma productScores_fold (l : list SKU) (n : nat) (m : number) :
  number_ge m zero = true →
  let r := fold_left productScores_step l (n, m) in
  r.1 = n + length l ∧ number_ge r.2 zero = true ∧
  ((∀ sku, sku ∈ l →
      parseFloat (skuScore sku) = NaN ∨ number_gt zero (parseFloat (skuScore sku)) = true) →
   r.2 = m).
Proof.
  revert n m. induction l as [|sku l IH]; intros n m Hm; simpl.
  - split_and!; [lia | done | done].
  - destruct (number_gt (parseFloat (skuScore sku)) m) eqn:Hgt.
    + destruct (IH (S n) (parseFloat (skuScore sku))) as (H1 & H2 & H3).
      { by eapply number_gt_ge_zero. }
      split_and!; [simpl in *; lia | done |].
      intros Hall. exfalso.
      pose proof (number_gt_zero_negative _ (Hall sku ltac:(left))) as Hneg.
      apply number_ge_zero in Hm.
      destruct (parseFloat (skuScore sku)) as [|[]|m1 e1], m as [|[]|m2 e2];
        simpl in *; try done.
      unfold aligned in *. simpl in *. apply Z.ltb_lt in Hgt. apply Z.ltb_ge in Hneg.
      assert (0 < 10 ^ (e1 - Z.min e1 0))%Z by (apply Z.pow_pos_nonneg; lia).
      assert (0 < 10 ^ (e1 - Z.min e1 e2))%Z by (apply Z.pow_pos_nonneg; lia).
      assert (0 < 10 ^ (e2 - Z.min e1 e2))%Z by (apply Z.pow_pos_nonneg; lia).
      nia.
    + destruct (IH (S n) m Hm) as (H1 & H2 & H3).
      split_and!; [simpl in *; lia | done |].
      intros Hall. apply H3. intros s Hs. apply Hall. by right.
Qed.

(** C10.  For every sku map, the maximum that [productScores] reports is
    a number not below 0, the count is the number of entries of the map,
    and when every score parses to [NaN] or to a negative number the
    maximum is the initial 0. *)
Theorem productScores_maximum_not_negative (product : gmap string SKU) :
  number_ge (productScores product).2 zero = true ∧
  (productScores product).1 = size product ∧
  ((∀ skuId sku, product !! skuId = Some sku →
      parseFloat (skuScore sku) = NaN ∨ number_gt zero (parseFloat (skuScore sku)) = true) →
   (productScores product).2 = zero).
Proof.
  pose proof (productScores_fold (map snd (map_to_list product)) O zero eq_refl)
    as (H1 & H2 & H3).
  fold (productScores product) in *.
  split_and!; [done | |].
  - rewrite H1, length_map. simpl. apply length_map_to_list.
  - intros Hall. apply H3. intros sku [[k s] [-> Hks]]%list_elem_of_fmap.
    apply (Hall k). by apply elem_of_map_to_list.
Qed.

Lemma productScores_maximum_not_negative_witness :
  productScores negative_scores = (2, zero).
Proof.
  destruct (productScores_maximum_not_negative negative_scores) as (_ & H1 & H2).
  rewrite (surjective_pairing (productScores negative_scores)), H1, H2.
  - reflexivity.
  - intros skuId sku. unfold negative_scores.
    destruct (decide (skuId = "A1")) as [->|?];
      [|destruct (decide (skuId = "A2")) as [->|?]].
    + rewrite lookup_insert_eq. intros [= <-]. right. reflexivity.
    + rewrite lookup_insert_ne, lookup_singleton_eq by done. intros [= <-]. left. reflexivity.
    + rewrite lookup_insert_ne, lookup_singleton_ne by done. discriminate.
Defined.

(** ** Strings *)

#[local] Arguments String.append : simpl nomatch.

Lemma append_assoc (a b c : string) : (a +:+ b) +:+ c = a +:+ b +:+ c.
Proof. induction a as [|x a IH]; simpl; [done | by rewrite IH]. Qed.

Lemma append_length (a b : string) :
  String.length (a +:+ b) = String.length a + String.length b.
Proof. induction a as [|x a IH]; simpl; [done | by rewrite IH]. Qed.

Lemma prefix_append (p s : string) :
  String.prefix p s = true ↔ ∃ b, s = p +:+ b.
Proof.
  revert s. induction p as [|x p IH]; intros s; simpl.
  - destruct s; simpl; split; eauto.
  - destruct s as [|y s]; simpl; [split; [done | by intros [b ?]]|].
    destruct (ascii_dec x y) as [->|Hne].
    + rewrite IH. split; intros [b Hb]; exists b; congruence.
    + split; [done | intros [b Hb]; congruence].
Qed.

Lemma prefix_drop (p s : string) :
  String.prefix p s = true → s = p +:+ drop (String.length p) s.
Proof.
  intros [b ->]%prefix_append. f_equal.
  induction p as [|x p IH]; simpl; [by destruct b | done].
Qed.

Lemma includes_occurs (sub s : string) :
  includes sub s = true ↔ occurs_in sub s.
Proof.
  unfold occurs_in. induction s as [|c s IH].
  - cbn [includes]. rewrite orb_false_r, prefix_append. split.
    + intros [b Hb]. by exists EmptyString, b.
    + intros ([|x a] & b & Hab); [by exists b | done].
  - cbn [includes]. rewrite orb_true_iff, IH, prefix_append. split.
    + intros [[b Hb]|(a & b & Hab)].
      * by exists EmptyString, b.
      * exists (String c a), b. simpl. by rewrite Hab.
    + intros ([|x a] & b & Hab).
      * left. by exists b.
      * right. exists a, b. simpl in Hab. congruence.
Qed.

Lemma split_truncated (s : string) :
  nth 0 (split "(" s) EmptyString = truncated s.
Proof.
  induction s as [|c s IH]; simpl; [done|].
  destruct (Ascii.eqb c "("); [done|].
  destruct (split "(" s); simpl in *; congruence.
Qed.

Lemma without_append (c : ascii) (a b : string) :
  without c (a +:+ b) = without c a && without c b.
Proof. induction a as [|x a IH]; simpl; [done | by rewrite IH, andb_assoc]. Qed.

Lemma split_without (sep : ascii) (a : string) :
  without sep a = true → split sep a = [a].
Proof.
  induction a as [|x a IH]; simpl; [done|].
  intros [Hx Ha]%andb_true_iff. apply negb_true_iff in Hx. by rewrite Hx, IH.
Qed.

Lemma split_append (sep : ascii) (a b : string) :
  without sep a = true → split sep (a +:+ String sep b) = a :: split sep b.
Proof.
  induction a as [|x a IH]; simpl.
  - intros _. by rewrite Ascii.eqb_refl.
  - intros [Hx Ha]%andb_true_iff. apply negb_true_iff in Hx. by rewrite Hx, IH.
Qed.

Lemma replace_absent (pat rep s : string) :
  includes pat s = false → replace pat rep s = s.
Proof.
  induction s as [|c s IH]; cbn [includes replace]; intros [Hp Hs]%orb_false_iff;
    rewrite Hp; [done | by rewrite IH].
Qed.

Lemma replace_length (pat rep s : string) :
  includes pat s = true →
  String.length (replace pat rep s) + String.length pat =
  String.length s + String.length rep.
Proof.
  induction s as [|c s IH]; cbn [includes replace].
  - rewrite orb_false_r. intros Hp. rewrite Hp.
    pose proof (prefix_drop _ _ Hp) as Hs. rewrite Hs at 2.
    rewrite !append_length. lia.
  - destruct (String.prefix pat (String c s)) eqn:Hp.
    + intros _. pose proof (prefix_drop _ _ Hp) as Hs. rewrite Hs at 2.
      rewrite !append_length. lia.
    + simpl. intros Hs. specialize (IH Hs). lia.
Qed.

(** ** The classifier *)

Lemma not_includes (sub s : string) : ¬ occurs_in sub s → includes sub s = false.
Proof. rewrite <- includes_occurs. by destruct (includes sub s). Qed.

Lemma role_unique (d : string) (r r' : role) : has_role d r → has_role d r' → r' = r.
Proof. destruct r, r'; simpl; intros; destruct_and?; try done; congruence. Qed.

Lemma role_exists (d : string) : ∃ r, has_role d r.
Proof.
  destruct (decide (d = "boost")) as [?|Hb]; [by exists boost|].
  destruct (includes "idf, computed as" d) eqn:Hi.
  { exists idf. split; [done | by apply includes_occurs]. }
  destruct (includes "tf, computed as" d) eqn:Ht.
  { exists tf. simpl. rewrite <- !includes_occurs, Hi, Ht. by split_and!. }
  assert (¬ occurs_in "idf, computed as" d) by (rewrite <- includes_occurs; congruence).
  assert (¬ occurs_in "tf, computed as" d) by (rewrite <- includes_occurs; congruence).
  destruct (decide (truncated d = "weight")); [by exists weight_aggregate|].
  destruct (decide (truncated d = "max of:")); [by exists max_aggregate|].
  destruct (decide (truncated d = "query")); [by exists query_constant|].
  by exists plain.
Qed.

Lemma boostClass_not_empty (name : option string) (v : jsval) :
  String.eqb (boostClass_of name v) EmptyString = false.
Proof. unfold boostClass_of. by destruct (ToString (from_option Str Undefined name)). Qed.

Lemma addBoostClass_role (pg : page) (depth : nat) (d : string) (v : jsval)
    (l : list detailsElement) (drop : detailsElement) (place : option path) (r : role) :
  has_role d r →
  addBoostClass pg (mkRecord depth (Str d) v) l drop place =
  match r with
  | boost =>
      let boostClass := boostClass_of (getBoostName l drop place) v in
      if has_whitespace boostClass then Throw InvalidCharacterError
      else Ok ({| card := with_token boostClass (card pg);
                  deck := with_token boostClass (deck pg);
                  checklist := sidebarOption boostClass (checklist pg) |},
               with_role boost l drop place)
  | _ => Ok (pg, with_role r l drop place)
  end.
Proof.
  unfold addBoostClass. cbn [rdescription rvalue]. rewrite split_truncated.
  destruct r; cbn [has_role].
  - intros ->. rewrite String.eqb_refl.
    fold (boostClass_of (getBoostName l drop place) v).
    unfold classList_add. rewrite boostClass_not_empty. cbv zeta.
    by destruct (has_whitespace _).
  - intros [Hb Hi]. apply String.eqb_neq in Hb as ->.
    by apply includes_occurs in Hi as ->.
  - intros (Hb & Hi & Ht). apply String.eqb_neq in Hb as ->.
    apply not_includes in Hi as ->. by apply includes_occurs in Ht as ->.
  - intros (Hb & Hi & Ht & ->). apply String.eqb_neq in Hb as ->.
    apply not_includes in Hi as ->. by apply not_includes in Ht as ->.
  - intros (Hb & Hi & Ht & ->). apply String.eqb_neq in Hb as ->.
    apply not_includes in Hi as ->. by apply not_includes in Ht as ->.
  - intros (Hb & Hi & Ht & ->). apply String.eqb_neq in Hb as ->.
    apply not_includes in Hi as ->. by apply not_includes in Ht as ->.
  - intros (Hb & Hi & Ht & H1 & H2 & H3). apply String.eqb_neq in Hb as ->.
    apply not_includes in Hi as ->. apply not_includes in Ht as ->.
    apply String.eqb_neq in H1 as ->. apply String.eqb_neq in H2 as ->.
    by apply String.eqb_neq in H3 as ->.
Qed.

(** C3, amended.  For every record whose description is a string, exactly
    one role of the closed set applies under the rules in priority order,
    and the classifier gives the element the class of that role (none for
    the plain role, to which every unrecognized description falls).  It
    returns normally for every role but boost; for a boost it raises
    exactly when the class name [<name>-boost-<value>] contains
    whitespace, and otherwise registers the name.  For a record whose
    description is not a string it raises [TypeError]. *)
Theorem classifier_assigns_one_role (pg : page) (depth : nat) (description v : jsval)
    (l : list detailsElement) (drop : detailsElement) (place : option path) :
  match description with
  | Str d =>
      (∃ r, has_role d r ∧ ∀ r', has_role d r' → r' = r) ∧
      (∀ r, has_role d r →
         addBoostClass pg (mkRecord depth description v) l drop place =
         match r with
         | boost =>
             let boostClass := boostClass_of (getBoostName l drop place) v in
             if has_whitespace boostClass then Throw InvalidCharacterError
             else Ok ({| card := with_token boostClass (card pg);
                         deck := with_token boostClass (deck pg);
                         checklist := sidebarOption boostClass (checklist pg) |},
                      with_role boost l drop place)
         | _ => Ok (pg, with_role r l drop place)
         end)
  | _ => addBoostClass pg (mkRecord depth description v) l drop place = Throw TypeError
  end.
Proof.
  destruct description as [| | | |d]; try done. split.
  - destruct (role_exists d) as [r Hr]. exists r. split; [done|].
    intros r' Hr'. by apply (role_unique d r r').
  - intros r Hr. by apply addBoostClass_role.
Qed.

(** ** The name of a boost *)

Lemma boostName_color (pre rest : string) :
  without " " pre = true → without ":" pre = true → without "_" pre = true →
  rest = EmptyString ∨ (∃ rest', rest = String " " rest') →
  boostName_of (pre +:+ "_color:true" +:+ rest) = Some "color".
Proof.
  intros Hs Hc Hu Hrest. unfold boostName_of.
  assert (Htoken : nth 0 (split " " (pre +:+ "_color:true" +:+ rest)) EmptyString
                   = pre +:+ "_color:true").
  { destruct Hrest as [->|[rest' ->]].
    - change (pre +:+ "_color:true" +:+ EmptyString) with (pre +:+ "_color:true").
      rewrite split_without; [done|]. by rewrite without_append, Hs.
    - rewrite <- append_assoc, split_append; [done|]. by rewrite without_append, Hs. }
  rewrite Htoken.
  replace (pre +:+ "_color:true") with ((pre +:+ "_color") +:+ String ":" "true")
    by (by rewrite append_assoc).
  rewrite split_append by (by rewrite without_append, Hc).
  cbn [split nth_error Ascii.eqb Bool.eqb].
  replace (String.eqb "true" "true") with true by reflexivity.
  replace (Ascii.eqb "t" quote) with false by reflexivity.
  replace (pre +:+ "_color:true" +:+ rest)
    with ((pre +:+ "_color") +:+ String ":" ("true" +:+ rest))
    by (by rewrite append_assoc).
  rewrite split_append by (by rewrite without_append, Hc).
  cbn [nth].
  replace (pre +:+ "_color") with (pre +:+ String "_" "color") by done.
  by rewrite split_append.
Qed.

(** C7, amended.  For every boost record whose value prints as [true] and
    whose nearest weight element has a description that starts with a
    token [<prefix>_color:true] (no space, colon or underscore in the
    prefix, as in [weight(field_color:true in 5)]), the boost name is
    [color] and the registry, the card and its section hold
    [color-boost-true]. *)
Theorem color_boost_registered (pg : page) (depth : nat) (v : jsval)
    (l : list detailsElement) (drop : detailsElement) (place : option path)
    (context : detailsElement) (pre rest : string) :
  closest_scoreweight l drop place = Some context →
  detail_desc context = pre +:+ "_color:true" +:+ rest →
  without " " pre = true → without ":" pre = true → without "_" pre = true →
  rest = EmptyString ∨ (∃ rest', rest = String " " rest') →
  ToString v = "true" →
  getBoostName l drop place = Some "color" ∧
  ∃ pg' l', addBoostClass pg (mkRecord depth (Str "boost") v) l drop place = Ok (pg', l') ∧
            "check-color-boost-true" ∈ checklist pg' ∧
            "color-boost-true" ∈ card pg' ∧
            "color-boost-true" ∈ deck pg'.
Proof.
  intros Hctx Hdesc Hs Hc Hu Hrest Hv.
  assert (Hname : getBoostName l drop place = Some "color").
  { unfold getBoostName. rewrite Hctx, Hdesc. by apply boostName_color. }
  split; [done|].
  rewrite (addBoostClass_role pg depth "boost" v l drop place boost eq_refl).
  unfold boostClass_of. rewrite Hname, Hv. cbn -[with_token sidebarOption with_role].
  eexists _, _. split; [done|]. cbn [checklist card deck].
  unfold sidebarOption, with_token.
  split_and!; case_bool_decide; try done; apply elem_of_app; right; by left.
Qed.

(** C7, counterexample.  The weight description contains [field_color:]
    and the boost value is [true], yet the name is the term [red]: the
    registry gains [red-boost-true], not [color-boost-true]. *)
Lemma field_color_boost_named_after_term :
  scoreList (details_of "A1_P1" red_boost) "A1_P1" new_card =
    ({| card := ["product-card"; "red-boost-true"];
        deck := ["P1"; "product-container"; "red-boost-true"];
        checklist := ["check-red-boost-true"] |},
     Ok [Details ["indent-1"; "scoreweight"] "weight(field_color:red in 5)" "2"
           [Details ["indent-2"; "scoreboost"] "boost" "true" []]]) ∧
  includes "field_color:" "weight(field_color:red in 5)" = true ∧
  "check-color-boost-true" ∉ ["check-red-boost-true"].
Proof.
  split_and!; [by vm_compute | done |].
  intros H. apply list_elem_of_singleton in H. discriminate.
Qed.

Lemma color_boost_registered_witness :
  getBoostName [color_weight] (Details ["indent-2"] "boost" "true" []) (Some [0; 0])
    = Some "color" ∧
  ∃ pg' l',
    addBoostClass new_card (mkRecord 2 (Str "boost") (Str "true")) [color_weight]
      (Details ["indent-2"] "boost" "true" []) (Some [0; 0]) = Ok (pg', l') ∧
    "check-color-boost-true" ∈ checklist pg' ∧
    "color-boost-true" ∈ card pg' ∧ "color-boost-true" ∈ deck pg'.
Proof.
  apply (color_boost_registered new_card 2 (Str "true") [color_weight]
           (Details ["indent-2"] "boost" "true" []) (Some [0; 0]) color_weight
           "weight(field" " in 5)").
  - reflexivity.
  - reflexivity.
  - reflexivity.
  - reflexivity.
  - reflexivity.
  - right. eexists. reflexivity.
  - reflexivity.
Defined.

(** C3, counterexample.  The classifier raises on the record that the
    flattener stores for a node without description, and on a boost record
    whose value contains a space. *)
Lemma classifier_raises :
  scoreList (details_of "A1_P1" malformed_example) "A1_P1" new_card
    = (new_card, Throw TypeError) ∧
  addBoostClass new_card (mkRecord 1 (Str "boost") (Str "1 5"))
    [Details ["indent-1"] "boost" "1 5" []] (Details ["indent-1"] "boost" "1 5" [])
    (Some [0]) = Throw InvalidCharacterError.
Proof. split; by vm_compute. Qed.

Lemma classifier_assigns_one_role_witness :
  has_role "weight(field:x)" weight_aggregate ∧
  addBoostClass new_card (mkRecord 2 (Str "weight(field:x)") (Num (Fin 6 0)))
    [Details ["indent-2"] "weight(field:x)" "6" []]
    (Details ["indent-2"] "weight(field:x)" "6" []) (Some [0])
  = Ok (new_card, [Details ["indent-2"; "scoreweight"] "weight(field:x)" "6" []]).
Proof.
  assert (H : has_role "weight(field:x)" weight_aggregate).
  { simpl. rewrite <- !includes_occurs. split_and!; [discriminate | | | reflexivity];
      rewrite Bool.not_true_iff_false; reflexivity. }
  split; [exact H|].
  exact (proj2 (classifier_assigns_one_role new_card 2 (Str "weight(field:x)") (Num (Fin 6 0))
           [Details ["indent-2"] "weight(field:x)" "6" []]
           (Details ["indent-2"] "weight(field:x)" "6" []) (Some [0]))
           weight_aggregate H).
Defined.

(** C2.  For the tree [sum_of_weights] (description [sum of:], value 10,
    two children [weight(field:x)] of value 6 and [weight(field:y)] of value
    4 under [details]), the flattener stores three records of depths 1, 2,
    2; [scoreList] builds the score list from them without raising, the
    recursive walk of [scoreFormula] gives the tokens [(], [+ 6 + 4] (as a
    nested array) and [)], and [scoreFormulaFormat] flattens, joins and
    normalizes them into the string (6 + 4). *)
Theorem sum_of_weights_formula (g : globals) (item : string) (pg : page) :
  allDetails g !! item = Some (itemDetails sum_of_weights) →
  itemDetails sum_of_weights =
    [mkRecord 1 (Str "sum of:") (Num (Fin 10 0));
     mkRecord 2 (Str "weight(field:x)") (Num (Fin 6 0));
     mkRecord 2 (Str "weight(field:y)") (Num (Fin 4 0))] ∧
  ∃ l, scoreList g item pg = (pg, Ok l) ∧
       scoreFormula l " = " = [Tok "("; Arr [Tok "+"; Tok "6"; Tok "+"; Tok "4"]; Tok ")"] ∧
       scoreFormulaFormat (scoreFormula l " = ") = "(6 + 4)".
Proof.
  intros Hitem. split; [reflexivity|].
  unfold scoreList. rewrite Hitem.
  eexists. split_and!; [by vm_compute | by vm_compute | by vm_compute].
Qed.

Lemma sum_of_weights_formula_witness :
  let data := {| explain := [("A1_P1", sum_of_weights)]; docs := [doc_P1] |} in
  let g := (decomposeSKU data no_globals).1 in
  ∃ l, scoreList g "A1_P1" new_card = (new_card, Ok l) ∧
       scoreFormulaFormat (scoreFormula l " = ") = "(6 + 4)".
Proof.
  intros data g.
  destruct (sum_of_weights_formula g "A1_P1" new_card) as (_ & l & H1 & _ & H2).
  - vm_compute. reflexivity.
  - exists l. split; [exact H1 | exact H2].
Defined.

(** ** Normalization of the formula *)

Lemma replace_shorter (pat rep s : string) :
  String.length rep ≤ String.length pat →
  String.length (replace pat rep s) ≤ String.length s.
Proof.
  intros Hle. destruct (includes pat s) eqn:Hs.
  - pose proof (replace_length pat rep s Hs). lia.
  - by rewrite replace_absent.
Qed.

Lemma normalize_fixed_point (s : string) :
  normalize s = s ↔ includes "( + " s = false ∧ includes " )" s = false.
Proof.
  unfold normalize. split.
  - intros Heq.
    destruct (includes "( + " s) eqn:H1.
    { pose proof (replace_length "( + " "(" s H1) as Hl1.
      pose proof (replace_shorter " )" ")" (replace "( + " "(" s) ltac:(simpl; lia)) as Hl2.
      rewrite Heq in Hl2. simpl in *. lia. }
    rewrite (replace_absent _ _ _ H1) in Heq. split; [done|].
    destruct (includes " )" s) eqn:H2; [|done].
    pose proof (replace_length " )" ")" s H2) as Hl2.
    rewrite Heq in Hl2. simpl in *. lia.
  - intros [H1 H2]. by rewrite (replace_absent _ _ _ H1), (replace_absent _ _ _ H2).
Qed.

(** The second normalization changes nothing exactly when the first left
    no occurrence of either pattern. *)
Lemma normalize_idempotent_iff (s : string) :
  normalize (normalize s) = normalize s ↔
  includes "( + " (normalize s) = false ∧ includes " )" (normalize s) = false.
Proof. apply normalize_fixed_point. Qed.

(** C6.  On the formula of [nested_sums], a sum whose first term is a
    sum, the two replacements leave a second [ )] in place, and applying
    them again removes it: normalizing twice differs from normalizing
    once. *)
Theorem normalize_twice_nested_sums :
  ∃ l, scoreList (details_of "A1_P1" nested_sums) "A1_P1" new_card = (new_card, Ok l) ∧
       let formula := join " " (flat_map flat (scoreFormula l " = ")) in
       formula = "( ( + 2 + 4 ) + 4 )" ∧
       normalize formula = "( (2 + 4) + 4 )" ∧
       normalize (normalize formula) = "( (2 + 4) + 4)" ∧
       normalize (normalize formula) ≠ normalize formula.
Proof.
  eexists. split; [by vm_compute|]. by vm_compute.
Qed.

(** * The rest of the program: theorems *)

(** ** split and join *)

Lemma split_not_nil (sep : ascii) (s : string) : split sep s ≠ [].
Proof.
  induction s as [|c s IH]; simpl; [done|].
  destruct (Ascii.eqb c sep); [done|]. by destruct (split sep s).
Qed.

Lemma join_cons (sep w : string) (ws : list string) :
  ws ≠ [] → join sep (w :: ws) = w +:+ sep +:+ join sep ws.
Proof. by destruct ws. Qed.

(** Joining with the separator undoes the split. *)
Lemma join_split (sep : ascii) (s : string) :
  join (String sep EmptyString) (split sep s) = s.
Proof.
  induction s as [|c s IH]; [done|]. simpl split.
  pose proof (split_not_nil sep s) as Hne.
  destruct (Ascii.eqb_spec c sep) as [->|_].
  - by rewrite join_cons, IH.
  - destruct (split sep s) as [|w ws]; [done|].
    destruct ws as [|w' ws]; simpl in *; by rewrite <- IH.
Qed.

(** Splitting at a character and joining with a string replaces every
    occurrence of the character. *)
Lemma join_split_replace (c : ascii) (rep s : string) :
  join rep (split c s) = replace_char c rep s.
Proof.
  induction s as [|x s IH]; [done|]. simpl split. simpl replace_char.
  pose proof (split_not_nil c s) as Hne.
  destruct (Ascii.eqb x c).
  - by rewrite join_cons, IH.
  - destruct (split c s) as [|w ws]; [done|].
    destruct ws as [|w' ws]; simpl in *; by rewrite <- IH.
Qed.

Lemma split_length (sep : ascii) (s : string) :
  length (split sep s) = S (count_char sep s).
Proof.
  induction s as [|c s IH]; [done|]. simpl.
  destruct (Ascii.eqb c sep); simpl; [by rewrite IH|].
  pose proof (split_not_nil sep s). destruct (split sep s); simpl in *; [done | lia].
Qed.

Lemma without_count (c : ascii) (s : string) :
  without c s = true ↔ count_char c s = 0.
Proof.
  induction s as [|x s IH]; simpl; [done|].
  destruct (Ascii.eqb x c); simpl; [split; [done | lia] | done].
Qed.

Lemma without_replace_char (c : ascii) (rep s : string) :
  without c rep = true → without c (replace_char c rep s) = true.
Proof.
  intros Hrep. induction s as [|x s IH]; simpl; [done|].
  rewrite without_append, IH, andb_true_r.
  destruct (Ascii.eqb x c) eqn:E; [done|]. simpl. by rewrite E.
Qed.

Lemma replace_char_without (c : ascii) (rep s : string) :
  without c s = true → replace_char c rep s = s.
Proof.
  induction s as [|x s IH]; simpl; [done|].
  intros [Hx Hs]%andb_true_iff. apply negb_true_iff in Hx. by rewrite Hx, IH.
Qed.

(** ** Keys, ids and addresses *)

(** X1.  The key that [addCard] rebuilds from the ids that [decomposeSKU] took
    from the key of a scored item is that key exactly when the key has one
    underscore. *)
Theorem item_key_round_trip (item : string) :
  addCard_productId (item_ids item).1 (item_ids item).2 = item ↔
  count_char "_" item = 1.
Proof.
  unfold addCard_productId, item_ids.
  pose proof (join_split "_" item) as Hjoin.
  pose proof (split_length "_" item) as Hlen.
  destruct (split "_" item) as [|a [|b [|c rest]]]; simpl in *.
  - done.
  - split; [|lia]. intros H. apply (f_equal String.length) in H.
    rewrite <- Hjoin, append_length in H. simpl in H. lia.
  - split; [lia | done].
  - split; [|lia]. intros H. apply (f_equal String.length) in H.
    rewrite <- Hjoin, !append_length in H. simpl in H.
    destruct rest; simpl in H; rewrite ?append_length in H; simpl in H; lia.
Qed.

(** X2.  The checkbox that [sidebarOption] makes for a class is in the
    checklist, and [filterCards] reads the class back from its id. *)
Theorem filterCards_reads_class (boost : string) (checks : list string) :
  "check-" +:+ boost ∈ sidebarOption boost checks ∧
  filter_boost ("check-" +:+ boost) = boost.
Proof.
  split.
  - unfold sidebarOption. case_bool_decide; [done|].
    apply elem_of_app. right. by left.
  - unfold filter_boost.
    change ("check-" +:+ boost) with ("check" +:+ String "-" boost).
    rewrite split_append by done. simpl skipn. apply join_split.
Qed.

(** X3.  The address of the query holds the text of the search with every
    space written [%20] and every other character as it is; it holds no
    space. *)
Theorem queryURL_spaces (search : string) :
  queryURL search =
    "/api/apps/LLM_us/query/LLM_us?q=" +:+ replace_char " " "%20" search +:+
    "&debug=results&debug.explain.structured=true" ∧
  without " " (queryURL search) = true.
Proof.
  assert (H : queryURL search =
    "/api/apps/LLM_us/query/LLM_us?q=" +:+ replace_char " " "%20" search +:+
    "&debug=results&debug.explain.structured=true").
  { unfold queryURL. by rewrite join_split_replace. }
  split; [done|]. rewrite H.
  by rewrite !without_append, without_replace_char.
Qed.

(** ** split at a separator of several characters *)

Lemma split_skip_pass (sep u b : string) :
  split_skip sep (String.length u) (u +:+ b) = split_skip sep 0 b.
Proof. induction u as [|c u IH]; [done | exact IH]. Qed.

Lemma prefix_short (p x y : string) :
  String.length p ≤ String.length x →
  String.prefix p (x +:+ y) = String.prefix p x.
Proof.
  revert x. induction p as [|c p IH]; intros x Hlen; [by destruct x, y|].
  destruct x as [|d x]; simpl in *; [lia|].
  destruct (ascii_dec c d); [apply IH; lia | done].
Qed.

Lemma prefix_refl_append (p b : string) : String.prefix p (p +:+ b) = true.
Proof. apply prefix_append. by exists b. Qed.

Lemma split_skip_separator (sep b : string) :
  sep ≠ EmptyString →
  split_skip sep 0 (sep +:+ b) = EmptyString :: split_skip sep 0 b.
Proof.
  destruct sep as [|x sep'] eqn:Hsep; [done|]. intros _.
  change (String x sep' +:+ b) with (String x (sep' +:+ b)). cbn [split_skip].
  change (String x (sep' +:+ b)) with (String x sep' +:+ b).
  rewrite prefix_refl_append. f_equal.
  replace (String.length (String x sep') - 1) with (String.length sep')
    by (simpl; lia).
  apply split_skip_pass.
Qed.

(** The first piece ends at the first separator. *)
Lemma split_string_first (init : string) (last : ascii) (a b : string) :
  let sep := init +:+ String last EmptyString in
  includes sep (a +:+ init) = false →
  split_string sep (a +:+ sep +:+ b) = a :: split_string sep b.
Proof.
  intros sep. unfold split_string. induction a as [|c a IH]; intros Hno.
  - change (EmptyString +:+ sep +:+ b) with (sep +:+ b).
    apply split_skip_separator. subst sep. by destruct init.
  - cbn [includes] in Hno. apply orb_false_iff in Hno as [Hp Hno].
    change (String c a +:+ sep +:+ b) with (String c (a +:+ sep +:+ b)). cbn [split_skip].
    change (String c (a +:+ sep +:+ b)) with (String c a +:+ sep +:+ b).
    assert (Hpre : String.prefix sep (String c a +:+ sep +:+ b) = false).
    { subst sep. rewrite (append_assoc init), <- (append_assoc (String c a)).
      rewrite prefix_short; [done|]. rewrite !append_length. simpl. lia. }
    rewrite Hpre, IH by done. done.
Qed.

Lemma split_string_absent (sep s : string) :
  includes sep s = false → split_string sep s = [s].
Proof.
  unfold split_string. induction s as [|c s IH]; cbn [includes split_skip].
  - done.
  - intros [Hp Hs]%orb_false_iff. by rewrite Hp, IH.
Qed.

(** X4.  The label of the checkbox of a boost shows the name, its hyphens as
    spaces, and the value, when the name and the value hold no [-boost-] of
    their own. *)
Theorem sidebarOption_label_shows (name : string) (v : jsval) :
  includes "-boost-" (name +:+ "-boost") = false →
  includes "-boost-" (ToString v) = false →
  sidebarOption_label (boostClass_of (Some name) v) =
  replace_char "-" " " name +:+ ": " +:+ ToString v.
Proof.
  intros Hname Hv. unfold sidebarOption_label, boostClass_of.
  cbn [from_option ToString]. cbv zeta.
  pose proof (split_string_first "-boost" "-" name (ToString v) Hname) as Hsplit.
  change ("-boost" +:+ "-") with "-boost-" in Hsplit.
  rewrite Hsplit, (split_string_absent _ _ Hv). cbn [nth nth_error from_option ToString].
  by rewrite join_split_replace.
Qed.

Lemma sidebarOption_label_shows_witness :
  sidebarOption_label "red-shoes-boost-1.5" = "red shoes: 1.5".
Proof.
  exact (sidebarOption_label_shows "red-shoes" (Num (Fin 15 (-1))) eq_refl eq_refl).
Defined.

(** ** The three names of a boost *)

Lemma split_head_append (c : ascii) (a b : string) :
  without c a = true →
  nth 0 (split c (a +:+ b)) EmptyString = a +:+ nth 0 (split c b) EmptyString.
Proof.
  induction a as [|x a IH]; [done|]. simpl.
  intros [Hx Ha]%andb_true_iff. apply negb_true_iff in Hx. rewrite Hx.
  specialize (IH Ha). pose proof (split_not_nil c (a +:+ b)).
  destruct (split c (a +:+ b)); [done|]. simpl in *. by rewrite IH.
Qed.

Lemma append_empty (a : string) : a +:+ EmptyString = a.
Proof. induction a as [|x a IH]; simpl; [done | by rewrite IH]. Qed.

Lemma split_head_stop (c : ascii) (a b : string) :
  without c a = true → b = EmptyString ∨ (∃ b', b = String c b') →
  nth 0 (split c (a +:+ b)) EmptyString = a.
Proof.
  intros Ha Hb. rewrite split_head_append by done.
  destruct Hb as [->|[b' ->]]; cbn [split].
  - apply append_empty.
  - rewrite Ascii.eqb_refl. apply append_empty.
Qed.

Lemma replace_char_inverse (c d : ascii) (s : string) :
  without d s = true →
  replace_char d (String c EmptyString) (replace_char c (String d EmptyString) s) = s.
Proof.
  induction s as [|x s IH]; [done|]. simpl.
  intros [Hx Hs]%andb_true_iff. apply negb_true_iff in Hx.
  destruct (Ascii.eqb_spec x c) as [->|Hne]; simpl.
  - by rewrite Ascii.eqb_refl, IH.
  - by rewrite Hx, IH.
Qed.

(** The name after a term that is not quoted and is not [true]. *)
Lemma boostName_term (pre term rest : string) :
  without " " pre = true → without ":" pre = true →
  without " " term = true → without ":" term = true →
  (∀ t, term ≠ String quote t) → term ≠ "true" →
  rest = EmptyString ∨ (∃ rest', rest = String " " rest') →
  boostName_of (pre +:+ String ":" (term +:+ rest)) = Some term.
Proof.
  intros Hps Hpc Hts Htc Hq Htrue Hrest. unfold boostName_of.
  assert (Htoken : nth 0 (split " " (pre +:+ String ":" (term +:+ rest))) EmptyString
                   = pre +:+ String ":" term).
  { replace (pre +:+ String ":" (term +:+ rest)) with ((pre +:+ String ":" term) +:+ rest)
      by (by rewrite append_assoc).
    apply split_head_stop; [|done]. rewrite without_append, Hps. simpl. done. }
  rewrite Htoken, split_append by done. cbn [nth_error].
  rewrite (split_without ":" term Htc).
  destruct term as [|c term]; [done|].
  destruct (Ascii.eqb_spec c quote) as [->|_]; [by destruct (Hq term)|].
  apply String.eqb_neq in Htrue. by rewrite Htrue.
Qed.

(** The name after a quoted phrase. *)
Lemma boostName_phrase (pre phrase rest : string) :
  without " " pre = true → without ":" pre = true → without quote pre = true →
  without quote phrase = true →
  boostName_of (pre +:+ String ":" (String quote (phrase +:+ String quote rest)))
  = Some (replace_char " " "-" phrase).
Proof.
  intros Hps Hpc Hpq Hph. unfold boostName_of.
  set (name := pre +:+ String ":" (String quote (phrase +:+ String quote rest))).
  assert (Htoken : ∃ x, nth 0 (split " " name) EmptyString
                        = pre +:+ String ":" (String quote x)).
  { subst name. rewrite split_head_append by done.
    exists (nth 0 (split " " (phrase +:+ String quote rest)) EmptyString).
    f_equal. cbn [split].
    replace (Ascii.eqb ":" " ") with false by reflexivity.
    replace (Ascii.eqb quote " ") with false by reflexivity.
    pose proof (split_not_nil " " (phrase +:+ String quote rest)).
    destruct (split " " _); [done|]. done. }
  destruct Htoken as [x ->]. rewrite split_append by done. cbn [nth_error].
  pose proof (split_not_nil ":" (String quote x)) as Hne.
  assert (Hhead : ∃ y ys, split ":" (String quote x) = String quote y :: ys).
  { cbn [split]. replace (Ascii.eqb quote ":") with false by reflexivity.
    pose proof (split_not_nil ":" x). destruct (split ":" x); [done|]. eauto. }
  destruct Hhead as (y & ys & ->). rewrite Ascii.eqb_refl.
  subst name.
  replace (pre +:+ String ":" (String quote (phrase +:+ String quote rest)))
    with ((pre +:+ ":") +:+ String quote (phrase +:+ String quote rest))
    by (by rewrite append_assoc).
  rewrite split_append by (by rewrite without_append, Hpq).
  rewrite split_append by done. cbn [nth_error].
  by rewrite join_split_replace.
Qed.

(** X5.  A boost under a weight on a plain term is named after the term. *)
Theorem boost_named_after_term (l : list detailsElement) (drop : detailsElement)
    (place : option path) (context : detailsElement) (pre term rest : string) :
  closest_scoreweight l drop place = Some context →
  detail_desc context = pre +:+ String ":" (term +:+ rest) →
  without " " pre = true → without ":" pre = true →
  without " " term = true → without ":" term = true →
  (∀ t, term ≠ String quote t) → term ≠ "true" →
  rest = EmptyString ∨ (∃ rest', rest = String " " rest') →
  getBoostName l drop place = Some term.
Proof.
  intros Hctx Hdesc. intros. unfold getBoostName. rewrite Hctx, Hdesc.
  by apply boostName_term.
Qed.

Lemma boost_named_after_term_witness :
  getBoostName
    [Details ["indent-1"; "scoreweight"] "weight(field_color:red in 5)" "2"
       [Details ["indent-2"] "boost" "true" []]]
    (Details ["indent-2"] "boost" "true" []) (Some [0; 0]) = Some "red".
Proof.
  apply (boost_named_after_term _ _ _
           (Details ["indent-1"; "scoreweight"] "weight(field_color:red in 5)" "2"
              [Details ["indent-2"] "boost" "true" []])
           "weight(field_color" "red" " in 5)").
  - reflexivity.
  - reflexivity.
  - reflexivity.
  - reflexivity.
  - reflexivity.
  - reflexivity.
  - intros t. discriminate.
  - discriminate.
  - right. eexists. reflexivity.
Defined.

(** X6.  A boost under a weight on a quoted phrase: the description of
    the nearest weight is a prefix without space, colon or quote, a colon,
    and a phrase without quote between two quotes, whatever follows.  The
    boost is named after the phrase, its spaces written as hyphens;
    writing the hyphens as spaces, as the label of the checkbox does,
    gives the phrase back when it has no hyphen of its own. *)
Theorem boost_named_after_phrase (l : list detailsElement) (drop : detailsElement)
    (place : option path) (context : detailsElement) (pre phrase rest : string) :
  closest_scoreweight l drop place = Some context →
  detail_desc context =
    pre +:+ String ":" (String quote (phrase +:+ String quote rest)) →
  without " " pre = true → without ":" pre = true → without quote pre = true →
  without quote phrase = true →
  getBoostName l drop place = Some (replace_char " " "-" phrase) ∧
  (without "-" phrase = true →
   replace_char "-" " " (replace_char " " "-" phrase) = phrase).
Proof.
  intros Hctx Hdesc. intros. split.
  - unfold getBoostName. rewrite Hctx, Hdesc. by apply boostName_phrase.
  - apply replace_char_inverse.
Qed.

Lemma boost_named_after_phrase_witness :
  getBoostName
    [Details ["indent-1"; "scoreweight"]
       ("weight(name:" +:+ String quote ("red shoes" +:+ String quote " in 5)")) "2"
       [Details ["indent-2"] "boost" "3" []]]
    (Details ["indent-2"] "boost" "3" []) (Some [0; 0]) = Some "red-shoes".
Proof.
  apply (boost_named_after_phrase _ _ _
           (Details ["indent-1"; "scoreweight"]
              ("weight(name:" +:+ String quote ("red shoes" +:+ String quote " in 5)")) "2"
              [Details ["indent-2"] "boost" "3" []])
           "weight(name" "red shoes" " in 5)").
  - reflexivity.
  - reflexivity.
  - reflexivity.
  - reflexivity.
  - reflexivity.
  - reflexivity.
Defined.

Lemma has_whitespace_append (a b : string) :
  has_whitespace (a +:+ b) = has_whitespace a || has_whitespace b.
Proof. induction a as [|x a IH]; simpl; [done | by rewrite IH, orb_assoc]. Qed.

(** X7.  A boost with no weight above it is registered under the name
    [undefined]. *)
Theorem boost_without_weight (pg : page) (depth : nat) (v : jsval)
    (l : list detailsElement) (drop : detailsElement) (place : option path) :
  closest_scoreweight l drop place = None →
  has_whitespace (ToString v) = false →
  let boostClass := "undefined-boost-" +:+ ToString v in
  addBoostClass pg (mkRecord depth (Str "boost") v) l drop place =
  Ok ({| card := with_token boostClass (card pg);
         deck := with_token boostClass (deck pg);
         checklist := sidebarOption boostClass (checklist pg) |},
      with_role boost l drop place).
Proof.
  intros Hctx Hv boostClass.
  rewrite (addBoostClass_role pg depth "boost" v l drop place boost eq_refl).
  unfold getBoostName. rewrite Hctx. unfold boostClass_of. cbn [from_option ToString].
  change ("undefined" +:+ "-boost-" +:+ ToString v) with boostClass. cbv zeta.
  assert (has_whitespace boostClass = false) as ->; [|done].
  subst boostClass. by rewrite has_whitespace_append, Hv.
Qed.

Lemma boost_without_weight_witness :
  addBoostClass new_card (mkRecord 1 (Str "boost") (Num (Fin 25 (-1))))
    [Details ["indent-1"] "boost" "2.5" []] (Details ["indent-1"] "boost" "2.5" [])
    (Some [0]) =
  Ok ({| card := ["product-card"; "undefined-boost-2.5"];
         deck := ["P1"; "product-container"; "undefined-boost-2.5"];
         checklist := ["check-undefined-boost-2.5"] |},
      [Details ["indent-1"; "scoreboost"] "boost" "2.5" []]).
Proof.
  exact (boost_without_weight new_card 1 (Num (Fin 25 (-1)))
           [Details ["indent-1"] "boost" "2.5" []] (Details ["indent-1"] "boost" "2.5" [])
           (Some [0]) eq_refl eq_refl).
Defined.

(** ** setData: the first match *)

Lemma setData_sku_find (styles : list style) (skuId : jsval) (array : list jsval) :
  setData_sku styles skuId array =
  match first_style styles skuId with
  | None => Ok array
  | Some s => img ← first_image (style_skuImages s); Ok (array ++ [img])
  end.
Proof.
  unfold first_style. induction styles as [|s styles IH]; simpl; [done|].
  destruct (strict_eq (sku_id s) skuId); [done | exact IH].
Qed.

Lemma setData_docs_find (l : list doc) (productId skuId : jsval) :
  setData_docs l productId skuId =
  match find (fun d => strict_eq (product_id d) productId) l with
  | None => Ok None
  | Some d => setData_docs [d] productId skuId
  end.
Proof.
  induction l as [|d l IH]; simpl; [done|].
  destruct (strict_eq (product_id d) productId) eqn:E; [|exact IH].
  simpl. by rewrite E.
Qed.

(** The result of [setData] in terms of the two searches. *)
Lemma setData_search (data : response) (productId skuId : jsval) :
  setData data productId skuId =
  match first_doc data productId with
  | None => Ok None
  | Some d =>
      match sku_skuImages d, style_order_list d with
      | Some images, Some styles =>
          let array := [product_displayName d; sku_size d; nth 0 images Undefined] in
          match first_style styles skuId with
          | None => Ok (Some array)
          | Some s =>
              match style_skuImages s with
              | Some images' => Ok (Some (array ++ [nth 0 images' Undefined]))
              | None => Throw TypeError
              end
          end
      | _, _ => Throw TypeError
      end
  end.
Proof.
  unfold setData, first_doc. rewrite setData_docs_find.
  destruct (find _ (docs data)) as [d|] eqn:Hfind; [|done].
  apply find_some in Hfind as [_ Hd]. simpl. rewrite Hd.
  destruct (sku_skuImages d) as [images|]; simpl; [|done].
  destruct (style_order_list d) as [styles|]; [|done].
  rewrite setData_sku_find.
  destruct (first_style styles skuId) as [s|]; simpl; [|done].
  by destruct (style_skuImages s).
Qed.

(** X8.  [setData] reads the first document with the product id and no other,
    and in it the first style with the sku id; the array has the name, the
    size and the first image of the document, and the first image of the
    style when there is one.  A document without its list of images or of
    styles, and a style without its list of images, raise; an empty list of
    images gives [undefined]. *)
Theorem setData_first_match (data : response) (productId skuId : jsval) :
  setData data productId skuId =
  match first_doc data productId with
  | None => Ok None
  | Some d =>
      match sku_skuImages d, style_order_list d with
      | Some images, Some styles =>
          let array := [product_displayName d; sku_size d; nth 0 images Undefined] in
          match first_style styles skuId with
          | None => Ok (Some array)
          | Some s =>
              match style_skuImages s with
              | Some images' => Ok (Some (array ++ [nth 0 images' Undefined]))
              | None => Throw TypeError
              end
          end
      | _, _ => Throw TypeError
      end
  end.
Proof. apply setData_search. Qed.

(** ** decomposeSKU: what the stores hold *)

(** The loop as a property of the part of the list already read. *)
Lemma forEach_prefixes {St X : Type} (body : X → St → St * result ())
    (I : list X → St → Prop) (l : list X) (s : St) :
  I [] s →
  (∀ done x rest s, l = done ++ x :: rest → I done s → (body x s).2 = Ok () →
     I (done ++ [x]) (body x s).1) →
  (forEach body l s).2 = Ok () →
  I l (forEach body l s).1.
Proof.
  intros H0 Hstep.
  assert (Hgen : ∀ rest done s, l = done ++ rest → I done s →
            (forEach body rest s).2 = Ok () →
            I (done ++ rest) (forEach body rest s).1).
  { induction rest as [|x rest IH]; intros done s0 Hl HI; simpl.
    - by rewrite app_nil_r.
    - specialize (Hstep done x rest s0 Hl HI).
      destruct (body x s0) as [s' [[]|e|]]; simpl in *; [|done|done].
      intros Hok. replace (done ++ x :: rest) with ((done ++ [x]) ++ rest)
        by (by rewrite <- app_assoc).
      apply IH; [by rewrite <- app_assoc | by apply Hstep | done]. }
  apply (Hgen l []); done.
Qed.

(** The step of a matched item. *)
Lemma decomposeItem_matched (data : response) (item : string)
    (node : ExplanationNode) (g : globals) (array : list jsval) :
  setData data (item_ids item).2 (Str (item_ids item).1) = Ok (Some array) →
  let key := ToString (item_ids item).2 in
  let new := {| productId := (item_ids item).2;
                displayName := nth 0 array Undefined;
                size_ := nth 1 array Undefined;
                prodImg := nth 2 array Undefined;
                skus := ∅ |} in
  let sku := {| skuScore := value node; skuImg := nth 3 array Undefined |} in
  decomposeItem data (item, node) g =
  ({| allProducts :=
        <[key := set_sku (item_ids item).1 sku (default new (allProducts g !! key))]>
          (allProducts g);
      allDetails := <[item := itemDetails node]> (allDetails g) |}, Ok ()).
Proof.
  intros Harray key new sku. unfold decomposeItem.
  destruct (item_ids item) as [skuId prodId]; simpl in *. rewrite Harray.
  fold key. f_equal. unfold set_allDetails, set_allProducts; simpl.
  destruct (allProducts g !! key) as [p|] eqn:Hp; simpl; f_equal.
  - apply map_eq. intros k. rewrite lookup_alter, lookup_insert.
    case_decide; [subst k; by rewrite Hp | done].
  - apply map_eq. intros k. rewrite lookup_alter, !lookup_insert.
    case_decide; [|done]. by rewrite decide_True.
Qed.

Lemma decomposeItem_cases (data : response) (item : string)
    (node : ExplanationNode) (g : globals) :
  (decomposeItem data (item, node) g).2 = Ok () →
  decomposeItem data (item, node) g = (g, Ok ()) ∧ ¬ matched data (item_productId item) ∨
  ∃ array, setData data (item_ids item).2 (Str (item_ids item).1) = Ok (Some array).
Proof.
  unfold decomposeItem, item_productId.
  destruct (item_ids item) as [skuId prodId] eqn:Hids; simpl.
  destruct (setData data prodId (Str skuId)) as [[array|]|e|] eqn:Hset; simpl; try done.
  - intros _. right. by exists array.
  - intros _. left. split; [done|]. intros Hm.
    by apply (setData_docs_found _ _ (Str skuId)) in Hm.
Qed.

(** X9.  After a pass that ended normally, every scored item whose product id
    a document has is in the store of score records under its own key,
    with the records of its own tree. *)
Theorem decomposeSKU_stores_records (data : response) (g : globals) :
  NoDup (explain data).*1 →
  (decomposeSKU data g).2 = Ok () →
  ∀ item node, (item, node) ∈ explain data → matched data (item_productId item) →
    allDetails (decomposeSKU data g).1 !! item = Some (itemDetails node).
Proof.
  intros Hnodup. unfold decomposeSKU.
  apply (forEach_prefixes (decomposeItem data)
    (fun done g' =>
       ∀ item node, (item, node) ∈ done → matched data (item_productId item) →
         allDetails g' !! item = Some (itemDetails node))).
  - intros ? ? H. by apply elem_of_nil in H.
  - intros done [item node] rest g1 Hl H Hok i n Hi Hm.
    apply elem_of_app in Hi as [Hi|Hi].
    + assert (Hne : i ≠ item).
      { intros ->. rewrite Hl, fmap_app, fmap_cons in Hnodup.
        apply NoDup_app in Hnodup as (_ & Hdisj & _).
        apply (Hdisj item); [|by left].
        apply list_elem_of_fmap. by exists (item, n). }
      destruct (decomposeItem_cases data item node g1 Hok) as [[-> _]|[array Harray]].
      * by apply (H i n).
      * rewrite (decomposeItem_matched data item node g1 array Harray). simpl.
        rewrite lookup_insert_ne by done. by apply (H i n).
    + apply list_elem_of_singleton in Hi. injection Hi as -> ->.
      destruct (decomposeItem_cases data item node g1 Hok) as [[_ Hno]|[array Harray]];
        [done|].
      rewrite (decomposeItem_matched data item node g1 array Harray). simpl.
      apply lookup_insert_eq.
Qed.

Lemma decomposeSKU_stores_records_witness :
  let data := {| explain := [("A1_P1", sum_of_weights); ("A9_P9", nested_sums)];
                 docs := [doc_P1] |} in
  allDetails (decomposeSKU data no_globals).1 !! "A1_P1" = Some (itemDetails sum_of_weights).
Proof.
  intros data.
  apply (decomposeSKU_stores_records data no_globals).
  - simpl. apply NoDup_cons. split.
    + intros H. apply list_elem_of_singleton in H. discriminate.
    + apply NoDup_singleton.
  - reflexivity.
  - left.
  - exists doc_P1. split; [left; reflexivity | reflexivity].
Defined.

Lemma setData_array (data : response) (productId skuId : jsval) (array : list jsval) :
  setData data productId skuId = Ok (Some array) →
  ∃ d images, first_doc data productId = Some d ∧ sku_skuImages d = Some images ∧
    nth 0 array Undefined = product_displayName d ∧
    nth 1 array Undefined = sku_size d ∧
    nth 2 array Undefined = nth 0 images Undefined.
Proof.
  rewrite setData_search.
  destruct (first_doc data productId) as [d|] eqn:Hd; [|done].
  destruct (sku_skuImages d) as [images|] eqn:Himages; [|done].
  destruct (style_order_list d) as [styles|]; [|done].
  cbv zeta. intros H.
  assert (Harray : ∃ more,
    array = [product_displayName d; sku_size d; nth 0 images Undefined] ++ more).
  { destruct (first_style styles skuId) as [s|];
      [destruct (style_skuImages s); [|discriminate H]|]; injection H as <-.
    - by eexists [_].
    - by exists []. }
  destruct Harray as [more ->]. exists d, images. by split_and!.
Qed.

Lemma decomposeItem_state (data : response) (item : string)
    (node : ExplanationNode) (g : globals) :
  (decomposeItem data (item, node) g).1 = g ∨
  ∃ array, setData data (item_ids item).2 (Str (item_ids item).1) = Ok (Some array).
Proof.
  unfold decomposeItem.
  destruct (item_ids item) as [skuId prodId] eqn:Hids; simpl.
  destruct (setData data prodId (Str skuId)) as [[array|]|e|] eqn:Hset; simpl;
    try (by left).
  right. by exists array.
Qed.

Lemma decomposeItem_product_of (data : response) (item : string)
    (node : ExplanationNode) (g : globals) :
  (item, node) ∈ explain data →
  (∀ key p, allProducts g !! key = Some p → product_of data key p) →
  ∀ key p, allProducts (decomposeItem data (item, node) g).1 !! key = Some p →
    product_of data key p.
Proof.
  intros Hin Hg key p.
  destruct (decomposeItem_state data item node g) as [->|[array Harray]]; [apply Hg|].
  rewrite (decomposeItem_matched data item node g array Harray). simpl.
  destruct (setData_array _ _ _ _ Harray) as (d & images & Hd & Himages & H0 & H1 & H2).
  rewrite lookup_insert. case_decide as Hkey; [|apply Hg].
  intros [= <-]. subst key.
  destruct (allProducts g !! ToString (item_ids item).2) as [p0|] eqn:Hp0; simpl.
  - destruct (Hg _ _ Hp0) as (Hk & Hdoc & Hne & Hskus). split_and!; simpl.
    + done.
    + done.
    + apply insert_non_empty.
    + intros skuId s. rewrite lookup_insert. case_decide as Hsku.
      * intros [= <-]. by exists item, node.
      * apply Hskus.
  - split_and!; simpl.
    + done.
    + exists d, images. by rewrite H0, H1, H2.
    + apply insert_non_empty.
    + intros skuId s. rewrite lookup_insert. case_decide as Hsku; [|by rewrite lookup_empty].
      intros [= <-]. by exists item, node.
Qed.

(** X10.  Every Product entry is stored under its product id, holds the name,
    the size and the first image of the first document with that id, and
    at least one SKU; each of its SKUs is under the sku id of a scored
    item of the product and holds the value of the root of its tree. *)
Theorem decomposeSKU_product_entries (data : response) (g : globals)
    (key : string) (p : Product) :
  allProducts (decomposeSKU data g).1 !! key = Some p →
  key = ToString (productId p) ∧
  (∃ d images, first_doc data (productId p) = Some d ∧
     sku_skuImages d = Some images ∧
     displayName p = product_displayName d ∧ size_ p = sku_size d ∧
     prodImg p = nth 0 images Undefined) ∧
  skus p ≠ ∅ ∧
  (∀ skuId s, skus p !! skuId = Some s →
     ∃ item node, (item, node) ∈ explain data ∧
       (item_ids item).1 = skuId ∧ ToString (item_ids item).2 = key ∧
       skuScore s = value node).
Proof.
  revert key p. unfold decomposeSKU.
  apply (forEach_invariant (decomposeItem data)
    (fun g' => ∀ key p, allProducts g' !! key = Some p → product_of data key p)).
  - intros key p. simpl. by rewrite lookup_empty.
  - intros [item node] g1 Hin Hg1. by apply decomposeItem_product_of.
Qed.

Lemma decomposeSKU_product_entries_witness :
  let data := {| explain := [("A1_P1", sum_of_weights); ("A2_P1", nested_sums)];
                 docs := [doc_P1] |} in
  ∃ p, allProducts (decomposeSKU data no_globals).1 !! "P1" = Some p ∧ skus p ≠ ∅.
Proof.
  intros data.
  destruct (allProducts (decomposeSKU data no_globals).1 !! "P1") as [p|] eqn:Hp.
  - exists p. split; [reflexivity|].
    exact (proj1 (proj2 (proj2 (decomposeSKU_product_entries data no_globals "P1" p Hp)))).
  - vm_compute in Hp. discriminate Hp.
Defined.

(** X11.  A scored item whose document lacks its list of images or of styles
    halts the pass: the stores keep what the items before it gave, and no
    item after it is read. *)
Theorem decomposeSKU_halts (data : response)
    (before after : list (string * ExplanationNode))
    (item : string) (node : ExplanationNode) (g : globals) (d : doc) :
  explain data = before ++ (item, node) :: after →
  first_doc data (item_productId item) = Some d →
  sku_skuImages d = None ∨ style_order_list d = None →
  let pass := decomposeSKU {| explain := before; docs := docs data |} g in
  pass.2 = Ok () →
  decomposeSKU data g = (pass.1, Throw TypeError) ∧
  (∀ item', item' ∉ before.*1 → allDetails (decomposeSKU data g).1 !! item' = None).
Proof.
  intros Hexplain Hd Hlacks pass Hpass.
  assert (Hset : setData data (item_ids item).2 (Str (item_ids item).1) = Throw TypeError).
  { rewrite setData_search. unfold item_productId in Hd. rewrite Hd.
    destruct Hlacks as [->| ->]; [done | by destruct (sku_skuImages d)]. }
  assert (Heq : decomposeSKU data g = (pass.1, Throw TypeError)).
  { subst pass. unfold decomposeSKU in *. simpl in *. rewrite Hexplain, forEach_app.
    rewrite (decomposeItem_docs {| explain := before; docs := docs data |} data) in * by done.
    destruct (forEach _ before _) as [g1 [[]|e|]]; simpl in *; [|done|done].
    unfold decomposeItem.
    destruct (item_ids item) as [skuId prodId]; simpl in *. by rewrite Hset. }
  split; [done|]. intros item' Hfresh. rewrite Heq. simpl.
  apply not_elem_of_dom. intros Hin.
  by apply (proj2 (decomposeSKU_keys _ g)) in Hin.
Qed.

Lemma decomposeSKU_halts_witness :
  let bare := {| product_id := Str "P2"; product_displayName := Str "Define Jacket";
                 sku_size := Str "4"; sku_skuImages := None; style_order_list := None |} in
  let data := {| explain := [("A1_P1", sum_of_weights); ("B1_P2", sum_of_weights);
                             ("A2_P1", nested_sums)];
                 docs := [doc_P1; bare] |} in
  (decomposeSKU data no_globals).2 = Throw TypeError ∧
  allDetails (decomposeSKU data no_globals).1 !! "A2_P1" = None.
Proof.
  intros bare data.
  destruct (decomposeSKU_halts data [("A1_P1", sum_of_weights)] [("A2_P1", nested_sums)]
              "B1_P2" sum_of_weights no_globals bare eq_refl eq_refl (or_introl eq_refl)
              eq_refl) as [H1 H2].
  split.
  - by rewrite H1.
  - apply H2. simpl. intros H. apply list_elem_of_singleton in H. discriminate.
Defined.

(** ** Printing and parsing whole numbers *)

Lemma of_uint_acc_value (d : Decimal.uint) (acc : positive) :
  Z.pos (Pos.of_uint_acc d acc) = numeral_value (Z.pos acc) d.
Proof.
  revert acc. induction d; intros acc; simpl; [done|..]; rewrite IHd; f_equal; lia.
Qed.

Lemma of_uint_value (d : Decimal.uint) :
  Z.of_N (Pos.of_uint d) = numeral_value 0 d.
Proof.
  induction d; simpl; [done | exact IHd |..]; by rewrite of_uint_acc_value.
Qed.

Lemma read_digits_numeral (d : Decimal.uint) (rest : string) (acc : Z) (len : nat) :
  read_digits 10 (NilEmpty.string_of_uint d +:+ rest) acc len =
  read_digits 10 rest (numeral_value acc d) (len + Decimal.nb_digits d).
Proof.
  revert acc len. induction d; intros acc len; simpl NilEmpty.string_of_uint.
  { simpl. by rewrite Nat.add_0_r. }
  all: change (String ?c ?s +:+ rest) with (String c (s +:+ rest));
    cbn [read_digits];
    match goal with
    | |- context [digit_value 10 ?c] =>
        let v := eval vm_compute in (digit_value 10 c) in
        change (digit_value 10 c) with v
    end;
    cbv iota beta; rewrite IHd; cbn [numeral_value Decimal.nb_digits];
    f_equal; lia.
Qed.

Lemma read_digits_stops (rest : string) (acc : Z) (len : nat) :
  stops rest → read_digits 10 rest acc len = (acc, len, rest).
Proof. by intros [->|[rest' ->]]. Qed.

Lemma string_of_uint_length (d : Decimal.uint) :
  String.length (NilEmpty.string_of_uint d) = Decimal.nb_digits d.
Proof. induction d; simpl; [done|..]; by rewrite IHd. Qed.

Lemma string_of_uint_without (c : ascii) (d : Decimal.uint) :
  digit_value 10 c = None → without c (NilEmpty.string_of_uint d) = true.
Proof.
  intros Hc. induction d; cbn [without NilEmpty.string_of_uint]; [done|..];
    rewrite IHd, andb_true_r; apply negb_true_iff, Ascii.eqb_neq; by intros <-.
Qed.

Lemma string_of_uint_no_whitespace (d : Decimal.uint) :
  has_whitespace (NilEmpty.string_of_uint d) = false.
Proof. induction d; simpl; [done|..]; exact IHd. Qed.

(** The numeral of a number has no leading zero, the numeral of zero
    apart. *)
Lemma to_uint_head (p : positive) :
  ∃ d, Pos.to_uint p = d ∧ d ≠ Decimal.Nil ∧ ∀ d', d ≠ Decimal.D0 d'.
Proof.
  exists (Pos.to_uint p). split; [done|]. split; [apply DecimalPos.Unsigned.to_uint_nonnil|].
  intros d' Hd.
  pose proof (DecimalPos.Unsigned.of_to p) as Hof.
  pose proof (DecimalPos.Unsigned.to_of (Pos.to_uint p)) as Hto.
  rewrite Hof in Hto. simpl in Hto. rewrite Hd in Hto at 1.
  unfold Decimal.unorm in Hto.
  destruct (Decimal.nzhead (Pos.to_uint p)) eqn:Hnz; try discriminate.
  - pose proof (DecimalPos.Unsigned.to_uint_nonzero p) as Hzero.
    apply Hzero. rewrite Hd. by injection Hto as ->.
  - by apply DecimalFacts.nzhead_nonzero in Hnz.
Qed.

Lemma numeral_value_lower (d : Decimal.uint) (acc : Z) :
  (0 ≤ acc → acc * 10 ^ Z.of_nat (Decimal.nb_digits d) ≤ numeral_value acc d)%Z.
Proof.
  revert acc. induction d; intros acc Hacc; cbn [numeral_value Decimal.nb_digits].
  { simpl. lia. }
  all: rewrite Nat2Z.inj_succ, Z.pow_succ_r by lia;
    etrans; [|apply IHd; lia];
    pose proof (Z.pow_nonneg 10 (Z.of_nat (Decimal.nb_digits d)) ltac:(lia)); nia.
Qed.

Lemma digits_numeral (n : Z) :
  (0 ≤ n)%Z →
  ∃ d, digits n = NilEmpty.string_of_uint d ∧ numeral_value 0 d = n ∧
       d ≠ Decimal.Nil ∧ (n ≠ 0%Z → ∀ d', d ≠ Decimal.D0 d').
Proof.
  intros Hn. unfold digits. exists (N.to_uint (Z.to_N n)).
  assert (Hval : numeral_value 0 (N.to_uint (Z.to_N n)) = n).
  { rewrite <- of_uint_value. change (Pos.of_uint ?d) with (N.of_uint d).
    rewrite DecimalN.Unsigned.of_to. lia. }
  destruct (Z.to_N n) as [|p] eqn:Hp.
  - split_and!; [done | done | done | lia].
  - simpl N.to_uint in *. destruct (to_uint_head p) as (d & Hd & Hnil & Hzero).
    rewrite Hd in *. split_and!; [by destruct d | done | done | done].
Qed.

Lemma digits_length (n : Z) :
  (0 ≤ n < 10 ^ 21)%Z → String.length (digits n) ≤ 21.
Proof.
  intros [Hn Hlt]. destruct (decide (n = 0%Z)) as [->|Hne]; [simpl; lia|].
  destruct (digits_numeral n Hn) as (d & -> & Hval & Hnil & Hzero).
  specialize (Hzero Hne). rewrite string_of_uint_length.
  assert (Hlow : (10 ^ Z.of_nat (Decimal.nb_digits d - 1) ≤ n)%Z).
  { rewrite <- Hval. destruct d; [done | by destruct (Hzero d) |..];
      cbn [numeral_value Decimal.nb_digits]; rewrite Nat.sub_succ, Nat.sub_0_r;
      (etrans; [|apply numeral_value_lower; lia]);
      pose proof (Z.pow_nonneg 10 (Z.of_nat (Decimal.nb_digits d)) ltac:(lia)); nia. }
  assert (Z.of_nat (Decimal.nb_digits d - 1) < 21)%Z; [|lia].
  apply (Z.pow_lt_mono_r_iff 10); lia.
Qed.

Lemma strip_zeros_spec (s : string) :
  s = (strip_zeros s).1 +:+ repeat0 (strip_zeros s).2.
Proof.
  induction s as [|c s IH]; [done|]. cbn [strip_zeros].
  destruct (strip_zeros s) as [t z]; simpl in IH.
  destruct t as [|x t].
  - destruct (Ascii.eqb_spec c "0") as [->|_]; simpl in *; by rewrite IH.
  - simpl in *. by rewrite IH.
Qed.

Lemma strip_zeros_length (s : string) :
  String.length s = String.length (strip_zeros s).1 + (strip_zeros s).2.
Proof.
  rewrite (strip_zeros_spec s) at 1. rewrite append_length. f_equal.
  induction (strip_zeros s).2; simpl; [done | by f_equal].
Qed.

(** A whole number below 10^21 prints as its decimal numeral. *)
Lemma Number_toString_whole (n : Z) :
  (0 ≤ n < 10 ^ 21)%Z → Number_toString (Fin n 0) = digits n.
Proof.
  intros Hn. unfold Number_toString.
  destruct (Z.eqb_spec n 0) as [->|Hne]; [done|].
  replace (n <? 0)%Z with false by lia. rewrite Z.abs_eq by lia.
  pose proof (strip_zeros_spec (digits n)) as Hspec.
  pose proof (strip_zeros_length (digits n)) as Hlen.
  pose proof (digits_length n Hn) as Hmax.
  destruct (strip_zeros (digits n)) as [s z]; simpl in *.
  replace (Z.of_nat (String.length s) <=?
           Z.of_nat (String.length s) + 0 + Z.of_nat z)%Z with true by lia.
  replace (Z.of_nat (String.length s) + 0 + Z.of_nat z <=? 21)%Z with true by lia.
  simpl. etrans; [|symmetry; exact Hspec]. do 2 f_equal. lia.
Qed.

(** Parsing reads the numeral back, whatever follows it after a space. *)
Lemma parseInt_digits (n : Z) (rest : string) :
  (0 ≤ n)%Z → stops rest → parseInt (digits n +:+ rest) = Some n.
Proof.
  intros Hn Hrest. destruct (digits_numeral n Hn) as (d & Hd & Hval & Hnil & _).
  rewrite Hd. unfold parseInt.
  assert (Hhead : trimStart (NilEmpty.string_of_uint d +:+ rest)
                  = NilEmpty.string_of_uint d +:+ rest ∧
                  read_sign (NilEmpty.string_of_uint d +:+ rest)
                  = (false, NilEmpty.string_of_uint d +:+ rest) ∧
                  String.prefix "0x" (NilEmpty.string_of_uint d +:+ rest) = false ∧
                  String.prefix "0X" (NilEmpty.string_of_uint d +:+ rest) = false).
  { destruct d as [|d|d|d|d|d|d|d|d|d|d]; [done|..]; split_and!; try done;
      destruct d; destruct Hrest as [->|[rest' ->]]; done. }
  destruct Hhead as (-> & -> & -> & ->). simpl orb. cbv iota.
  rewrite read_digits_numeral, (read_digits_stops _ _ _ Hrest), Hval.
  destruct d; [done|..]; done.
Qed.

Lemma digits_without (c : ascii) (n : Z) :
  (0 ≤ n)%Z → digit_value 10 c = None → without c (digits n) = true.
Proof.
  intros Hn Hc. destruct (digits_numeral n Hn) as (d & -> & _).
  by apply string_of_uint_without.
Qed.

Lemma digits_no_whitespace (n : Z) : (0 ≤ n)%Z → has_whitespace (digits n) = false.
Proof.
  intros Hn. destruct (digits_numeral n Hn) as (d & -> & _).
  apply string_of_uint_no_whitespace.
Qed.

Lemma split_head_stops (rest : string) :
  stops rest → stops (nth 0 (split "-" rest) EmptyString).
Proof.
  intros [->|[rest' ->]]; [by left|]. right. cbn [split].
  replace (Ascii.eqb " " "-") with false by reflexivity.
  pose proof (split_not_nil "-" rest'). destruct (split "-" rest'); [done|]. by eexists.
Qed.

Lemma join_stops (x : string) (more : list string) :
  ∃ rest, join " " (x :: more) = x +:+ rest ∧ stops rest.
Proof.
  destruct more as [|y more].
  - exists EmptyString. split; [by rewrite append_empty | by left].
  - eexists. split; [reflexivity|]. right. by eexists.
Qed.

(** The depth that the class [indent-<depth>] records is read back from
    the class list, whatever classes follow it. *)
Lemma indent_of_depth (depth : Z) (more : list string) :
  (0 ≤ depth)%Z →
  indent_of (("indent-" +:+ digits depth) :: more) = Some depth.
Proof.
  intros Hdepth. unfold indent_of.
  destruct (join_stops ("indent-" +:+ digits depth) more) as (rest & -> & Hrest).
  change (("indent-" +:+ digits depth) +:+ rest)
    with ("indent" +:+ String "-" (digits depth +:+ rest)).
  rewrite split_append by done.
  pose proof (split_head_append "-" (digits depth) rest
                (digits_without "-" depth Hdepth eq_refl)) as Hhead.
  pose proof (split_not_nil "-" (digits depth +:+ rest)) as Hne.
  destruct (split "-" (digits depth +:+ rest)) as [|piece pieces]; [done|].
  simpl in Hhead. subst piece. cbn [nth_error].
  apply parseInt_digits; [done|]. by apply split_head_stops.
Qed.

(** X12.  [createScoreDetail] returns for every record of a depth below 10^21:
    the element has the class [indent-<depth>] alone, the two texts and
    nothing nested; the depth is read back from its class list by
    [appendScoreDetail] whatever classes are added after, and from the
    record itself. *)
Theorem createScoreDetail_depth (scoreDetail : ScoreRecord) :
  (Z.of_nat (rdepth scoreDetail) < 10 ^ 21)%Z →
  let depth := Z.of_nat (rdepth scoreDetail) in
  createScoreDetail scoreDetail =
    Ok (Details ["indent-" +:+ digits depth]
          (textContent (rdescription scoreDetail))
          (textContent (rvalue scoreDetail)) []) ∧
  (∀ more, indent_of (("indent-" +:+ digits depth) :: more) = Some depth) ∧
  parseInt (ToString (depth_value scoreDetail)) = Some depth.
Proof.
  intros Hdepth depth.
  assert (Hprint : ToString (depth_value scoreDetail) = digits depth).
  { unfold depth_value. cbn [ToString]. apply Number_toString_whole. lia. }
  split_and!.
  - unfold createScoreDetail. rewrite Hprint. unfold classList_add.
    replace (String.eqb ("indent-" +:+ digits depth) EmptyString) with false by done.
    rewrite has_whitespace_append, digits_no_whitespace by lia. done.
  - intros more. apply indent_of_depth. lia.
  - rewrite Hprint, <- (append_empty (digits depth)).
    apply parseInt_digits; [lia | by left].
Qed.

Lemma createScoreDetail_depth_witness :
  createScoreDetail (mkRecord 12 (Str "weight(field:x)") (Num (Fin 6 0))) =
    Ok (Details ["indent-12"] "weight(field:x)" "6" []) ∧
  indent_of ["indent-12"; "scoreweight"] = Some 12%Z.
Proof.
  destruct (createScoreDetail_depth (mkRecord 12 (Str "weight(field:x)") (Num (Fin 6 0))))
    as (H1 & H2 & _).
  - reflexivity.
  - split; [exact H1 | exact (H2 ["scoreweight"])].
Defined.

(** ** The schedule of the token *)

(** X13.  The timer of the next refresh.  With [s] the seconds that
    [expires_in] parses to: from 3 to 15 seconds the refresh comes 2
    seconds before the expiry, from 16 to 2147493 seconds it comes 10
    seconds before; when [expires_in] does not parse, from -2147481 to 2
    seconds, and from 2147494 seconds (the delay no longer fits the timer)
    to 4294977, the delay is 0 and the refresh is at once. *)
Theorem refreshJwt_schedule (expires_in : jsval) :
  let delay := setTimeout_delay (refresh_timeout expires_in) in
  match parseInt (ToString expires_in) with
  | None => delay = 0%Z
  | Some s =>
      (-2147481 ≤ s ≤ 2 → delay = 0) ∧
      (3 ≤ s ≤ 15 → delay = (s - 2) * 1000) ∧
      (15 < s ≤ 2147493 → delay = (s - 10) * 1000) ∧
      (2147493 < s ≤ 4294977 → delay = 0)
  end%Z.
Proof.
  unfold refresh_timeout, secondsUntilRefresh.
  destruct (parseInt (ToString expires_in)) as [s|]; [|done].
  cbv zeta. unfold setTimeout_delay. cbv zeta.
  change (2 ^ 32)%Z with 4294967296%Z. change (2 ^ 31)%Z with 2147483648%Z.
  assert (Hwrap : ∀ ms q : Z,
    (0 ≤ ms - q * 4294967296 < 2 ^ 32 → ms mod 4294967296 = ms - q * 4294967296)%Z).
  { intros ms q Hq. symmetry. apply (Z.mod_unique_pos _ _ q); lia. }
  split_and!; intros Hs.
  - destruct (Z.ltb_spec 15 s); [lia|].
    destruct (decide (s = 2%Z)) as [->|Hne]; [done|].
    rewrite (Hwrap _ (-1)%Z) by lia.
    destruct (Z.leb_spec 2147483648 ((s - 2) * 1000 - -1 * 4294967296)); lia.
  - destruct (Z.ltb_spec 15 s); [lia|].
    rewrite (Hwrap _ 0%Z) by lia.
    destruct (Z.leb_spec 2147483648 ((s - 2) * 1000 - 0 * 4294967296)); lia.
  - destruct (Z.ltb_spec 15 s); [|lia].
    rewrite (Hwrap _ 0%Z) by lia.
    destruct (Z.leb_spec 2147483648 ((s - 10) * 1000 - 0 * 4294967296)); lia.
  - destruct (Z.ltb_spec 15 s); [|lia].
    rewrite (Hwrap _ 0%Z) by lia.
    destruct (Z.leb_spec 2147483648 ((s - 10) * 1000 - 0 * 4294967296)); lia.
Qed.

(** ** The maximum of the scores *)

(** The comparison of two finite numbers at any exponent below both. *)
Lemma aligned_scaled (m1 e1 m2 e2 c : Z) :
  (c ≤ e1 → c ≤ e2 →
   let '(a, b) := aligned m1 e1 m2 e2 in
   ∃ k, 0 < k ∧ m1 * 10 ^ (e1 - c) = a * k ∧ m2 * 10 ^ (e2 - c) = b * k)%Z.
Proof.
  intros H1 H2. unfold aligned. exists (10 ^ (Z.min e1 e2 - c))%Z.
  split; [apply Z.pow_pos_nonneg; lia|].
  rewrite <- !Z.mul_assoc, <- !Z.pow_add_r by lia.
  split; do 2 f_equal; lia.
Qed.

Lemma number_gt_scaled (m1 e1 m2 e2 c : Z) :
  (c ≤ e1 → c ≤ e2 →
   number_gt (Fin m1 e1) (Fin m2 e2) = (m2 * 10 ^ (e2 - c) <? m1 * 10 ^ (e1 - c)))%Z.
Proof.
  intros H1 H2. pose proof (aligned_scaled m1 e1 m2 e2 c H1 H2) as H.
  cbn [number_gt]. destruct (aligned m1 e1 m2 e2) as [a b].
  destruct H as (k & Hk & -> & ->).
  pose proof (Z.mul_lt_mono_pos_r k b a Hk).
  destruct (Z.ltb_spec b a), (Z.ltb_spec (b * k) (a * k)); try done; lia.
Qed.

Lemma number_ge_scaled (m1 e1 m2 e2 c : Z) :
  (c ≤ e1 → c ≤ e2 →
   number_ge (Fin m1 e1) (Fin m2 e2) = (m2 * 10 ^ (e2 - c) <=? m1 * 10 ^ (e1 - c)))%Z.
Proof.
  intros H1 H2. pose proof (aligned_scaled m1 e1 m2 e2 c H1 H2) as H.
  cbn [number_ge]. destruct (aligned m1 e1 m2 e2) as [a b].
  destruct H as (k & Hk & -> & ->).
  pose proof (Z.mul_le_mono_pos_r b a k Hk).
  destruct (Z.leb_spec b a), (Z.leb_spec (b * k) (a * k)); try done; lia.
Qed.

Lemma number_gt_ge_trans (x y z : number) :
  number_gt x y = true → number_ge y z = true → number_ge x z = true.
Proof.
  destruct x as [|[]|m1 e1], y as [|[]|m2 e2], z as [|[]|m3 e3]; try done.
  set (c := Z.min e1 (Z.min e2 e3)).
  rewrite (number_gt_scaled m1 e1 m2 e2 c), (number_ge_scaled m2 e2 m3 e3 c),
    (number_ge_scaled m1 e1 m3 e3 c) by lia.
  rewrite Z.ltb_lt, !Z.leb_le. lia.
Qed.

Lemma number_not_gt_ge (x y : number) :
  number_gt x y = false → x ≠ NaN → y ≠ NaN → number_ge y x = true.
Proof.
  destruct x as [|[]|m1 e1], y as [|[]|m2 e2]; try done.
  rewrite (number_gt_scaled m1 e1 m2 e2 (Z.min e1 e2)),
    (number_ge_scaled m2 e2 m1 e1 (Z.min e1 e2)) by lia.
  rewrite Z.ltb_ge, Z.leb_le. lia.
Qed.

Lemma number_ge_trans (x y z : number) :
  number_ge x y = true → number_ge y z = true → number_ge x z = true.
Proof.
  destruct x as [|[]|m1 e1], y as [|[]|m2 e2], z as [|[]|m3 e3]; try done.
  set (c := Z.min e1 (Z.min e2 e3)).
  rewrite (number_ge_scaled m1 e1 m2 e2 c), (number_ge_scaled m2 e2 m3 e3 c),
    (number_ge_scaled m1 e1 m3 e3 c) by lia.
  rewrite !Z.leb_le. lia.
Qed.

Lemma number_ge_refl (x : number) : x ≠ NaN → number_ge x x = true.
Proof.
  destruct x as [|[]|m e]; try done.
  intros _. rewrite (number_ge_scaled m e m e e) by lia. by apply Z.leb_le.
Qed.

Lemma number_gt_ge_weak (x y : number) :
  number_gt x y = true → number_ge x y = true.
Proof.
  destruct x as [|[]|m1 e1], y as [|[]|m2 e2]; try done.
  rewrite (number_gt_scaled m1 e1 m2 e2 (Z.min e1 e2)),
    (number_ge_scaled m1 e1 m2 e2 (Z.min e1 e2)) by lia.
  rewrite Z.ltb_lt, Z.leb_le. lia.
Qed.

Lemma productScores_fold_max (l : list SKU) (n : nat) (m : number) :
  m ≠ NaN →
  let r := fold_left productScores_step l (n, m) in
  number_ge r.2 m = true ∧
  (∀ sku, sku ∈ l → parseFloat (skuScore sku) = NaN ∨
                    number_ge r.2 (parseFloat (skuScore sku)) = true) ∧
  (r.2 = m ∨ ∃ sku, sku ∈ l ∧ r.2 = parseFloat (skuScore sku)).
Proof.
  revert n m. induction l as [|sku l IH]; intros n m Hm.
  - simpl. split_and!; [by apply number_ge_refl | by intros ? ?%elem_of_nil | by left].
  - cbn [fold_left productScores_step].
    set (current := parseFloat (skuScore sku)).
    destruct (number_gt current m) eqn:Hgt.
    + assert (Hcur : current ≠ NaN) by (intros Heq; by rewrite Heq in Hgt).
      destruct (IH (S n) current Hcur) as (H1 & H2 & H3). split_and!.
      * eapply number_ge_trans; [exact H1 | by apply number_gt_ge_weak].
      * intros s [->|Hs]%elem_of_cons; [by right | by apply H2].
      * right. destruct H3 as [H3|(s & Hs & H3)].
        -- exists sku. split; [by left | done].
        -- exists s. split; [by right | done].
    + destruct (IH (S n) m Hm) as (H1 & H2 & H3). split_and!.
      * done.
      * intros s [->|Hs]%elem_of_cons; [|by apply H2].
        fold current. destruct (decide (current = NaN)) as [?|Hcur]; [by left|].
        right. eapply number_ge_trans; [exact H1|]. by apply number_not_gt_ge.
      * destruct H3 as [H3|(s & Hs & H3)]; [by left|].
        right. exists s. split; [by right | done].
Qed.

(** X14.  The maximum that [productScores] reports is not below the score of
    any SKU of the product that parses to a number, and it is the initial
    0 or the score of one of the SKUs. *)
Theorem productScores_maximum_bounds (product : gmap string SKU) :
  let maxScore := (productScores product).2 in
  (∀ skuId sku, product !! skuId = Some sku →
     parseFloat (skuScore sku) = NaN ∨
     number_ge maxScore (parseFloat (skuScore sku)) = true) ∧
  (maxScore = zero ∨
   ∃ skuId sku, product !! skuId = Some sku ∧ maxScore = parseFloat (skuScore sku)).
Proof.
  pose proof (productScores_fold_max (map snd (map_to_list product)) O zero
                ltac:(done)) as (_ & H2 & H3).
  fold (productScores product) in *. split.
  - intros skuId sku Hsku. apply H2.
    apply list_elem_of_fmap. exists (skuId, sku). split; [done|].
    by apply elem_of_map_to_list.
  - destruct H3 as [?|(sku & [[k s] [-> Hks]]%list_elem_of_fmap & H3)]; [by left|].
    right. exists k, s. split; [by apply elem_of_map_to_list | done].
Qed.

(** ** The score list of a tree: the way to the last element *)

Lemma last_below_nested (e : detailsElement) : last_below e = last_path (nested e).
Proof. by destruct e. Qed.

Lemma last_path_snoc (l0 : list detailsElement) (e : detailsElement) :
  last_path (l0 ++ [e]) = length l0 :: last_below e.
Proof.
  rewrite last_path_last, last_snoc, length_app. simpl.
  rewrite Nat.add_1_r. simpl. by rewrite last_below_nested.
Qed.

Lemma last_path_cons_inv (l : list detailsElement) (i : nat) (r : path) :
  last_path l = i :: r →
  ∃ l0 e, l = l0 ++ [e] ∧ i = length l0 ∧ r = last_below e.
Proof.
  rewrite last_path_last. destruct (last l) as [e|] eqn:Hlast; [|done].
  apply last_Some in Hlast as [l0 ->]. simpl. rewrite length_app. simpl.
  rewrite Nat.add_1_r. simpl. intros [= <- <-].
  exists l0, e. by rewrite last_below_nested.
Qed.

Lemma nth_error_snoc (l0 : list detailsElement) (e : detailsElement) :
  nth_error (l0 ++ [e]) (length l0) = Some e.
Proof. induction l0 as [|x l0 IH]; [done | exact IH]. Qed.

Lemma insert_snoc (l0 : list detailsElement) (e e' : detailsElement) :
  <[length l0 := e']> (l0 ++ [e]) = l0 ++ [e'].
Proof. induction l0 as [|x l0 IH]; simpl; [done | by rewrite IH]. Qed.

Lemma update_children_snoc (f : list detailsElement → list detailsElement)
    (l0 : list detailsElement) (c : list string) (t v : string)
    (k : list detailsElement) (p : path) :
  update_children f (l0 ++ [Details c t v k]) (length l0 :: p) =
  l0 ++ [Details c t v (update_children f k p)].
Proof. cbn [update_children]. by rewrite nth_error_snoc, insert_snoc. Qed.

Lemma update_classList_snoc (classes : list string)
    (l0 : list detailsElement) (c : list string) (t v : string)
    (k : list detailsElement) (p : path) :
  update_classList classes (l0 ++ [Details c t v k]) (length l0 :: p) =
  l0 ++ [match p with
         | [] => Details classes t v k
         | _ => Details c t v (update_classList classes k p)
         end].
Proof.
  cbn [update_classList]. rewrite nth_error_snoc. destruct p; by rewrite insert_snoc.
Qed.

Lemma element_at_snoc (l0 : list detailsElement) (e : detailsElement) (s : path) :
  element_at (l0 ++ [e]) (length l0 :: s) =
  match s with
  | [] => Some e
  | _ => element_at (nested e) s
  end.
Proof. cbn [element_at]. by rewrite nth_error_snoc. Qed.

Lemma nearest_weight_snoc (acc : option string) (l0 : list detailsElement)
    (e : detailsElement) (s : path) :
  nearest_weight acc (l0 ++ [e]) (length l0 :: s) =
  nearest_weight (if has_class "scoreweight" e then Some (detail_desc e) else acc)
    (nested e) s.
Proof. cbn [nearest_weight]. by rewrite nth_error_snoc. Qed.

Lemma number_of_children_snoc (l0 : list detailsElement) (e : detailsElement)
    (p : path) :
  number_of_children (l0 ++ [e]) (length l0 :: p) = number_of_children (nested e) p.
Proof.
  unfold number_of_children. rewrite element_at_snoc. by destruct p.
Qed.

(** Induction along the way to the last element. *)
Lemma spine_ind (P : list detailsElement → path → Prop) :
  (∀ l, P l []) →
  (∀ l0 c t v k p, P k p → P (l0 ++ [Details c t v k]) (length l0 :: p)) →
  ∀ l p q, last_path l = p ++ q → P l p.
Proof.
  intros Hnil Hcons l p. revert l. induction p as [|i p IH]; intros l q Hl; [apply Hnil|].
  simpl in Hl. apply last_path_cons_inv in Hl as (l0 & [c t v k] & -> & -> & Hq).
  apply Hcons, (IH k q). symmetry. exact Hq.
Qed.

Section Appending.
Variables (x : detailsElement).

Lemma update_last_path (l : list detailsElement) (p q : path) :
  last_path l = p ++ q →
  last_path (update_children (fun k => k ++ [x]) l p) =
  p ++ number_of_children l p :: last_below x.
Proof.
  revert l p q. apply spine_ind.
  - intros l. simpl. apply last_path_snoc.
  - intros l0 c t v k p IH.
    rewrite update_children_snoc, last_path_snoc, number_of_children_snoc. simpl.
    f_equal. exact IH.
Qed.

Lemma update_element_at (l : list detailsElement) (p q s : path) :
  last_path l = p ++ q →
  element_at (update_children (fun k => k ++ [x]) l p)
    (p ++ number_of_children l p :: s) =
  element_at [x] (0 :: s).
Proof.
  revert l p q. apply spine_ind.
  - intros l. simpl update_children. cbn [List.app]. unfold number_of_children.
    by rewrite element_at_snoc.
  - intros l0 c t v k p IH.
    rewrite update_children_snoc, number_of_children_snoc. cbn [List.app].
    rewrite element_at_snoc. simpl nested.
    destruct (p ++ number_of_children k p :: s) eqn:Hp; [by destruct p | exact IH].
Qed.

Lemma update_nearest_weight (acc : option string) (l : list detailsElement)
    (p q s : path) :
  last_path l = p ++ q →
  nearest_weight acc (update_children (fun k => k ++ [x]) l p)
    (p ++ number_of_children l p :: s) =
  nearest_weight (nearest_weight acc l p) [x] (0 :: s).
Proof.
  intros Hl. revert acc. revert l p q Hl.
  apply (spine_ind (fun l p => ∀ acc,
    nearest_weight acc (update_children (fun k => k ++ [x]) l p)
      (p ++ number_of_children l p :: s) =
    nearest_weight (nearest_weight acc l p) [x] (0 :: s))).
  - intros l acc. simpl update_children. cbn [List.app]. unfold number_of_children.
    by rewrite nearest_weight_snoc.
  - intros l0 c t v k p IH acc.
    rewrite update_children_snoc, number_of_children_snoc. cbn [List.app].
    rewrite !nearest_weight_snoc. simpl nested. apply IH.
Qed.

End Appending.

Lemma update_update_classList (classes c0 : list string) (t v : string)
    (ks l : list detailsElement) (p q : path) :
  last_path l = p ++ q →
  update_classList classes
    (update_children (fun k => k ++ [Details c0 t v ks]) l p)
    (p ++ [number_of_children l p]) =
  update_children (fun k => k ++ [Details classes t v ks]) l p.
Proof.
  revert l p q. apply spine_ind.
  - intros l. cbn [update_children List.app]. unfold number_of_children.
    by rewrite update_classList_snoc.
  - intros l0 c t' v' k p IH.
    rewrite !update_children_snoc, number_of_children_snoc. cbn [List.app].
    rewrite update_classList_snoc. cbn [nested].
    destruct (p ++ [number_of_children k p]) eqn:Hp; [by destruct p|].
    by rewrite IH.
Qed.

Lemma update_update_children (y : detailsElement) (c : list string) (t v : string)
    (ks l : list detailsElement) (p q : path) :
  last_path l = p ++ q →
  update_children (fun k => k ++ [y])
    (update_children (fun k => k ++ [Details c t v ks]) l p)
    (p ++ [number_of_children l p]) =
  update_children (fun k => k ++ [Details c t v (ks ++ [y])]) l p.
Proof.
  revert l p q. apply spine_ind.
  - intros l.
    change (update_children (fun k => k ++ [Details c t v ks]) l [])
      with (l ++ [Details c t v ks]).
    cbn [List.app]. unfold number_of_children.
    by rewrite update_children_snoc.
  - intros l0 c' t' v' k p IH.
    rewrite !update_children_snoc, number_of_children_snoc. cbn [List.app].
    rewrite update_children_snoc. cbn [nested]. by rewrite IH.
Qed.

(** ** The score list of a tree: one record *)

Lemma role_of_has_role (d : string) : has_role d (role_of d).
Proof.
  unfold role_of.
  destruct (String.eqb_spec d "boost") as [->|Hb]; [done|].
  destruct (includes "idf, computed as" d) eqn:Hi.
  { split; [done | by apply includes_occurs]. }
  assert (¬ occurs_in "idf, computed as" d) by (rewrite <- includes_occurs; congruence).
  destruct (includes "tf, computed as" d) eqn:Ht.
  { split_and!; [done | done | by apply includes_occurs]. }
  assert (¬ occurs_in "tf, computed as" d) by (rewrite <- includes_occurs; congruence).
  destruct (String.eqb_spec (truncated d) "weight"); [by split_and!|].
  destruct (String.eqb_spec (truncated d) "max of:"); [by split_and!|].
  destruct (String.eqb_spec (truncated d) "query"); [by split_and!|].
  by split_and!.
Qed.

Lemma createScoreDetail_element (scoreDetail : ScoreRecord) :
  (Z.of_nat (rdepth scoreDetail) < 10 ^ 21)%Z →
  createScoreDetail scoreDetail =
    Ok (Details [indent_class (rdepth scoreDetail)]
          (textContent (rdescription scoreDetail))
          (textContent (rvalue scoreDetail)) []) ∧
  parseInt (ToString (depth_value scoreDetail)) = Some (Z.of_nat (rdepth scoreDetail)).
Proof.
  intros Hdepth.
  assert (Hprint : ToString (depth_value scoreDetail)
                   = digits (Z.of_nat (rdepth scoreDetail))).
  { unfold depth_value. cbn [ToString]. apply Number_toString_whole. lia. }
  split.
  - unfold createScoreDetail, indent_class. rewrite Hprint. unfold classList_add.
    replace (String.eqb ("indent-" +:+ digits (Z.of_nat (rdepth scoreDetail))) EmptyString)
      with false by done.
    rewrite has_whitespace_append, digits_no_whitespace by lia. done.
  - rewrite Hprint, <- (append_empty (digits _)).
    apply parseInt_digits; [lia | by left].
Qed.

Lemma indent_of_classes (depth : nat) (d : string) :
  indent_of (classes_of depth d) = Some (Z.of_nat depth).
Proof. unfold classes_of, indent_class. apply indent_of_depth. lia. Qed.

Lemma role_class_not_indent (r : role) (c : string) (depth : nat) :
  role_class r = Some c → c ≠ indent_class depth.
Proof. unfold indent_class. destruct r; intros [= <-]; discriminate. Qed.

Lemma with_token_role (depth : nat) (d : string) :
  match role_class (role_of d) with
  | Some c => with_token c [indent_class depth]
  | None => [indent_class depth]
  end = classes_of depth d.
Proof.
  unfold classes_of. destruct (role_class (role_of d)) as [c|] eqn:Hc; [|done].
  unfold with_token. rewrite bool_decide_eq_false_2; [done|].
  intros Hin%list_elem_of_singleton. by apply (role_class_not_indent _ _ depth) in Hc.
Qed.

Lemma find_app {A : Type} (f : A → bool) (a b : list A) :
  find f (a ++ b) = match find f a with
                    | Some x => Some x
                    | None => find f b
                    end.
Proof. induction a as [|x a IH]; simpl; [done|]. by destruct (f x). Qed.

Lemma closest_nearest (acc : option string) (l : list detailsElement) (p : path) :
  match find (has_class "scoreweight") (rev (elements_to l p)) with
  | Some e => Some (detail_desc e)
  | None => acc
  end = nearest_weight acc l p.
Proof.
  revert l acc. induction p as [|i p IH]; intros l acc; [done|].
  cbn [elements_to nearest_weight]. destruct (nth_error l i) as [e|]; [|done].
  rewrite <- IH. cbn [rev]. rewrite find_app.
  destruct (find _ (rev _)); [done|]. simpl. by destruct (has_class "scoreweight" e).
Qed.

Lemma getBoostName_nearest (l : list detailsElement) (drop : detailsElement) (p : path) :
  getBoostName l drop (Some p) = nearest_weight None l p ≫= boostName_of.
Proof.
  unfold getBoostName, closest_scoreweight. rewrite <- closest_nearest.
  by destruct (find _ _).
Qed.

(** A record one level below the element at [p] is appended to it. *)
Lemma appendScoreDetail_on_spine (l : list detailsElement) (drop : detailsElement)
    (scoreDetail : ScoreRecord) (p q : path) (d : Z) :
  on_spine l p q d →
  parseInt (ToString (depth_value scoreDetail)) = Some (d + 1)%Z →
  appendScoreDetail l drop scoreDetail =
  Ok (update_children (fun k => k ++ [drop]) l p, Some (p ++ [number_of_children l p])).
Proof.
  intros (Hp & Hlast & Hdepths) Hlevel.
  assert (Hloop : ∀ q, (∀ q1 q2, q = q1 ++ q2 →
              indent_of (classList_at l (p ++ q1)) = Some (d + Z.of_nat (length q1))%Z) →
            appendScoreDetail_loop (S (length q)) l drop (Some (d + 1)%Z) (Some (p ++ q)) =
            Ok (update_children (fun k => k ++ [drop]) l p,
                Some (p ++ [number_of_children l p]))).
  { clear q Hlast Hdepths. induction q as [|x q IH] using rev_ind; intros Hdepths.
    - rewrite app_nil_r, appendScoreDetail_loop_step. unfold move_at.
      rewrite <- (app_nil_r p) at 1. rewrite (Hdepths [] []) by done.
      simpl length. rewrite Z.add_0_r.
      rewrite (proj2 (Z.ltb_ge _ _)), (proj2 (Z.eqb_eq _ _)) by lia. done.
    - rewrite length_app. simpl length. rewrite Nat.add_1_r.
      rewrite appendScoreDetail_loop_step. unfold move_at.
      rewrite (Hdepths (q ++ [x]) []) by (by rewrite app_nil_r).
      rewrite length_app. simpl length.
      rewrite (proj2 (Z.ltb_ge _ _)), (proj2 (Z.eqb_neq _ _)) by lia.
      assert (Hparent : parentNode (p ++ q ++ [x]) = Some (p ++ q)).
      { unfold parentNode. rewrite app_assoc, removelast_last.
        by destruct ((p ++ q) ++ [x]) eqn:E; [destruct (p ++ q)|]. }
      rewrite Hparent. apply IH. intros q1 q2 ->.
      apply (Hdepths q1 (q2 ++ [x])). by rewrite app_assoc. }
  unfold appendScoreDetail. rewrite Hlevel.
  assert (Hsome : last_details l [] = Some (p ++ q)).
  { simpl. rewrite Hlast. by destruct p. }
  rewrite Hsome.
  pose proof (length_last_path l) as Hlen. rewrite Hlast, length_app in Hlen.
  replace (S (S (list_sum (map count_details l))))
    with (S (length q) + (S (list_sum (map count_details l)) - length q)) by lia.
  etrans; [apply appendScoreDetail_loop_fuel|exact (Hloop q Hdepths)].
  intros Hdiv. pose proof (Hloop q Hdepths) as Hok.
  pose proof (eq_trans (eq_sym Hok) Hdiv) as Habs. discriminate Habs.
Qed.

(** ** The score list of a tree: the element of a node *)

(** In the element of a tree, each element on the way to the last one is
    one level deeper than the one before. *)
Lemma render_spine (t : ExplanationNode) :
  ∀ (k : nat) (q1 q2 : path),
    last_below (render k t) = q1 ++ q2 →
    indent_of (from_option classList [] (element_at [render k t] (0 :: q1))) =
    Some (Z.of_nat k + Z.of_nat (length q1))%Z.
Proof.
  induction t as [d v|d v l IH] using ExplanationNode_ind; intros k q1 q2 Hlast.
  - simpl in Hlast. destruct q1; [|done]. simpl.
    rewrite indent_of_classes. f_equal. lia.
  - destruct q1 as [|i q1].
    { simpl. rewrite indent_of_classes. f_equal. lia. }
    rewrite last_below_nested in Hlast. cbn [render nested] in Hlast.
    apply last_path_cons_inv in Hlast as (l0 & e & Hmap & -> & Hq).
    apply map_eq_app in Hmap as (l0' & l1' & -> & <- & Hl1).
    destruct l1' as [|c [|? ?]]; try done. injection Hl1 as <-.
    apply Forall_app in IH as [_ IH]. apply Forall_inv in IH.
    specialize (IH (S k) q1 q2 (eq_sym Hq)).
    change (element_at [?e] (0 :: ?i :: ?r)) with (element_at (nested e) (i :: r)).
    cbn [render nested]. rewrite map_app. cbn [map].
    rewrite element_at_snoc.
    change (element_at [?e] (0 :: ?r))
      with (match r with [] => Some e | _ => element_at (nested e) r end) in IH.
    simpl length. rewrite IH. f_equal. lia.
Qed.

Lemma has_class_weight (depth : nat) (d t v : string) (k : list detailsElement) :
  (if has_class "scoreweight" (Details (classes_of depth d) t v k)
   then Some d else None) =
  match role_of d with weight_aggregate => Some d | _ => None end.
Proof.
  unfold has_class, classes_of, indent_class. cbn [classList].
  destruct (role_of d); cbn [role_class]; case_bool_decide as H; try done.
  all: try (repeat (apply elem_of_cons in H as [H|H]; [discriminate H|]);
            by apply elem_of_nil in H).
  destruct H. right. left.
Qed.

(** What [scoreList] does with the record of one node whose description
    is a string: the element of the node, without its children, is
    appended at [p]; a boost is registered. *)
Lemma scoreList_body_node (d' : nat) (s : string) (v : jsval) (pg : page)
    (l : list detailsElement) (p : path) (w : option string) :
  (Z.of_nat (S d') < 10 ^ 21)%Z →
  appends_at l p (Z.of_nat d') →
  nearest_weight None l p = w →
  (role_of s = boost → has_whitespace (boostClass_of (w ≫= boostName_of) v) = false) →
  scoreList_body (mkRecord (S d') (Str s) v) (pg, l) =
  ((match role_of s with
    | boost => register pg (boostClass_of (w ≫= boostName_of) v)
    | _ => pg
    end,
    update_children
      (fun k => k ++ [Details (classes_of (S d') s) s (textContent v) []]) l p),
   Ok ()).
Proof.
  intros Hbound Hat Hw Hclass.
  set (r := mkRecord (S d') (Str s) v).
  destruct (createScoreDetail_element r Hbound) as [Hcreate Hlevel].
  cbn [rdepth rdescription rvalue r textContent ToString] in Hcreate.
  set (drop := Details [indent_class (S d')] s (textContent v) []) in *.
  assert (Hspine : ∃ q, last_path l = p ++ q).
  { destruct Hat as [[-> ->]|(q & _ & Hq & _)]; [by exists [] | by exists q]. }
  destruct Hspine as [q Hq].
  assert (Happend : appendScoreDetail l drop r =
            Ok (update_children (fun k => k ++ [drop]) l p,
                Some (p ++ [number_of_children l p]))).
  { destruct Hat as [[-> ->]|(q' & Hspine)]; [done|].
    apply (appendScoreDetail_on_spine l drop r p q' (Z.of_nat d') Hspine).
    rewrite Hlevel. f_equal. simpl rdepth. lia. }
  unfold scoreList_body, continue. rewrite Hcreate, Happend.
  rewrite (addBoostClass_role pg (S d') s v _ drop _ (role_of s) (role_of_has_role s)).
  assert (Hrole : with_role (role_of s)
            (update_children (fun k => k ++ [drop]) l p) drop
            (Some (p ++ [number_of_children l p])) =
          update_children
            (fun k => k ++ [Details (classes_of (S d') s) s (textContent v) []]) l p).
  { unfold with_role. rewrite <- (with_token_role (S d') s).
    destruct (role_class (role_of s)) as [c|]; [|done].
    by apply (update_update_classList _ _ _ _ _ _ _ q). }
  destruct (role_of s) eqn:Hr; rewrite ?Hrole; try done.
  assert (Hdrop : nearest_weight w [drop] [0] = w).
  { cbn [nearest_weight nth_error]. unfold has_class. subst drop. cbn [classList].
    case_bool_decide as H; [|done].
    apply list_elem_of_singleton in H. unfold indent_class in H. discriminate H. }
  rewrite getBoostName_nearest, (update_nearest_weight drop None l p q []), Hw, Hdrop
    by done.
  cbv zeta. by rewrite Hclass.
Qed.

(** ** The score list of a tree: the whole tree *)

Lemma height_child (l : list ExplanationNode) (c : ExplanationNode) :
  c ∈ l → height c ≤ list_max (map height l).
Proof.
  intros Hc. pose proof (proj1 (list_max_le (map height l) (list_max (map height l)))
                           (le_n _)) as Hall.
  rewrite List.Forall_forall in Hall. apply Hall, in_map. by apply list_elem_of_In.
Qed.

Lemma fold_left_register (a b : list string) (pg : page) :
  fold_left register (a ++ b) pg = fold_left register b (fold_left register a pg).
Proof. apply fold_left_app. Qed.

(** The records of a tree, read one after the other, append the element
    of the tree at [p] and register its boosts. *)
Lemma scoreList_subtree (c : ExplanationNode) :
  ∀ (d' : nat) (l : list detailsElement) (p : path) (pg : page) (w : option string),
    described c = true →
    (Z.of_nat (d' + height c) < 10 ^ 21)%Z →
    appends_at l p (Z.of_nat d') →
    nearest_weight None l p = w →
    Forall (fun cl => has_whitespace cl = false) (boost_classes w c) →
    forEach scoreList_body (preorder (S d') c) (pg, l) =
    ((fold_left register (boost_classes w c) pg,
      update_children (fun k => k ++ [render (S d') c]) l p), Ok ()).
Proof.
  induction c as [desc v|desc v ks IH] using ExplanationNode_ind;
    intros d' l p pg w Hdesc Hbound Hat Hw Hclasses.
  - destruct desc as [| | | |s]; try done.
    cbn [preorder description value forEach boost_classes render textContent ToString]
      in *.
    rewrite app_nil_r in *.
    rewrite (scoreList_body_node d' s v pg l p w); [|simpl in Hbound; lia|done|done|].
    + by destruct (role_of s).
    + intros Hr. rewrite Hr in Hclasses. by apply Forall_inv in Hclasses.
  - destruct desc as [| | | |s]; try done.
    cbn [preorder description value forEach boost_classes render textContent ToString]
      in *.
    apply Forall_app in Hclasses as [Hown Hbelow].
    rewrite (scoreList_body_node d' s v pg l p w); [|simpl in Hbound; lia|done|done|].
    2:{ intros Hr. rewrite Hr in Hown. by apply Forall_inv in Hown. }
    assert (Hspine : ∃ q, last_path l = p ++ q).
    { destruct Hat as [[-> ->]|(q & _ & Hq & _)]; [by exists [] | by exists q]. }
    destruct Hspine as [q Hq].
    set (pg1 := match role_of s with
                | boost => register pg (boostClass_of (w ≫= boostName_of) v)
                | _ => pg
                end).
    set (w' := weight_for w s) in *.
    assert (Hchildren : ∀ rest done pgj,
      Forall (fun c => c ∈ ks) rest →
      Forall (fun cl => has_whitespace cl = false) (flat_map (boost_classes w') rest) →
      forEach scoreList_body (flat_map (preorder (S (S d'))) rest)
        (pgj, update_children
                (fun k => k ++ [Details (classes_of (S d') s) s (textContent v)
                                  (map (render (S (S d'))) done)]) l p) =
      ((fold_left register (flat_map (boost_classes w') rest) pgj,
        update_children
          (fun k => k ++ [Details (classes_of (S d') s) s (textContent v)
                            (map (render (S (S d'))) (done ++ rest))]) l p), Ok ())).
    { induction rest as [|c1 rest IHrest]; intros done pgj Hin Hws.
      { simpl. by rewrite app_nil_r. }
      apply Forall_cons in Hin as [Hc1 Hin].
      cbn [flat_map] in *. apply Forall_app in Hws as [Hws1 Hws].
      rewrite forEach_app, fold_left_register.
      rewrite List.Forall_forall in IH.
      rewrite (IH c1 (proj1 (list_elem_of_In _ _) Hc1) (S d')
                 (update_children
                    (fun k => k ++ [Details (classes_of (S d') s) s (textContent v)
                                      (map (render (S (S d'))) done)]) l p)
                 (p ++ [number_of_children l p]) pgj w').
      - rewrite (update_update_children _ _ _ _ _ _ _ q Hq).
        replace (map (render (S (S d'))) done ++ [render (S (S d')) c1])
          with (map (render (S (S d'))) (done ++ [c1])) by (by rewrite map_app).
        rewrite IHrest by done. by rewrite <- app_assoc.
      - apply forallb_forall with (x := c1) in Hdesc; [done|].
        by apply list_elem_of_In.
      - pose proof (height_child ks c1 Hc1). simpl in Hbound. lia.
      - right.
        exists (last_below (Details (classes_of (S d') s) s (textContent v)
                              (map (render (S (S d'))) done))).
        split_and!.
        + by destruct p.
        + rewrite (update_last_path _ _ _ q Hq). by rewrite <- app_assoc.
        + intros q1 q2 Hlast. unfold classList_at.
          destruct ((p ++ [number_of_children l p]) ++ q1) eqn:Hpath;
            [by destruct p|].
          rewrite <- Hpath, <- app_assoc. cbn [List.app].
          rewrite (update_element_at _ _ _ q q1 Hq).
          pose proof (render_spine (Node (Str s) v (Some done)) (S d') q1 q2) as Hr.
          cbn [render textContent ToString] in Hr.
          rewrite Hr by done. f_equal.
      - rewrite (update_nearest_weight _ None l p q [] Hq), Hw.
        cbn [nearest_weight nth_error detail_desc].
        pose proof (has_class_weight (S d') s s (textContent v)
                      (map (render (S (S d'))) done)) as Hhas.
        unfold w', weight_for.
        destruct (has_class "scoreweight" _), (role_of s); try done; congruence.
      - done. }
    specialize (Hchildren ks [] pg1).
    cbn [map List.app] in Hchildren.
    rewrite Hchildren, fold_left_register.
    + f_equal. f_equal. subst pg1. by destruct (role_of s).
    + by apply Forall_forall.
    + done.
Qed.

(** X15.  [scoreList] rebuilds the tree from its records.  For a tree whose
    nodes all have a string as description, of fewer than 10^21 levels and
    whose boost classes hold no whitespace, the score list built from the
    records that the flattener stored is the element of the root, under
    which the elements of the nodes are nested as the nodes are in the
    tree, each with the class of its depth and of its role; the page has
    the boost classes registered in the order of the records. *)
Theorem scoreList_rebuilds_tree (g : globals) (itemId : string)
    (t : ExplanationNode) (pg : page) :
  allDetails g !! itemId = Some (itemDetails t) →
  described t = true →
  (Z.of_nat (height t) < 10 ^ 21)%Z →
  Forall (fun cl => has_whitespace cl = false) (boost_classes None t) →
  scoreList g itemId pg =
  (fold_left register (boost_classes None t) pg, Ok [render 1 t]).
Proof.
  intros Hitem Hdesc Hheight Hclasses. unfold scoreList.
  rewrite Hitem, itemDetails_preorder. simpl default.
  rewrite (scoreList_subtree t 0 [] [] pg None); try done.
  by left.
Qed.

Lemma scoreList_rebuilds_tree_witness :
  scoreList (details_of "A1_P1" red_boost) "A1_P1" new_card =
  (register new_card "red-boost-true",
   Ok [Details ["indent-1"; "scoreweight"] "weight(field_color:red in 5)" "2"
         [Details ["indent-2"; "scoreboost"] "boost" "true" []]]).
Proof.
  apply (scoreList_rebuilds_tree (details_of "A1_P1" red_boost) "A1_P1" red_boost new_card).
  - reflexivity.
  - reflexivity.
  - reflexivity.
  - repeat constructor.
Defined.

(** ** Records that find no place *)

Lemma last_path_not_nil (l : list detailsElement) : l ≠ [] → last_path l ≠ [].
Proof.
  intros Hl. rewrite last_path_last.
  destruct (last l) eqn:Hlast; [done|]. by apply last_None in Hlast.
Qed.

(** X16.  [appendScoreDetail] returns without appending the element, and
    without raising, when the record is more than one level deeper than
    the last element of the list, and when it is not deeper than the first
    element of a list whose elements, on the way to the last one, are each
    one level deeper than the one before. *)
Theorem appendScoreDetail_drops (l : list detailsElement) (drop : detailsElement)
    (scoreDetail : ScoreRecord) (indentLevel : Z) :
  parseInt (ToString (depth_value scoreDetail)) = Some indentLevel →
  (∀ depth, l ≠ [] →
     indent_of (classList_at l (last_path l)) = Some depth →
     (depth < indentLevel - 1)%Z →
     appendScoreDetail l drop scoreDetail = Ok (l, None)) ∧
  (∀ i q depth, on_spine l [i] q depth → (indentLevel ≤ depth)%Z →
     appendScoreDetail l drop scoreDetail = Ok (l, None)).
Proof.
  intros Hlevel. split.
  - intros depth Hl Hdepth Hlt. unfold appendScoreDetail. rewrite Hlevel.
    pose proof (last_path_not_nil l Hl) as Hlast.
    assert (Hsome : last_details l [] = Some (last_path l)).
    { simpl. by destruct (last_path l). }
    rewrite Hsome, appendScoreDetail_loop_step. unfold move_at. rewrite Hdepth.
    rewrite (proj2 (Z.ltb_lt _ _)) by lia.
    pose proof (last_details_node (length (last_path l)) l (le_n _)) as Hnone.
    unfold node in Hnone. rewrite firstn_all in Hnone.
    rewrite decide_True in Hnone by done.
    etrans; [|apply (appendScoreDetail_loop_exit
                       (S (list_sum (map count_details l))) l drop (Some indentLevel))].
    f_equal. exact Hnone.
  - intros i q depth (_ & Hlast & Hdepths) Hle.
    assert (Hloop : ∀ q, (∀ q1 q2, q = q1 ++ q2 →
                indent_of (classList_at l ([i] ++ q1))
                = Some (depth + Z.of_nat (length q1))%Z) →
              appendScoreDetail_loop (S (S (length q))) l drop (Some indentLevel)
                (Some ([i] ++ q)) = Ok (l, None)).
    { clear q Hlast Hdepths. induction q as [|x q IH] using rev_ind; intros Hdepths.
      - rewrite appendScoreDetail_loop_step. unfold move_at.
        rewrite (Hdepths [] []) by done. simpl length. rewrite Z.add_0_r.
        rewrite (proj2 (Z.ltb_ge _ _)), (proj2 (Z.eqb_neq _ _)) by lia.
        cbn [List.app parentNode removelast]. by rewrite appendScoreDetail_loop_step.
      - rewrite length_app. simpl length. rewrite Nat.add_1_r.
        rewrite appendScoreDetail_loop_step. unfold move_at.
        rewrite (Hdepths (q ++ [x]) []) by (by rewrite app_nil_r).
        rewrite length_app. simpl length.
        rewrite (proj2 (Z.ltb_ge _ _)), (proj2 (Z.eqb_neq _ _)) by lia.
        assert (Hparent : parentNode ([i] ++ q ++ [x]) = Some ([i] ++ q)).
        { unfold parentNode. rewrite app_assoc, removelast_last.
          by destruct (([i] ++ q) ++ [x]) eqn:E. }
        rewrite Hparent. apply IH. intros q1 q2 ->.
        apply (Hdepths q1 (q2 ++ [x])). by rewrite app_assoc. }
    unfold appendScoreDetail. rewrite Hlevel.
    assert (Hsome : last_details l [] = Some ([i] ++ q)).
    { simpl. by rewrite Hlast. }
    rewrite Hsome.
    pose proof (length_last_path l) as Hlen. rewrite Hlast, length_app in Hlen.
    simpl in Hlen.
    replace (S (S (list_sum (map count_details l))))
      with (S (S (length q)) + (list_sum (map count_details l) - length q)) by lia.
    etrans; [apply appendScoreDetail_loop_fuel|exact (Hloop q Hdepths)].
    intros Hdiv. pose proof (Hloop q Hdepths) as Hok.
    pose proof (eq_trans (eq_sym Hok) Hdiv) as Habs. discriminate Habs.
Qed.

Lemma appendScoreDetail_drops_witness :
  appendScoreDetail [Details ["indent-1"] "sum of:" "10" []]
    (Details ["indent-3"] "weight(field:x)" "6" [])
    (mkRecord 3 (Str "weight(field:x)") (Num (Fin 6 0)))
  = Ok ([Details ["indent-1"] "sum of:" "10" []], None).
Proof.
  apply (proj1 (appendScoreDetail_drops [Details ["indent-1"] "sum of:" "10" []]
                  (Details ["indent-3"] "weight(field:x)" "6" [])
                  (mkRecord 3 (Str "weight(field:x)") (Num (Fin 6 0))) 3 eq_refl) 1%Z).
  - discriminate.
  - reflexivity.
  - reflexivity.
Defined.

(** ** The formula of a sum and of a product *)

Lemma scoreFormula_plain (type : string) (components : list detailsElement) :
  forallb plain_component components = true →
  flat_map flat (scoreFormula components type) =
  flat_map (fun e => [type; detail_val e]) components.
Proof.
  unfold scoreFormula. induction components as [|e l IH]; [done|].
  cbn [forallb]. intros [He Hl]%andb_true_iff.
  cbn [flat_map]. rewrite flat_map_app, IH by done. f_equal.
  destruct e as [c d v k]. unfold plain_component in He. cbn [detail_desc] in He.
  apply andb_true_iff in He as [[H1 H2]%andb_true_iff H3].
  apply negb_true_iff in H1, H2, H3. cbn [scoreFormula_component].
  by rewrite H1, H2, H3.
Qed.

Lemma flat_map_values (type : string) (terms : list detailsElement) :
  flat_map (fun e => [type; detail_val e]) terms =
  flat_map (fun v => [type; v]) (map detail_val terms).
Proof. induction terms as [|e l IH]; simpl; [done | by rewrite IH]. Qed.

Lemma forallb_values (P : string → bool) (terms : list detailsElement) :
  forallb P (map detail_val terms) = forallb (fun e => P (detail_val e)) terms.
Proof. induction terms as [|e l IH]; simpl; [done | by rewrite IH]. Qed.

Lemma join_terms (type : string) (vs : list string) :
  vs ≠ [] →
  join " " (flat_map (fun v => [type; v]) vs) =
  type +:+ " " +:+ join (" " +:+ type +:+ " ") vs.
Proof.
  induction vs as [|v vs IH]; [done|]. intros _.
  destruct vs as [|v' vs]; [done|].
  specialize (IH ltac:(done)).
  change (flat_map (fun v => [type; v]) (v :: v' :: vs))
    with (type :: v :: flat_map (fun v => [type; v]) (v' :: vs)).
  rewrite (join_cons _ type), (join_cons _ v), IH by done.
  rewrite (join_cons _ v) by done. by rewrite !append_assoc.
Qed.

Lemma join_snoc (sep : string) (l : list string) (x : string) :
  l ≠ [] → join sep (l ++ [x]) = join sep l +:+ sep +:+ x.
Proof.
  induction l as [|y l IH]; [done|]. intros _.
  destruct l as [|z l]; [done|].
  specialize (IH ltac:(done)).
  change ((y :: z :: l) ++ [x]) with (y :: ((z :: l) ++ [x])).
  rewrite !(join_cons _ y), IH by done. by rewrite !append_assoc.
Qed.

Lemma replace_prefix (pat rep s : string) :
  replace pat rep (pat +:+ s) = rep +:+ s.
Proof.
  destruct (pat +:+ s) eqn:E; cbn [replace]; rewrite <- E, prefix_refl_append; f_equal.
  all: clear E; induction pat as [|c pat IH]; [by destruct s | exact IH].
Qed.

(** The first occurrence is the one replaced. *)
Lemma replace_first (init : string) (last : ascii) (rep a b : string) :
  let pat := init +:+ String last EmptyString in
  includes pat (a +:+ init) = false →
  replace pat rep (a +:+ pat +:+ b) = a +:+ rep +:+ b.
Proof.
  intros pat. induction a as [|c a IH]; intros Hno.
  - change (replace pat rep (pat +:+ b) = rep +:+ b). apply replace_prefix.
  - cbn [includes] in Hno. apply orb_false_iff in Hno as [Hp Hno].
    change (String c a +:+ pat +:+ b) with (String c (a +:+ pat +:+ b)). cbn [replace].
    change (String c (a +:+ pat +:+ b)) with (String c a +:+ pat +:+ b).
    assert (Hpre : String.prefix pat (String c a +:+ pat +:+ b) = false).
    { subst pat. rewrite (append_assoc init), <- (append_assoc (String c a)).
      rewrite prefix_short; [done|]. rewrite !append_length. simpl. lia. }
    rewrite Hpre, IH by done. done.
Qed.

Lemma includes_without (c : ascii) (pat s : string) :
  without c s = true → without c pat = false → includes pat s = false.
Proof.
  intros Hs Hpat. destruct (includes pat s) eqn:Hin; [|done].
  apply includes_occurs in Hin as (a & b & ->).
  rewrite !without_append, Hpat in Hs. by rewrite andb_false_r in Hs.
Qed.

Lemma without_join (c : ascii) (sep : string) (l : list string) :
  without c sep = true → forallb (without c) l = true →
  without c (join sep l) = true.
Proof.
  intros Hsep. induction l as [|x l IH]; [done|].
  cbn [forallb]. intros [Hx Hl]%andb_true_iff.
  destruct l as [|y l]; [done|].
  rewrite join_cons, !without_append, Hx, Hsep, IH by done. done.
Qed.

(** The formula of a sum of simple terms is the values joined by [+], in
    parentheses. *)
Lemma sum_formula_joined (c : list string) (d v : string) (terms : list detailsElement) :
  includes "product of" d = false → includes "sum of" d = true →
  terms ≠ [] →
  forallb plain_component terms = true →
  forallb (fun e => without ")" (detail_val e)) terms = true →
  summary_formula [Details c d v terms] =
  "(" +:+ join " + " (map detail_val terms) +:+ ")".
Proof.
  intros Hproduct Hsum Hne Hplain Hvalues.
  unfold summary_formula, scoreFormulaFormat, scoreFormula.
  cbn [flat_map scoreFormula_component]. rewrite Hproduct, Hsum, ?app_nil_r.
  cbn [flat_map flat List.app]. rewrite ?app_nil_r.
  fold (scoreFormula terms "+"). rewrite scoreFormula_plain, flat_map_values by done.
  set (vs := map detail_val terms).
  assert (Hvs : vs ≠ []) by (subst vs; by destruct terms).
  assert (Hterms : flat_map (fun v => ["+"; v]) vs ≠ []) by (by destruct vs).
  rewrite join_cons by (by destruct (flat_map _ vs)).
  rewrite join_snoc, join_terms by done.
  unfold normalize.
  change ("(" +:+ " " +:+ ("+" +:+ " " +:+ join (" " +:+ "+" +:+ " ") vs) +:+ " " +:+ ")")
    with ("( + " +:+ (join " + " vs +:+ " )")).
  rewrite replace_prefix.
  assert (Hclose : includes " )" (("(" +:+ join " + " vs) +:+ " ") = false).
  { apply (includes_without ")"); [|done].
    rewrite !without_append. cbn [without]. rewrite andb_true_r. simpl.
    apply without_join; [done|]. subst vs. by rewrite forallb_values. }
  exact (replace_first " " ")" ")" ("(" +:+ join " + " vs) EmptyString Hclose).
Qed.

Lemma detailsElement_ind (P : detailsElement → Prop) :
  (∀ c t v k, Forall P k → P (Details c t v k)) → ∀ d, P d.
Proof.
  intros H. fix IH 1. intros [c t v k]. apply H.
  induction k as [|e k IHk]; constructor; [apply IH | exact IHk].
Qed.

Lemma subtree_nested (d : detailsElement) :
  ∀ m x, In m (subtree d) → In x (flat_map subtree (nested m)) → In x (subtree d).
Proof.
  induction d as [c t v k IH] using detailsElement_ind. intros m x Hm Hx.
  cbn [subtree] in *. destruct Hm as [<-|Hm]; [by right|]. right.
  apply in_flat_map in Hm as (e & He & Hm). apply in_flat_map. exists e. split; [done|].
  rewrite List.Forall_forall in IH. by apply (IH e He m x).
Qed.

Lemma subtrees_nested (l : list detailsElement) (m x : detailsElement) :
  In m (flat_map subtree l) → In x (flat_map subtree (nested m)) →
  In x (flat_map subtree l).
Proof.
  intros Hm Hx. apply in_flat_map in Hm as (e & He & Hm). apply in_flat_map.
  exists e. split; [done|]. by apply (subtree_nested e m x).
Qed.

Lemma with_parentText_subtree (d : detailsElement) :
  ∀ text w, In w (with_parentText text d) → In w.2 (subtree d).
Proof.
  induction d as [c t v k IH] using detailsElement_ind. intros text w Hw.
  cbn [with_parentText subtree] in *. destruct Hw as [<-|Hw]; [by left|]. right.
  apply in_flat_map in Hw as (e & He & Hw). apply in_flat_map. exists e. split; [done|].
  rewrite List.Forall_forall in IH. by apply (IH e He (t +:+ v) w).
Qed.

Lemma filter_none {A : Type} (p : A → bool) (l : list A) :
  (∀ x, In x l → p x = false) → List.filter p l = [].
Proof.
  induction l as [|x l IH]; intros H; [done|]. cbn [List.filter].
  rewrite (H x (or_introl eq_refl)). apply IH. intros y Hy. apply H. by right.
Qed.

Lemma filter_none_inv {A : Type} (p : A → bool) (l : list A) (x : A) :
  List.filter p l = [] → In x l → p x = false.
Proof.
  intros Hnil Hx. destruct (p x) eqn:Hp; [|done].
  assert (H : In x (List.filter p l)) by (by apply filter_In).
  rewrite Hnil in H. destruct H.
Qed.

Lemma collect_nothing {X Y : Type} (f : X → result (list Y)) (l : list X) :
  (∀ x, In x l → f x = Ok []) → collect f l = Ok [].
Proof.
  induction l as [|x l IH]; intros H; [done|]. cbn [collect].
  rewrite (H x (or_introl eq_refl)). cbn [mbind result_bind].
  rewrite IH; [done|]. intros y Hy. apply H. by right.
Qed.

(** A list without weights: [scoreSummary] returns, with the calculation
    and the copy of the query constant alone. *)
Lemma scoreSummary_without_weights (l : list detailsElement) :
  querySelectorAll_class "scoreweight" l = [] →
  scoreSummary l =
  Ok {| calculation := summary_formula l;
        summary_entries :=
          match querySelector_class "scorequery" l with
          | Some query =>
              [summary_query (Details (classList query) "Query constant"
                                (detail_val query) (nested query))]
          | None => []
          end |}.
Proof.
  intros Hnone. unfold scoreSummary. cbv zeta.
  rewrite (collect_nothing summary_of_max).
  2:{ intros m Hm. apply filter_In in Hm as [Hm _]. unfold summary_of_max.
      replace (querySelectorAll_class "scoreweight" (nested m)) with (@nil detailsElement);
        [done|].
      symmetry. apply filter_none. intros x Hx.
      apply (filter_none_inv _ _ x Hnone). by apply (subtrees_nested l m x). }
  cbn [mbind result_bind].
  replace (outerWeights l) with (@nil (string * detailsElement)); [done|].
  symmetry. unfold outerWeights. apply filter_none. intros w Hw.
  apply (filter_none_inv _ _ w.2 Hnone).
  apply in_flat_map in Hw as (e & He & Hw). apply in_flat_map. exists e.
  split; [done|]. by eapply with_parentText_subtree.
Qed.

Lemma scoreSummary_calculation (l : list detailsElement) (s : summary) :
  scoreSummary l = Ok s → calculation s = summary_formula l.
Proof.
  unfold scoreSummary. cbv zeta.
  destruct (collect summary_of_max _) as [maxima|e|]; [|done|done].
  cbn [mbind result_bind].
  destruct (collect summary_of_outer _) as [outer|e|]; [|done|done].
  cbn [mbind result_bind]. by intros [= <-].
Qed.

(** X17.  A sum of simple terms: the score list has one top-level element,
    whose description names a sum and no product, with one or more nested
    elements, each simple (its description names no product and no sum
    and is no weight of more than 100 characters) and with a value that
    holds no [)].  The formula is the values joined by [+], in
    parentheses.  It is the calculation of every summary that
    [scoreSummary] returns for the list, and [scoreSummary] returns when
    no element of the list has the class [scoreweight]. *)
Theorem sum_formula (c : list string) (d v : string) (terms : list detailsElement) :
  includes "product of" d = false → includes "sum of" d = true →
  terms ≠ [] →
  forallb plain_component terms = true →
  forallb (fun e => without ")" (detail_val e)) terms = true →
  let l := [Details c d v terms] in
  let formula := "(" +:+ join " + " (map detail_val terms) +:+ ")" in
  summary_formula l = formula ∧
  (∀ s, scoreSummary l = Ok s → calculation s = formula) ∧
  (querySelectorAll_class "scoreweight" l = [] →
   ∃ entries, scoreSummary l = Ok {| calculation := formula; summary_entries := entries |}).
Proof.
  intros Hproduct Hsum Hne Hplain Hvalues l formula.
  assert (Hformula : summary_formula l = formula).
  { exact (sum_formula_joined c d v terms Hproduct Hsum Hne Hplain Hvalues). }
  split_and!; [done| |].
  - intros s Hs. by rewrite (scoreSummary_calculation l s Hs).
  - intros Hnone. rewrite (scoreSummary_without_weights l Hnone), Hformula. by eexists.
Qed.

Lemma sum_formula_witness :
  ∃ entries,
    scoreSummary
      [Details ["indent-1"] "sum of:" "12"
         [Details ["indent-2"] "function(popularity)" "6" [];
          Details ["indent-2"] "function(recency)" "4" [];
          Details ["indent-2"] "function(rating)" "2" []]]
    = Ok {| calculation := "(6 + 4 + 2)"; summary_entries := entries |}.
Proof.
  refine (proj2 (proj2 (sum_formula ["indent-1"] "sum of:" "12"
           [Details ["indent-2"] "function(popularity)" "6" [];
            Details ["indent-2"] "function(recency)" "4" [];
            Details ["indent-2"] "function(rating)" "2" []]
           eq_refl eq_refl ltac:(discriminate) eq_refl eq_refl)) _).
  reflexivity.
Defined.



(** ** The checklist has each checkbox once *)

Lemma sidebarOption_NoDup (boost : string) (checks : list string) :
  NoDup checks → NoDup (sidebarOption boost checks).
Proof.
  intros Hchecks. unfold sidebarOption. case_bool_decide as Hin; [done|].
  apply NoDup_app. split_and!; [done | | apply NoDup_singleton].
  intros x Hx ->%list_elem_of_singleton. done.
Qed.

Lemma addBoostClass_NoDup (pg pg' : page) (r : ScoreRecord)
    (l l' : list detailsElement) (drop : detailsElement) (place : option path) :
  addBoostClass pg r l drop place = Ok (pg', l') →
  NoDup (checklist pg) → NoDup (checklist pg').
Proof.
  unfold addBoostClass. destruct (rdescription r) as [| | | |d]; try done.
  destruct (String.eqb d "boost").
  - destruct (classList_add _ (card pg)) as [c| |]; simpl; [|done|done].
    destruct (classList_add _ (deck pg)) as [k| |]; simpl; [|done|done].
    intros [= <- <-]. simpl. apply sidebarOption_NoDup.
  - repeat (match goal with
            | |- context [if ?b then _ else _] => destruct b
            end; simpl); by intros [= <- <-].
Qed.

Lemma scoreList_body_NoDup (r : ScoreRecord) (st : page * list detailsElement) :
  NoDup (checklist st.1) → NoDup (checklist (scoreList_body r st).1.1).
Proof.
  destruct st as [pg l]. unfold scoreList_body, continue. intros Hpg.
  destruct (createScoreDetail r) as [drop| |]; simpl; [|done|done].
  destruct (appendScoreDetail l drop r) as [[l1 place]| |]; simpl; [|done|done].
  destruct (addBoostClass pg r l1 drop place) as [[pg' l2]| |] eqn:E; simpl;
    [|done|done].
  by apply (addBoostClass_NoDup _ _ _ _ _ _ _ E).
Qed.

Lemma scoreList_NoDup (g : globals) (itemId : string) (pg : page) :
  NoDup (checklist pg) → NoDup (checklist (scoreList g itemId pg).1).
Proof.
  intros Hpg. unfold scoreList.
  pose proof (forEach_invariant scoreList_body (fun st => NoDup (checklist st.1))
                (default [] (allDetails g !! itemId)) (pg, []) Hpg) as H.
  destruct (forEach scoreList_body _ (pg, [])) as [[pg' l] [[]|e|]]; simpl in *;
    apply H; intros r st _; apply scoreList_body_NoDup.
Qed.

Lemma addCard_NoDup (prodContainer : jsval → bool) (g : globals) (data : Product)
    (sku : string) (st : list string * list string) :
  NoDup st.2 → NoDup (addCard prodContainer g data sku st).1.2.
Proof.
  destruct st as [section checks]. unfold addCard. simpl. intros Hchecks.
  destruct (prodContainer _); [|done].
  set (pg := {| card := _; deck := section; checklist := checks |}).
  pose proof (scoreList_NoDup g (sku +:+ "_" +:+ ToString (productId data)) pg Hchecks) as H.
  by destruct (scoreList g _ pg) as [pg' [l|e|]].
Qed.

(** X19.  After [buildInterface], whatever the stores hold and however the
    cards were built, no checkbox of the checklist has the id of
    another. *)
Theorem buildInterface_checklist_NoDup (prodContainer : jsval → bool)
    (g : globals) (checks : list string) :
  NoDup (buildInterface prodContainer g checks).1.
Proof.
  unfold buildInterface.
  apply (forEach_invariant _ (fun checks => NoDup checks)); [apply NoDup_nil_2|].
  intros product checks0 _ H0.
  set (section := [ToString (productId product); "product-container"]).
  pose proof (forEach_invariant (addCard prodContainer g product)
    (fun st => NoDup st.2)
    (map fst (map_to_list (skus product))) (section, checks0) H0) as H.
  destruct (forEach (addCard prodContainer g product) _ _) as [[s c] r]; simpl in *.
  apply H. intros sku st _. apply addCard_NoDup.
Qed.

(** ** One deck is spread at a time *)

Lemma first_spread_closed (n : nat) : first_spread (closed_decks n) = None.
Proof.
  unfold closed_decks. induction n as [|n IH]; simpl; [done | by rewrite IH].
Qed.

Lemma first_spread_one (i n : nat) : i < n → first_spread (one_spread i n) = Some i.
Proof.
  revert i. induction n as [|n IH]; intros i Hi; [lia|].
  destruct i as [|i]; [done|].
  unfold one_spread, closed_decks in *. simpl. rewrite IH by lia. done.
Qed.

Lemma close_one_spread (i n : nat) :
  <[i := spread_all false]> (one_spread i n) = closed_decks n.
Proof.
  unfold one_spread. rewrite list_insert_insert_eq.
  unfold closed_decks.
  destruct (decide (i < n)) as [Hi|Hi].
  - apply list_insert_id. apply lookup_replicate_2. exact Hi.
  - apply list_insert_ge. rewrite length_replicate. lia.
Qed.

(** X20.  From decks of which at most one is spread: a click on a deck that is
    not spread spreads it and closes the one that was; a click on the deck
    that is spread closes it.  At most one deck is spread afterwards. *)
Theorem spreadDeck_one_at_a_time (n i j : nat) :
  i < n → j < n →
  spreadDeck i (closed_decks n) = one_spread i n ∧
  spreadDeck i (one_spread i n) = closed_decks n ∧
  (i ≠ j → spreadDeck i (one_spread j n) = one_spread i n).
Proof.
  intros Hi Hj. split_and!.
  - unfold spreadDeck. by rewrite (first_spread_closed n).
  - unfold spreadDeck.
    by rewrite (first_spread_one i n Hi), Nat.eqb_refl, close_one_spread.
  - intros Hne. unfold spreadDeck.
    rewrite (first_spread_one j n Hj), close_one_spread.
    by rewrite (proj2 (Nat.eqb_neq j i)) by done.
Qed.

Lemma spreadDeck_one_at_a_time_witness :
  spreadDeck 2 (spreadDeck 0 (closed_decks 3)) = one_spread 2 3 ∧
  spreadDeck 2 (spreadDeck 2 (closed_decks 3)) = closed_decks 3.
Proof.
  destruct (spreadDeck_one_at_a_time 3 0 2) as (H0 & _ & _); [lia | lia |].
  destruct (spreadDeck_one_at_a_time 3 2 0) as (H2 & Hclose & Hmove); [lia | lia |].
  rewrite H0, H2. split; [apply Hmove; lia | exact Hclose].
Defined.

(** ** Filtering the cards *)

Lemma each_card_positions_from (f : list string → list string)
    (p : list string → bool) (rest before : document) :
  each_card f (positions p (length before) rest) (before ++ rest) =
  before ++ map (λ classes, if p classes then f classes else classes) rest.
Proof.
  revert before. induction rest as [|classes rest IH]; intros before; [done|].
  specialize (IH (before ++ [if p classes then f classes else classes])).
  rewrite length_app, <- !app_assoc in IH. cbn [length List.app] in IH.
  replace (length before + 1) with (S (length before)) in IH by lia.
  cbn [positions map]. destruct (p classes).
  - unfold each_card in *. cbn [List.app fold_left].
    replace (alter f (length before) (before ++ classes :: rest))
      with (before ++ f classes :: rest); [exact IH|].
    replace (length before) with (length before + 0) at 1 by lia.
    by rewrite alter_app_r.
  - exact IH.
Qed.

Lemma each_card_positions (f : list string → list string)
    (p : list string → bool) (doc : document) :
  each_card f (positions p 0 doc) doc =
  map (λ classes, if p classes then f classes else classes) doc.
Proof. exact (each_card_positions_from f p doc []). Qed.

Lemma elem_of_with_token (x token : string) (classes : list string) :
  x ∈ with_token token classes ↔ x ∈ classes ∨ x = token.
Proof.
  unfold with_token. case_bool_decide as Hin.
  - split; [by left | intros [H| ->]; done].
  - rewrite elem_of_app, list_elem_of_singleton. done.
Qed.

Lemma elem_of_classList_remove (x token : string) (classes : list string) :
  x ∈ classList_remove token classes ↔ x ∈ classes ∧ x ≠ token.
Proof. unfold classList_remove. rewrite list_elem_of_filter. tauto. Qed.

Lemma classList_remove_absent (token : string) (classes : list string) :
  token ∉ classes → classList_remove token classes = classes.
Proof.
  unfold classList_remove. induction classes as [|c classes IH]; intros Hin; [done|].
  rewrite not_elem_of_cons in Hin. destruct Hin as [Hne Hin].
  rewrite filter_cons_True by done. by rewrite IH.
Qed.

Lemma classList_remove_with_token (token : string) (classes : list string) :
  classList_remove token (with_token token classes) = classList_remove token classes.
Proof.
  unfold with_token. case_bool_decide; [done|].
  unfold classList_remove. rewrite filter_app.
  rewrite filter_cons_False by (intros H'; by apply H').
  by rewrite filter_nil, app_nil_r.
Qed.

Lemma classList_remove_twice (token : string) (classes : list string) :
  classList_remove token (classList_remove token classes) = classList_remove token classes.
Proof.
  apply classList_remove_absent. rewrite elem_of_classList_remove. tauto.
Qed.

Lemma map_alter_kept {A B : Type} (g : A → B) (f : A → A) (i : nat) (l : list A) :
  (∀ x, g (f x) = g x) → map g (alter f i l) = map g l.
Proof.
  intros Hgf. revert i. induction l as [|x l IH]; intros [|i]; [done|done| |].
  - cbn. by rewrite Hgf.
  - change (g x :: map g (alter f i l) = g x :: map g l). by rewrite IH.
Qed.

Lemma each_card_kept {B : Type} (g : list string → B) (f : list string → list string)
    (cards : list nat) (doc : document) :
  (∀ x, g (f x) = g x) → map g (each_card f cards doc) = map g doc.
Proof.
  intros Hgf. unfold each_card. revert doc.
  induction cards as [|i cards IH]; intros doc; [done|].
  cbn [fold_left]. rewrite IH. by apply map_alter_kept.
Qed.

Lemma hidden_with_token (classes : list string) :
  hidden (with_token "hide-boost" classes) = true.
Proof. unfold hidden. rewrite bool_decide_eq_true, elem_of_with_token. by right. Qed.

Lemma hidden_classList_remove (classes : list string) :
  hidden (classList_remove "hide-boost" classes) = false.
Proof. unfold hidden. rewrite bool_decide_eq_false, elem_of_classList_remove. tauto. Qed.

Lemma with_token_twice (token : string) (classes : list string) :
  with_token token (with_token token classes) = with_token token classes.
Proof.
  unfold with_token at 1. rewrite bool_decide_eq_true_2; [done|].
  rewrite elem_of_with_token. by right.
Qed.

Lemma of_class_kept (boost : string) (classes classes' : list string) :
  boost ≠ "hide-boost" →
  classList_remove "hide-boost" classes' = classList_remove "hide-boost" classes →
  of_class boost classes' = of_class boost classes.
Proof.
  intros Hne Heq. unfold of_class. apply bool_decide_ext.
  assert (H : ∀ l, boost ∈ l ↔ boost ∈ classList_remove "hide-boost" l).
  { intros l. rewrite elem_of_classList_remove. tauto. }
  by rewrite (H classes'), (H classes), Heq.
Qed.

(** *** Clearing *)

Lemma filter_exclude_kept (qsa : selector_engine) (id : string) (doc : document) :
  map (classList_remove "hide-boost") (filter_exclude qsa id doc).1 =
  map (classList_remove "hide-boost") doc.
Proof.
  unfold filter_exclude. destruct (qsa _ doc) as [cards|e|]; [|done|done].
  cbn [continue fst]. apply each_card_kept, classList_remove_with_token.
Qed.

Lemma filter_include_kept (qsa : selector_engine) (id : string) (doc : document) :
  map (classList_remove "hide-boost") (filter_include qsa id doc).1 =
  map (classList_remove "hide-boost") doc.
Proof.
  unfold filter_include. destruct (qsa _ doc) as [cards|e|]; [|done|done].
  cbn [continue]. cbv zeta.
  assert (H1 : map (classList_remove "hide-boost")
                 (each_card (with_token "hide-boost") cards doc) =
               map (classList_remove "hide-boost") doc)
    by apply each_card_kept, classList_remove_with_token.
  destruct (qsa _ (each_card _ cards doc)) as [cards'|e|]; [|done|done].
  cbn [continue fst]. etrans; [|exact H1].
  apply each_card_kept, classList_remove_twice.
Qed.

Lemma filterCards_kept (qsa : selector_engine) (form : filter_form) (doc : document) :
  map (classList_remove "hide-boost") (filterCards qsa form doc).1 =
  map (classList_remove "hide-boost") doc.
Proof.
  unfold filterCards. destruct (radios form) as [|type more]; [done|].
  destruct (String.eqb type "exclude").
  - apply (forEach_invariant (filter_exclude qsa)
      (λ d, map (classList_remove "hide-boost") d = map (classList_remove "hide-boost") doc));
      [done|]. intros id d _ Hd. etrans; [apply filter_exclude_kept | exact Hd].
  - apply (forEach_invariant (filter_include qsa)
      (λ d, map (classList_remove "hide-boost") d = map (classList_remove "hide-boost") doc));
      [done|]. intros id d _ Hd. etrans; [apply filter_include_kept | exact Hd].
Qed.

Lemma unfilterCards_document (form : filter_form) (doc : document) :
  radios form ≠ [] →
  unfilterCards form doc =
  (({| radios := tail (radios form); filters := [] |},
    map (classList_remove "hide-boost") doc), Ok ()).
Proof.
  intros Hradio. unfold unfilterCards. destruct (radios form) as [|type others]; [done|].
  rewrite each_card_positions. cbn [tail]. do 2 f_equal.
  apply map_ext. intros classes. destruct (hidden classes) eqn:Hh; [done|].
  symmetry. apply classList_remove_absent.
  unfold hidden in Hh. by apply bool_decide_eq_false in Hh.
Qed.

Lemma map_classList_remove_shown (doc : document) :
  Forall (λ classes, hidden classes = false) doc →
  map (classList_remove "hide-boost") doc = doc.
Proof.
  induction 1 as [|classes doc Hh _ IH]; [done|]. cbn [map]. rewrite IH. f_equal.
  apply classList_remove_absent. unfold hidden in Hh. by apply bool_decide_eq_false in Hh.
Qed.

(** X21.  On a page none of whose elements is hidden, [unfilterCards] after
    [filterCards] gives the page back as it was, whatever was selected,
    whatever the selectors selected and also when [filterCards] raised
    midway; the radio button and the checkboxes are unchecked. *)
Theorem unfilterCards_undoes_filterCards (qsa : selector_engine)
    (form : filter_form) (doc : document) :
  radios form ≠ [] →
  Forall (λ classes, hidden classes = false) doc →
  unfilterCards form (filterCards qsa form doc).1 =
  (({| radios := tail (radios form); filters := [] |}, doc), Ok ()).
Proof.
  intros Hradio Hshown. rewrite unfilterCards_document by done.
  by rewrite filterCards_kept, map_classList_remove_shown.
Qed.

Lemma unfilterCards_undoes_filterCards_witness :
  let form := {| radios := ["include"];
                 filters := ["check-color-boost-2"; "check-size-boost-1.5"] |} in
  let doc := [["product-container"; "color-boost-2"]; ["product-card"; "color-boost-2"];
              ["product-container"; "size-boost-1.5"]; ["product-card"; "size-boost-1.5"]] in
  (filterCards class_engine form doc).2 = Throw SyntaxError ∧
  (filterCards class_engine form doc).1 ≠ doc ∧
  unfilterCards form (filterCards class_engine form doc).1 =
  (({| radios := []; filters := [] |}, doc), Ok ()).
Proof.
  intros form doc. split; [by vm_compute|]. split; [by vm_compute|].
  apply (unfilterCards_undoes_filterCards class_engine form doc); [done|].
  repeat constructor.
Defined.

(** *** Excluding *)

Lemma filter_exclude_round (qsa : selector_engine) (id : string) (doc : document) :
  selects_as_meant qsa (filter_boost id) →
  filter_exclude qsa id doc =
  (map (λ classes, if of_class (filter_boost id) classes
                   then with_token "hide-boost" classes else classes) doc, Ok ()).
Proof.
  intros Hqsa. unfold filter_exclude. cbv zeta. rewrite (proj1 (Hqsa doc)).
  cbn [continue]. by rewrite each_card_positions.
Qed.

(** X22.  With [exclude] checked and selectors that select as meant,
    [filterCards] hides the elements that are of the class of one of the
    checked boosts, and changes no other element. *)
Theorem filterCards_exclude (qsa : selector_engine) (form : filter_form)
    (more : list string) (doc : document) :
  radios form = "exclude" :: more →
  Forall (λ id, selects_as_meant qsa (filter_boost id)) (filters form) →
  filterCards qsa form doc =
  (map (λ classes,
        if existsb (λ id, of_class (filter_boost id) classes) (filters form)
        then with_token "hide-boost" classes else classes) doc, Ok ()).
Proof.
  intros Hradio. unfold filterCards. rewrite Hradio.
  change (String.eqb "exclude" "exclude") with true. cbv iota.
  generalize (filters form). clear Hradio. intros ids. revert doc.
  induction ids as [|id ids IH]; intros doc Hqsa.
  - cbn [forEach existsb]. by rewrite map_id.
  - apply Forall_cons in Hqsa. destruct Hqsa as [Hid Hids].
    cbn [forEach]. rewrite filter_exclude_round by done.
    rewrite IH by done. rewrite map_map. f_equal. apply map_ext. intros classes.
    cbn [existsb]. destruct (of_class (filter_boost id) classes) eqn:Hc; cbn [orb]; [|done].
    rewrite with_token_twice. by destruct (existsb _ ids).
Qed.

Lemma filterCards_exclude_witness :
  filterCards class_engine
    {| radios := ["exclude"]; filters := ["check-color-boost-2"; "check-fit-boost-3"] |}
    [["product-container"; "color-boost-2"]; ["product-card"; "color-boost-2"];
     ["product-container"; "fit-boost-3"; "hide-boost"]; ["product-container"]] =
  ([["product-container"; "color-boost-2"; "hide-boost"];
    ["product-card"; "color-boost-2"; "hide-boost"];
    ["product-container"; "fit-boost-3"; "hide-boost"]; ["product-container"]], Ok ()).
Proof.
  refine (eq_trans (filterCards_exclude class_engine
    {| radios := ["exclude"]; filters := ["check-color-boost-2"; "check-fit-boost-3"] |}
    [] _ eq_refl _) _).
  - repeat constructor.
  - by vm_compute.
Defined.

(** *** Including *)

Lemma filter_include_round (qsa : selector_engine) (id : string) (doc : document) :
  selects_as_meant qsa (filter_boost id) →
  filter_boost id ≠ "hide-boost" →
  filter_include qsa id doc = (map (include_round (filter_boost id)) doc, Ok ()).
Proof.
  intros Hqsa Hne. unfold filter_include. cbv zeta. rewrite (proj2 (Hqsa doc)).
  cbn [continue]. rewrite each_card_positions. rewrite (proj1 (Hqsa _)).
  cbn [continue]. rewrite each_card_positions, map_map. f_equal.
  apply map_ext. intros classes. unfold include_round, container_without.
  destruct (of_class (filter_boost id) classes) eqn:Hc; cbn [negb].
  - rewrite andb_false_r. by rewrite Hc.
  - rewrite andb_true_r. case_bool_decide; [|by rewrite Hc].
    rewrite (of_class_kept _ classes _ Hne (classList_remove_with_token _ _)).
    by rewrite Hc.
Qed.

Lemma filter_include_rounds (qsa : selector_engine) (ids : list string) (doc : document) :
  Forall (λ id, selects_as_meant qsa (filter_boost id) ∧
                filter_boost id ≠ "hide-boost") ids →
  forEach (filter_include qsa) ids doc =
  (map (λ classes, fold_left (λ classes id, include_round (filter_boost id) classes)
                     ids classes) doc, Ok ()).
Proof.
  revert doc. induction ids as [|id ids IH]; intros doc Hqsa.
  - cbn [forEach fold_left]. by rewrite map_id.
  - apply Forall_cons in Hqsa. destruct Hqsa as [[Hid Hne] Hids].
    cbn [forEach]. rewrite filter_include_round by done.
    rewrite IH by done. by rewrite map_map.
Qed.

Lemma include_rounds_element (ids : list string) (classes : list string) :
  Forall (λ id, filter_boost id ≠ "hide-boost") ids →
  let classes' := fold_left (λ classes id, include_round (filter_boost id) classes)
                    ids classes in
  classList_remove "hide-boost" classes' = classList_remove "hide-boost" classes ∧
  hidden classes' =
    if bool_decide ("product-container" ∈ classes) then
      match last ids with
      | Some id => negb (of_class (filter_boost id) classes)
      | None => hidden classes
      end
    else hidden classes &&
         negb (existsb (λ id, of_class (filter_boost id) classes) ids).
Proof.
  induction ids as [|id ids IH] using rev_ind; intros Hne; cbv zeta.
  - cbn [fold_left last existsb negb]. rewrite andb_true_r. split; [done|].
    by destruct (bool_decide _).
  - apply Forall_app in Hne. destruct Hne as [Hids Hid].
    apply Forall_inv in Hid.
    destruct (IH Hids) as [Hkept Hhidden]. clear IH.
    rewrite fold_left_app. cbn [fold_left].
    set (before := fold_left _ ids classes) in *.
    rewrite last_snoc, existsb_app. cbn [existsb]. rewrite orb_false_r.
    pose proof (of_class_kept _ _ _ Hid Hkept) as Hclass.
    assert (Hcont : bool_decide ("product-container" ∈ before) =
                    bool_decide ("product-container" ∈ classes)).
    { apply (of_class_kept "product-container" classes before); [done | exact Hkept]. }
    unfold include_round. rewrite Hclass, Hcont.
    destruct (of_class (filter_boost id) classes) eqn:Hc.
    + rewrite classList_remove_twice, hidden_classList_remove, orb_true_r.
      cbn [negb]. rewrite andb_false_r. split; [done | by destruct (bool_decide _)].
    + rewrite orb_false_r. cbn [negb].
      destruct (bool_decide ("product-container" ∈ classes)).
      * by rewrite classList_remove_with_token, hidden_with_token.
      * done.
Qed.

(** X23.  With a radio button other than [exclude] checked and selectors that
    select as meant, [filterCards] leaves a product container hidden
    exactly when it is not of the class of the last checked boost; the
    earlier boosts do not count for it.  Another element is hidden
    afterwards when it was before and is of the class of no checked
    boost.  No other class of an element changes. *)
Theorem filterCards_include_last (qsa : selector_engine) (form : filter_form)
    (type : string) (more earlier : list string) (last_id : string) (doc : document) :
  radios form = type :: more →
  type ≠ "exclude" →
  filters form = earlier ++ [last_id] →
  Forall (λ id, selects_as_meant qsa (filter_boost id) ∧
                filter_boost id ≠ "hide-boost") (filters form) →
  (filterCards qsa form doc).2 = Ok () ∧
  Forall2 (λ classes classes',
      classList_remove "hide-boost" classes' = classList_remove "hide-boost" classes ∧
      hidden classes' =
        if bool_decide ("product-container" ∈ classes)
        then negb (of_class (filter_boost last_id) classes)
        else hidden classes &&
             negb (existsb (λ id, of_class (filter_boost id) classes) (filters form)))
    doc (filterCards qsa form doc).1.
Proof.
  intros Hradio Htype Hfilters Hqsa. unfold filterCards. rewrite Hradio.
  rewrite (proj2 (String.eqb_neq type "exclude")) by done.
  rewrite filter_include_rounds by done. split; [done|]. cbn [fst].
  assert (Hne : Forall (λ id, filter_boost id ≠ "hide-boost") (filters form)).
  { eapply Forall_impl; [exact Hqsa|]. by intros id [_ H]. }
  clear Hqsa Hradio.
  induction doc as [|classes doc IH]; [constructor|].
  cbn [map]. constructor; [|exact IH].
  pose proof (include_rounds_element (filters form) classes Hne) as Hel.
  cbv zeta in Hel. rewrite Hfilters in *. by rewrite last_snoc in Hel.
Qed.

Lemma filterCards_include_last_witness :
  let form := {| radios := ["include"];
                 filters := ["check-color-boost-2"; "check-fit-boost-3"] |} in
  let doc := [["product-container"; "color-boost-2"]; ["product-card"; "color-boost-2"];
              ["product-container"; "color-boost-2"; "fit-boost-3"]] in
  (filterCards class_engine form doc).2 = Ok () ∧
  map hidden (filterCards class_engine form doc).1 = [true; false; false].
Proof.
  intros form doc.
  destruct (filterCards_include_last class_engine form "include" [] ["check-color-boost-2"]
              "check-fit-boost-3" doc) as [Hok Hall]; [done | done | done | |].
  - repeat constructor; done.
  - split; [exact Hok|]. by vm_compute.
Defined.

(** ** The summary of a card *)
















(** *** The heading of synonyms *)

Lemma heading_parts_cons (field t t' : string) (ts : list string) (z : string) :
  heading_parts field (t :: t' :: ts) z =
  (t +:+ " " +:+ field) :: heading_parts field (t' :: ts) z.
Proof. done. Qed.

Lemma length_heading_parts (field : string) (terms : list string) (z : string) :
  length (heading_parts field terms z) = length terms.
Proof.
  induction terms as [|t [|t' ts] IH]; [done|done|].
  rewrite heading_parts_cons. cbn [length]. by rewrite IH.
Qed.

Lemma split_heading (field : string) (terms : list string) (z : string) :
  without ":" field = true → without ":" z = true →
  Forall (λ t, without ":" t = true) terms → terms ≠ [] →
  ∀ a, without ":" a = true →
    split ":" (a +:+ join " " (map (λ t, field +:+ ":" +:+ t) terms) +:+ z) =
    (a +:+ field) :: heading_parts field terms z.
Proof.
  intros Hfield Hz. induction terms as [|t [|t' ts] IH]; intros Hts Hne a Ha; [done| |].
  - apply Forall_inv in Hts. cbn [map join heading_parts].
    replace (a +:+ (field +:+ ":" +:+ t) +:+ z)
      with ((a +:+ field) +:+ String ":" (t +:+ z))
      by (by rewrite !append_assoc).
    rewrite split_append by (by rewrite without_append, Ha, Hfield).
    rewrite split_without; [done|]. by rewrite without_append, Hts, Hz.
  - apply Forall_cons in Hts as [Ht Hts].
    change (map (λ t, field +:+ ":" +:+ t) (t :: t' :: ts))
      with ((field +:+ ":" +:+ t) :: map (λ t, field +:+ ":" +:+ t) (t' :: ts)).
    rewrite join_cons by done. rewrite heading_parts_cons.
    set (J := join " " (map (λ t, field +:+ ":" +:+ t) (t' :: ts))) in *.
    replace (a +:+ ((field +:+ ":" +:+ t) +:+ " " +:+ J) +:+ z)
      with ((a +:+ field) +:+ String ":" ((t +:+ " ") +:+ J +:+ z))
      by (by rewrite !append_assoc).
    rewrite split_append by (by rewrite without_append, Ha, Hfield).
    rewrite (IH Hts ltac:(done) (t +:+ " ")) by (by rewrite without_append, Ht).
    by rewrite append_assoc.
Qed.

Lemma terms_of_parts (field rest : string) (terms : list string) :
  Forall (λ t, without " " t = true ∧ without ")" t = true) terms →
  stops rest → terms ≠ [] →
  join ", " (map (λ category_i,
                    join "," (split ")" (nth 0 (split " " category_i) EmptyString)))
               (heading_parts field terms (")" +:+ rest))) =
  join ", " terms +:+ ",".
Proof.
  intros Hts Hrest. induction terms as [|t [|t' ts] IH]; intros Hne; [done| |].
  - apply Forall_inv in Hts as [Hs Hp]. cbn [heading_parts map join].
    replace (t +:+ ")" +:+ rest) with ((t +:+ ")") +:+ rest) by (by rewrite append_assoc).
    rewrite split_head_stop; [|by rewrite without_append, Hs|exact Hrest].
    change (t +:+ ")") with (t +:+ String ")" EmptyString).
    by rewrite split_append.
  - apply Forall_cons in Hts as [[Hs Hp] Hts].
    rewrite heading_parts_cons. cbn [map].
    rewrite join_cons.
    2:{ intros Hnil. apply (f_equal length) in Hnil.
        rewrite length_map, length_heading_parts in Hnil. done. }
    rewrite (IH Hts) by done.
    rewrite split_head_stop; [|done|right; by eexists].
    rewrite split_without by done.
    change (join "," [t]) with t.
    rewrite (join_cons ", " t (t' :: ts)) by done. by rewrite !append_assoc.
Qed.

Lemma take_all_but_last (s : string) (c : ascii) :
  take (String.length (s +:+ String c EmptyString) - 1) (s +:+ String c EmptyString) = s.
Proof.
  assert (Hlen : ∀ s, String.length (s +:+ String c EmptyString) = S (String.length s)).
  { induction s0 as [|x s0 IH]; [done|]. simpl. by rewrite IH. }
  rewrite Hlen. replace (S (String.length s) - 1) with (String.length s) by lia.
  induction s as [|x s IH]; [done|]. simpl. by rewrite IH.
Qed.

(** X25.  In the heading [weight(pre(field:term field:term)rest] of the
    weight of two or more terms of one field, [scoreRewrite] reads the
    terms, which it lists with commas, and the field: for a [pre] and a
    field without colon or opening parenthesis, terms without colon, space
    or closing parenthesis, and a [rest] without colon that is empty or
    starts with a space. *)
Theorem term_and_category_synonyms (pre field rest : string) (terms : list string) :
  2 ≤ length terms →
  without ":" pre = true → without "(" pre = true →
  without ":" field = true → without "(" field = true →
  Forall (λ t, without ":" t = true ∧ without " " t = true ∧ without ")" t = true)
    terms →
  without ":" rest = true → stops rest →
  term_and_category (synonyms_heading pre field terms rest) =
  Ok (join ", " terms, field).
Proof.
  intros Hlen Hpc Hpp Hfc Hfp Hts Hrc Hrest.
  assert (Hne : terms ≠ []) by (intros ->; simpl in Hlen; lia).
  unfold term_and_category, synonyms_heading.
  replace ("weight(" +:+ pre +:+ "(" +:+
           join " " (map (λ t, field +:+ ":" +:+ t) terms) +:+ ")" +:+ rest)
    with (("weight(" +:+ pre +:+ "(") +:+
          join " " (map (λ t, field +:+ ":" +:+ t) terms) +:+ (")" +:+ rest))
    by (by rewrite !append_assoc).
  rewrite split_heading; [|done|done| |done|].
  2:{ eapply Forall_impl; [exact Hts|]. by intros t [H _]. }
  2:{ change ("weight(" +:+ pre +:+ "(") with ("weight(" +:+ (pre +:+ "(")).
      by rewrite !without_append, Hpc. }
  pose proof (length_heading_parts field terms (")" +:+ rest)) as Hparts.
  destruct (heading_parts field terms (")" +:+ rest)) as [|category_1 others] eqn:Hp.
  { simpl in Hparts. lia. }
  cbn [nth_error length nth]. cbn [length] in Hparts.
  replace (2 <? S (S (length others))) with true
    by (symmetry; apply Nat.ltb_lt; lia).
  change (skipn 1 (?x :: category_1 :: others)) with (category_1 :: others).
  rewrite <- Hp, terms_of_parts; [|by eapply Forall_impl; [exact Hts|]; intros t (_ & ? & ?)|done|done].
  change (join ", " terms +:+ ",") with (join ", " terms +:+ String "," EmptyString).
  rewrite take_all_but_last.
  replace (("weight(" +:+ pre +:+ "(") +:+ field)
    with ("weight" +:+ String "(" (pre +:+ String "(" field))
    by (by rewrite !append_assoc).
  rewrite split_append by done. rewrite split_append by done.
  by rewrite split_without.
Qed.

Lemma term_and_category_synonyms_witness :
  term_and_category "weight(Synonym(title:pant title:pants title:trousers) in 1234)" =
  Ok ("pant, pants, trousers", "title").
Proof.
  apply (term_and_category_synonyms "Synonym" "title" " in 1234)"
           ["pant"; "pants"; "trousers"]); try done.
  - simpl. lia.
  - repeat constructor.
  - right. by eexists.
Defined.

(** *** A weight without nested details *)

Lemma bind_TypeError {A B : Type} (r : result A) (k : A → result B) :
  returns_or_TypeError r → (∀ a, returns_or_TypeError (k a)) →
  returns_or_TypeError (r ≫= k).
Proof. intros Hr Hk. destruct r as [a|e|]; [apply Hk | exact Hr | done]. Qed.

Lemma collect_TypeError {X Y : Type} (f : X → result (list Y)) (l : list X) :
  (∀ x, returns_or_TypeError (f x)) → returns_or_TypeError (collect f l).
Proof.
  intros Hf. induction l as [|x l IH]; [done|]. cbn [collect].
  apply bind_TypeError; [apply Hf|]. intros ys.
  apply bind_TypeError; [exact IH | done].
Qed.

Lemma collect_raises {X Y : Type} (f : X → result (list Y)) (l : list X) (x : X) :
  x ∈ l → f x = Throw TypeError → (∀ y, returns_or_TypeError (f y)) →
  collect f l = Throw TypeError.
Proof.
  intros Hin Hx Hf. induction l as [|y l IH]; [by apply elem_of_nil in Hin|].
  cbn [collect]. apply elem_of_cons in Hin as [<-|Hin]; [by rewrite Hx|].
  pose proof (Hf y) as Hy. destruct (f y) as [ys|e|]; [|by (simpl in *; subst)|done].
  cbn [mbind result_bind]. by rewrite (IH Hin).
Qed.

Lemma idfExplain_TypeError (current : detailsElement) (category term : string) :
  returns_or_TypeError (idfExplain current category term).
Proof. unfold idfExplain. by destruct (nested current) as [|? [|? ?]]. Qed.

Lemma createIdfDetail_TypeError (idf : option detailsElement) (category term : string) :
  returns_or_TypeError (createIdfDetail idf category term).
Proof.
  unfold createIdfDetail. destruct idf as [e|]; [|done].
  destruct (negb _).
  - apply bind_TypeError; [apply idfExplain_TypeError | done].
  - apply bind_TypeError; [|done]. apply collect_TypeError. intros current.
    apply bind_TypeError; [apply idfExplain_TypeError | done].
Qed.

Lemma createTfDetail_TypeError (tf : option detailsElement) (category term : string) :
  returns_or_TypeError (createTfDetail tf category term).
Proof.
  unfold createTfDetail. destruct tf as [e|]; [|done].
  by destruct (nested e) as [|? [|? [|? [|? [|? ?]]]]].
Qed.

Lemma term_and_category_TypeError (heading : string) :
  returns_or_TypeError (term_and_category heading).
Proof.
  unfold term_and_category. destruct (nth_error _ 1); [|done]. by destruct (_ <? _).
Qed.

Lemma scoreRewrite_TypeError (node : detailsElement) :
  returns_or_TypeError (scoreRewrite node).
Proof.
  unfold scoreRewrite. apply bind_TypeError; [apply term_and_category_TypeError|].
  intros [term category]. destruct (nested node) as [|first more]; [done|].
  apply bind_TypeError; [apply createIdfDetail_TypeError|]. intros newIdf.
  apply bind_TypeError; [apply createTfDetail_TypeError | done].
Qed.

Lemma scoreRewrite_leaf (node : detailsElement) :
  nested node = [] → scoreRewrite node = Throw TypeError.
Proof.
  intros Hleaf. unfold scoreRewrite. rewrite Hleaf.
  pose proof (term_and_category_TypeError (detail_desc node)) as H.
  destruct (term_and_category _) as [[term category]|e|]; [done | by (simpl in *; subst) | done].
Qed.

Lemma summary_of_max_TypeError (maxElement : detailsElement) :
  returns_or_TypeError (summary_of_max maxElement).
Proof.
  unfold summary_of_max. apply collect_TypeError. intros weight.
  destruct (String.eqb _ _); [|done].
  apply bind_TypeError; [apply scoreRewrite_TypeError | done].
Qed.

Lemma indent_char_TypeError (classes : list string) :
  returns_or_TypeError (indent_char classes).
Proof. unfold indent_char. by destruct (nth_error _ 1). Qed.

Lemma summary_of_outer_TypeError (weight : string * detailsElement) :
  returns_or_TypeError (summary_of_outer weight).
Proof.
  unfold summary_of_outer. apply bind_TypeError; [apply indent_char_TypeError|].
  intros indent. destruct (_ && _); [|done].
  apply bind_TypeError; [apply scoreRewrite_TypeError | done].
Qed.

(** X26.  [scoreSummary] raises [TypeError] when the list has a weight without
    nested details that its second loop takes: one whose depth does not
    begin with the digit 1 and whose parent's text does not begin with the
    word [max].  [text] is the text of the summary of the parent. *)
Theorem scoreSummary_leaf_weight (l : list detailsElement) (text : string)
    (weight : detailsElement) :
  (text, weight) ∈ outerWeights l →
  nested weight = [] →
  indent_char (classList weight) ≠ Ok (Some "1"%char) →
  nth 0 (split " " text) EmptyString ≠ "max" →
  scoreSummary l = Throw TypeError.
Proof.
  intros Hin Hleaf Hindent Hparent. unfold scoreSummary. cbv zeta.
  pose proof (collect_TypeError summary_of_max (querySelectorAll_class "scoremax" l)
                summary_of_max_TypeError) as Hmax.
  destruct (collect summary_of_max _) as [maxima|e|]; [|by (simpl in *; subst)|done].
  cbn [mbind result_bind].
  rewrite (collect_raises summary_of_outer _ (text, weight) Hin);
    [done | | apply summary_of_outer_TypeError].
  unfold summary_of_outer. cbn [fst snd].
  pose proof (indent_char_TypeError (classList weight)) as Hi.
  destruct (indent_char (classList weight)) as [indent|e|]; [|by (simpl in *; subst)|done].
  cbn [mbind result_bind].
  rewrite bool_decide_eq_false_2 by (by intros ->).
  rewrite (proj2 (String.eqb_neq _ _) Hparent). cbn [negb andb].
  by rewrite scoreRewrite_leaf.
Qed.

Lemma scoreSummary_leaf_weight_witness :
  scoreSummary [render 1 bare_weights] = Throw TypeError.
Proof.
  apply (scoreSummary_leaf_weight [render 1 bare_weights] "sum of:10"
           (render 2 (Node (Str "weight(title:pants in 12) [SchemaSimilarity], result of:")
                        (Num (Fin 6 0)) None))).
  - apply list_elem_of_In. vm_compute. by left.
  - done.
  - by vm_compute.
  - by vm_compute.
Defined.

(** ** The numbers of the cards *)

Lemma addCard_article_cards (prodContainer : jsval → bool) (g : globals)
    (data : Product) (skuData : SKU) (sku : string) (number : nat)
    (cards : list deck_child) (page : list string * list string) :
  let r := addCard_article prodContainer g data skuData sku number (cards, page) in
  if prodContainer (productId data) then
    ∃ classes contents,
      r.1.1 = sku_card classes contents :: cards ∧
      ∀ c, contents = Some c →
        card_order c = ToString (Num (Fin (Z.of_nat number) 0))
  else r.1.1 = cards.
Proof.
  cbv zeta. unfold addCard_article. destruct page as [section checks].
  destruct (prodContainer (productId data)); [|done].
  destruct (scoreList _ _ _) as [pg' [scores|e|]].
  - destruct (scoreSummary scores) as [s|e|]; eexists _, _; (split; [done|]).
    + by intros c [= <-].
    + done.
    + done.
  - eexists _, _. by split.
  - eexists _, _. by split.
Qed.

(** X27.  When the loop of [buildInterface] over the SKUs of a product ends,
    the section has a card for each SKU below the title card, and a card
    with contents shows its place in the deck as its number: the first
    card below the title card shows 1.  When the section is not found it
    has no card at all. *)
Theorem buildDeck_numbers (prodContainer : jsval → bool) (g : globals)
    (product : Product) (checks : list string) :
  let deck := (buildDeck prodContainer g product checks).1.1 in
  (buildDeck prodContainer g product checks).2 = Ok () →
  length deck =
    (if prodContainer (productId product) then S (size (skus product)) else 0) ∧
  ∀ k child, deck !! k = Some child →
    match child with
    | title_card _ _ _ _ => k = 0
    | sku_card _ (Some contents) =>
        card_order contents = ToString (Num (Fin (Z.of_nat k) 0))
    | sku_card _ None => 0 < k
    end.
Proof.
  cbv zeta. unfold buildDeck. intros Hok.
  set (n := length (map_to_list (skus product))).
  assert (Hn : n = size (skus product)) by (subst n; by rewrite length_map_to_list).
  pose proof (forEach_completed
    (λ (entry : string * SKU) (st : (list deck_child * (list string * list string)) * nat),
       let '(st, count) := st in
       let '(st', r) :=
         addCard_article prodContainer g product entry.2 entry.1 count st in
       ((st', count - 1), r))
    (λ done st,
       length done ≤ n →
       st.2 = n - length done ∧
       length st.1.1 = (if prodContainer (productId product) then length done else 0) ∧
       ∀ k child, st.1.1 !! k = Some child →
         match child with
         | title_card _ _ _ _ => False
         | sku_card _ (Some contents) =>
             card_order contents =
               ToString (Num (Fin (Z.of_nat (n - length done + k + 1)) 0))
         | sku_card _ None => True
         end)
    (map_to_list (skus product))
    (([], ([ToString (productId product); "product-container"], checks)), n)) as H.
  change (forEach _ _ _) with (addCards prodContainer g product checks) in H.
  destruct (addCards prodContainer g product checks)
    as [[[cards [section checks']] count] r].
  assert (Hr : r = Ok ()) by (by destruct r as [[]|e|]; simpl in Hok).
  subst r. cbn [fst snd] in *.
  destruct H as (_ & Hlen & Hnum); [| |done|by fold n|].
  { intros _. cbn [length fst snd]. split; [lia|]. split; [by destruct (prodContainer _)|].
    intros k child Hk. by rewrite lookup_nil in Hk. }
  { clear. intros done [sku skuData] [[cards page] count] IH Hstep Hle.
    rewrite length_app in Hle. cbn [length] in Hle.
    destruct IH as (Hcount & Hlen & Hnum); [lia|]. cbn [fst snd] in *. subst count.
    pose proof (addCard_article_cards prodContainer g product skuData sku
                  (n - length done) cards page) as Hcard.
    cbv zeta in Hcard.
    destruct (addCard_article _ _ _ _ _ _ _) as [[cards' page'] r']. cbn [fst snd] in *.
    rewrite length_app. cbn [length]. split; [lia|].
    destruct (prodContainer (productId product)).
    - destruct Hcard as (classes & contents & -> & Horder). cbn [length].
      split; [lia|]. intros [|k] child Hk.
      + injection Hk as <-. destruct contents as [c|]; [|done].
        rewrite (Horder c eq_refl). do 3 f_equal. lia.
      + specialize (Hnum k child Hk). destruct child as [? [c|]|]; [|done|done].
        rewrite Hnum. do 3 f_equal. lia.
    - subst cards'. split; [done|]. intros k child Hk.
      specialize (Hnum k child Hk). destruct child as [? [c|]|]; [|done|done].
      destruct cards; [by rewrite lookup_nil in Hk | done]. }
  fold n in Hlen, Hnum. rewrite Nat.sub_diag in Hnum.
  unfold addProductCard. destruct (prodContainer (productId product)).
  - cbn [length]. split; [lia|]. intros [|k] child Hk.
    + by injection Hk as <-.
    + specialize (Hnum k child Hk). destruct child as [? [c|]|]; [|lia|done].
      rewrite Hnum. do 3 f_equal. lia.
  - split; [lia|]. intros k child Hk. destruct cards; [|done].
    by rewrite lookup_nil in Hk.
Qed.

Lemma buildDeck_numbers_witness :
  let P1 := {| productId := Str "P1"; displayName := Str "Align Pant";
               size_ := Str "6"; prodImg := Str "p1.jpg";
               skus := {[ "A1" := {| skuScore := Num (Fin 66 (-1));
                                     skuImg := Str "a1.jpg" |};
                          "A2" := {| skuScore := Num (Fin 10 0);
                                     skuImg := Str "a2.jpg" |} ]} |} in
  let deck := (buildDeck (λ _, true) two_skus P1 []).1.1 in
  length deck = 3 ∧
  ∃ classes contents,
    deck !! 2 = Some (sku_card classes (Some contents)) ∧
    card_prodId contents = "ID: A1_P1" ∧ card_order contents = "2".
Proof.
  intros P1 deck.
  destruct (buildDeck_numbers (λ _, true) two_skus P1 []) as [Hlen Hnum];
    [by vm_compute|].
  split; [exact Hlen|].
  assert (Hk : ∃ classes contents,
             deck !! 2 = Some (sku_card classes (Some contents)) ∧
             card_prodId contents = "ID: A1_P1").
  { vm_compute. eexists _, _. split; reflexivity. }
  destruct Hk as (classes & contents & Hk & Hid).
  exists classes, contents.
  split; [exact Hk|]. split; [exact Hid|]. exact (Hnum 2 _ Hk).
Defined.

(** ** The button of a card and the sidebar *)

(** X28.  Whatever is clicked and in whatever order, on the button of the
    card, on the heading of its entry in the sidebar or on the icon of the
    heading: the photo of the card is hidden exactly when its summary is
    shown and its button is active; the score list in the sidebar is
    shown exactly when its heading is active; and the sidebar has the
    entry exactly when the button was clicked. *)
Theorem clicks_keep_in_step (clicks : list click) :
  let v := fold_left handle clicks card_built in
  photo_hidden v = button_active v ∧
  summary_hidden v = negb (button_active v) ∧
  (∀ s, sidebar v = Some s → scorelist_hidden s = negb (heading_active s)) ∧
  (sidebar v = None ↔ on_button ∉ clicks).
Proof.
  cbv zeta. induction clicks as [|e clicks IH] using rev_ind.
  - split_and!; try done. split; [|done]. intros _ H. by apply elem_of_nil in H.
  - rewrite fold_left_app. cbn [fold_left].
    destruct IH as (Hphoto & Hsummary & Hlist & Hentry).
    set (v := fold_left handle clicks card_built) in *.
    rewrite elem_of_app, list_elem_of_singleton.
    assert (Hmap : ∀ f : sidebar_entry → sidebar_entry,
              option_map f (sidebar v) = None ↔ on_button ∉ clicks).
    { intros f. rewrite <- Hentry. by destruct (sidebar v). }
    assert (Hstep : ∀ s, sidebar v = Some s →
              scorelist_hidden (heading_click s) = negb (heading_active (heading_click s)) ∧
              scorelist_hidden (heading_click (icon_click s)) =
                negb (heading_active (heading_click (icon_click s)))).
    { intros s Hs. cbn. by rewrite (Hlist s Hs). }
    destruct e; cbn [handle button_click in_sidebar button_active photo_hidden
                       summary_hidden sidebar].
    + rewrite Hphoto, Hsummary. split_and!; try done.
      * intros s [= <-]. destruct (sidebar v) as [s0|] eqn:Hs; [|done].
        apply (Hstep s0 eq_refl).
      * split; [done|]. intros H. destruct H. by right.
    + split_and!; try done.
      * intros s Hs. destruct (sidebar v) as [s0|]; [|done]. injection Hs as <-.
        apply (Hstep s0 eq_refl).
      * rewrite Hmap. split.
        -- intros H [H'|H']; [done | discriminate].
        -- intros H H'. apply H. by left.
    + split_and!; try done.
      * intros s Hs. destruct (sidebar v) as [s0|]; [|done]. injection Hs as <-.
        apply (Hstep s0 eq_refl).
      * rewrite Hmap. split.
        -- intros H [H'|H']; [done | discriminate].
        -- intros H H'. apply H. by left.
Qed.
